(** * blenderseed: scene utilities and object translators

    A shallow embedding of [util.py] (instance and particle enumeration,
    motion-blur sampling, camera field of view, OSL shader discovery and
    search paths, the interpreter's module paths, name and parameter
    helpers, layer and particle-system tests, the timer) and of
    [translators/object.py] (the object, instance and archive
    translators), with the properties of these functions that the design
    document states and further properties read off the code.

    Conventions.
    - Python floats are binary64 floats, compared with the [==] of the
      program; the functions of [math] and the matrices of [mathutils]
      are parameters.
    - Host (Blender) and renderer (appleseed) calls act on an explicit
      state; every host call is also recorded in a trace, so that the
      number and the order of the calls can be stated.
    - A Python exception is the [Raise] outcome of a computation. *)

From Stdlib Require Import ZArith Floats.
From stdpp Require Import base decidable option list strings gmap.

Local Open Scope Z_scope.
Local Open Scope list_scope.

(** ** Parameter lists: [filter_params] *)

Module Params.

Section FilterParams.
Context {A : Type} `{EqDecision A}.

(** One iteration of the loop of [filter_params]:
    [if p not in filter_list: filter_list.append(p)]. *)
Definition filter_step (filter_list : list A) (p : A) : list A :=
  if decide (p ∈ filter_list) then filter_list else filter_list ++ [p].

(** [filter_params(params)]: the loop runs over [params] from the left,
    starting from the empty [filter_list]. *)
Definition filter_params (params : list A) : list A :=
  foldl filter_step [] params.

(** The claimed result, written independently of the loop: every element
    is kept at its first occurrence and dropped from the rest. *)
Fixpoint first_occurrences (l : list A) : list A :=
  match l with
  | [] => []
  | x :: xs => x :: filter (λ y, y ≠ x) (first_occurrences xs)
  end.

Lemma filter_all (P : A → Prop) `{∀ x, Decision (P x)} (l : list A) :
  (∀ x, x ∈ l → P x) → filter P l = l.
Proof.
  induction l as [|x xs IH]; intros Hall; [done|].
  rewrite filter_cons_True by (apply Hall; left).
  f_equal. apply IH. intros y Hy. apply Hall. by right.
Qed.

Lemma first_occurrences_filter (P : A → Prop) `{∀ x, Decision (P x)} (l : list A) :
  first_occurrences (filter P l) = filter P (first_occurrences l).
Proof.
  induction l as [|x xs IH]; [done|].
  rewrite filter_cons. destruct (decide (P x)) as [HP|HP]; simpl.
  - rewrite filter_cons, decide_True by done. f_equal.
    rewrite IH, !list_filter_filter.
    apply list_filter_iff. tauto.
  - rewrite filter_cons, decide_False by done.
    rewrite IH, list_filter_filter.
    apply list_filter_iff. intros y. split; [|tauto].
    intros Hy. split; [done|]. by intros ->.
Qed.

Lemma foldl_filter_step (acc l : list A) :
  foldl filter_step acc l
  = acc ++ first_occurrences (filter (λ x, x ∉ acc) l).
Proof.
  revert acc. induction l as [|x xs IH]; intros acc; simpl.
  - by rewrite app_nil_r.
  - unfold filter_step at 2. rewrite filter_cons.
    destruct (decide (x ∈ acc)) as [Hin|Hnin].
    + rewrite decide_False by tauto. apply IH.
    + rewrite decide_True by done. rewrite IH, <- app_assoc. simpl.
      do 2 f_equal. rewrite <- first_occurrences_filter.
      rewrite list_filter_filter. f_equal.
      apply list_filter_iff. intros y.
      rewrite not_elem_of_app, list_elem_of_singleton. tauto.
Qed.

Lemma filter_params_first_occurrences (l : list A) :
  filter_params l = first_occurrences l.
Proof.
  unfold filter_params. rewrite foldl_filter_step. simpl. f_equal.
  apply filter_all. intros x _. apply not_elem_of_nil.
Qed.

Lemma first_occurrences_elem_of (x : A) (l : list A) :
  x ∈ first_occurrences l ↔ x ∈ l.
Proof.
  induction l as [|y ys IH]; simpl; [done|].
  rewrite !elem_of_cons, list_elem_of_filter, IH.
  destruct (decide (x = y)); tauto.
Qed.

Lemma first_occurrences_NoDup (l : list A) : NoDup (first_occurrences l).
Proof.
  induction l as [|y ys IH]; simpl; constructor.
  - rewrite list_elem_of_filter. by intros [Hne _].
  - by apply NoDup_filter.
Qed.

Lemma first_occurrences_sublist (l : list A) : sublist (first_occurrences l) l.
Proof.
  induction l as [|y ys IH]; simpl; [done|].
  constructor. etransitivity; [apply sublist_filter|done].
Qed.

Lemma first_occurrences_NoDup_id (l : list A) : NoDup l → first_occurrences l = l.
Proof.
  induction 1 as [|x l Hx Hl IH]; simpl; [done|].
  rewrite IH. f_equal. apply filter_all.
  intros y Hy ->. done.
Qed.

(** C10: [filter_params] returns the sublist of first occurrences of its
    input, in input order; the result has no duplicates, holds exactly
    the elements of the input, and filtering it again changes nothing. *)
Theorem filter_params_first_occurrence_dedup (params : list A) :
  filter_params params = first_occurrences params
  ∧ sublist (filter_params params) params
  ∧ NoDup (filter_params params)
  ∧ (∀ x, x ∈ filter_params params ↔ x ∈ params)
  ∧ filter_params (filter_params params) = filter_params params.
Proof.
  rewrite !filter_params_first_occurrences.
  split; [done|]. split; [apply first_occurrences_sublist|].
  split; [apply first_occurrences_NoDup|].
  split; [intros x; apply first_occurrences_elem_of|].
  apply first_occurrences_NoDup_id, first_occurrences_NoDup.
Qed.

End FilterParams.

End Params.

(** ** Names: [strip_spaces] and [join_names_underscore] *)

Module Names.

Import Stdlib.Strings.Ascii.

(** [s.split(sep)] for a separator [sep] of one character: the pieces of
    [s] between the occurrences of [sep], the empty ones included. *)
Fixpoint split (sep : Ascii.ascii) (s : string) : list string :=
  match s with
  | EmptyString => [EmptyString]
  | String c s' =>
      if Ascii.eqb c sep then EmptyString :: split sep s'
      else match split sep s' with
           | piece :: pieces => String c piece :: pieces
           | [] => [String c EmptyString]
           end
  end.

(** [sep.join(pieces)]. *)
Fixpoint join (sep : string) (pieces : list string) : string :=
  match pieces with
  | [] => EmptyString
  | [piece] => piece
  | piece :: pieces => (piece ++ sep ++ join sep pieces)%string
  end.

Definition strip_spaces (name : string) : string :=
  join "_" (split " "%char name).

Definition join_names_underscore (name1 name2 : string) : string :=
  join "_" [strip_spaces name1; strip_spaces name2].

(** [name] with every character [old] replaced by [new]. *)
Fixpoint replace_char (old new : Ascii.ascii) (name : string) : string :=
  match name with
  | EmptyString => EmptyString
  | String c name' =>
      String (if Ascii.eqb c old then new else c) (replace_char old new name')
  end.

(** The characters of a string. *)
Fixpoint chars (s : string) : list Ascii.ascii :=
  match s with
  | EmptyString => []
  | String c s' => c :: chars s'
  end.

Lemma split_nonempty (sep : Ascii.ascii) (s : string) : split sep s ≠ [].
Proof.
  destruct s as [|c s]; simpl; [done|].
  destruct (Ascii.eqb c sep); [done|]. by destruct (split sep s).
Qed.

Lemma join_cons_char (sep : string) (c : Ascii.ascii) (piece : string) (pieces : list string) :
  join sep (String c piece :: pieces) = String c (join sep (piece :: pieces)).
Proof. by destruct pieces. Qed.

Lemma join_cons_empty (sep : string) (pieces : list string) :
  pieces ≠ [] → join sep (EmptyString :: pieces) = (sep ++ join sep pieces)%string.
Proof. by destruct pieces. Qed.

(** Splitting at a character and joining the pieces with another one
    replaces the one by the other. *)
Lemma join_split (sep new : Ascii.ascii) (s : string) :
  join (String new EmptyString) (split sep s) = replace_char sep new s.
Proof.
  induction s as [|c s IH]; simpl; [done|].
  destruct (Ascii.eqb c sep).
  - rewrite join_cons_empty by apply split_nonempty. simpl. by rewrite IH.
  - pose proof (split_nonempty sep s) as Hne.
    destruct (split sep s) as [|piece pieces]; [done|].
    by rewrite join_cons_char, IH.
Qed.

Lemma chars_replace_char (old new : Ascii.ascii) (s : string) :
  chars (replace_char old new s)
  = (λ c, if Ascii.eqb c old then new else c) <$> chars s.
Proof. induction s as [|c s IH]; simpl; [done|]. by rewrite IH. Qed.

Lemma length_replace_char (old new : Ascii.ascii) (s : string) :
  String.length (replace_char old new s) = String.length s.
Proof. induction s as [|c s IH]; simpl; [done|]. by rewrite IH. Qed.

Lemma replace_char_idemp (old new : Ascii.ascii) (s : string) :
  new ≠ old →
  replace_char old new (replace_char old new s) = replace_char old new s.
Proof.
  intros Hne. induction s as [|c s IH]; simpl; [done|]. rewrite IH. f_equal.
  destruct (Ascii.eqb c old) eqn:Hc; [|by rewrite Hc].
  by apply Ascii.eqb_neq in Hne as ->.
Qed.

Lemma replace_char_append (old new : Ascii.ascii) (s1 s2 : string) :
  replace_char old new (s1 ++ s2)
  = (replace_char old new s1 ++ replace_char old new s2)%string.
Proof. induction s1 as [|c s1 IH]; simpl; [done|]. by rewrite IH. Qed.

Lemma length_append (s1 s2 : string) :
  String.length (s1 ++ s2) = (String.length s1 + String.length s2)%nat.
Proof. induction s1 as [|c s1 IH]; simpl; [done|]. by rewrite IH. Qed.

Lemma append_assoc (s1 s2 s3 : string) :
  ((s1 ++ s2) ++ s3 = s1 ++ s2 ++ s3)%string.
Proof. induction s1 as [|c s1 IH]; [done|]. exact (f_equal (String c) IH). Qed.

Lemma strip_spaces_replace_char (name : string) :
  strip_spaces name = replace_char " " "_" name.
Proof. apply join_split. Qed.

Lemma chars_strip_spaces (name : string) : " "%char ∉ chars (strip_spaces name).
Proof.
  rewrite strip_spaces_replace_char, chars_replace_char, list_elem_of_fmap.
  intros (c & Hc & _). destruct (Ascii.eqb c " ") eqn:Heq; [done|].
  apply Ascii.eqb_neq in Heq. by destruct Heq.
Qed.

(** [strip_spaces] puts an underscore in the place of every space and
    leaves the other characters where they are: the result has the length
    of the name and no space in it, and stripping it again changes
    nothing. *)
Theorem strip_spaces_puts_underscores (name : string) :
  chars (strip_spaces name)
  = (λ c, if Ascii.eqb c " " then "_"%char else c) <$> chars name
  ∧ String.length (strip_spaces name) = String.length name
  ∧ (" "%char ∉ chars (strip_spaces name))
  ∧ strip_spaces (strip_spaces name) = strip_spaces name.
Proof.
  split; [|split; [|split]].
  - rewrite strip_spaces_replace_char. apply chars_replace_char.
  - rewrite strip_spaces_replace_char. apply length_replace_char.
  - apply chars_strip_spaces.
  - rewrite !strip_spaces_replace_char. by apply replace_char_idemp.
Qed.

(** [join_names_underscore] gives the two stripped names with one
    underscore between them, which is what stripping the two names written
    with a space between them gives.  So the result has no space, it is one
    character longer than the two names together, and it does not tell
    where the first name ended: a space in a name and the boundary between
    the names give the same underscore. *)
Theorem join_names_underscore_strips_the_spaced_names (name1 name2 name3 : string) :
  join_names_underscore name1 name2
  = (strip_spaces name1 ++ "_" ++ strip_spaces name2)%string
  ∧ join_names_underscore name1 name2 = strip_spaces (name1 ++ " " ++ name2)
  ∧ String.length (join_names_underscore name1 name2)
    = S (String.length name1 + String.length name2)
  ∧ (" "%char ∉ chars (join_names_underscore name1 name2))
  ∧ join_names_underscore (name1 ++ " " ++ name2) name3
    = join_names_underscore name1 (name2 ++ " " ++ name3).
Proof.
  assert (Hjoin : ∀ n1 n2, join_names_underscore n1 n2
                           = strip_spaces (n1 ++ " " ++ n2)).
  { intros n1 n2. unfold join_names_underscore.
    rewrite !strip_spaces_replace_char, !replace_char_append. done. }
  split; [done|]. split; [apply Hjoin|]. rewrite !Hjoin.
  split; [|split; [apply chars_strip_spaces|]].
  - rewrite strip_spaces_replace_char, length_replace_char, !length_append.
    simpl. lia.
  - by rewrite append_assoc.
Qed.

End Names.

(** ** Python computations: outcomes, state and loops *)

Module Py.

(** The exceptions the modelled code can raise. *)
Inductive exn := IndexError | KeyError | TypeError | UnboundLocalError | AttributeError.

(** A call either returns a value or raises. *)
Inductive outcome (A : Type) :=
| Ok (a : A)
| Raise (e : exn).
Arguments Ok {A} a.
Arguments Raise {A} e.

(** A computation over a state [S]: the state at the point of a [Raise]
    is kept, nothing is rolled back. *)
Definition M (S A : Type) : Type := S → outcome A * S.

Definition ret {S A} (a : A) : M S A := λ s, (Ok a, s).

Definition raise {S A} (e : exn) : M S A := λ s, (Raise e, s).

Definition bind {S A B} (m : M S A) (k : A → M S B) : M S B :=
  λ s, match m s with
       | (Ok a, s') => k a s'
       | (Raise e, s') => (Raise e, s')
       end.

Definition gets {S A} (f : S → A) : M S A := λ s, (Ok (f s), s).

Definition modify {S} (f : S → S) : M S unit := λ s, (Ok tt, f s).

(** [for x in l: body], the loop variables threaded as [acc]. *)
Fixpoint for_each {S A B} (l : list A) (body : A → B → M S B) (acc : B) : M S B :=
  match l with
  | [] => ret acc
  | x :: xs => bind (body x acc) (for_each xs body)
  end.

(** [l[i]] on a list. *)
Definition getitem {S A} (l : list A) (i : nat) : M S A :=
  match l !! i with
  | Some x => ret x
  | None => raise IndexError
  end.


(** *** Laws used in the proofs *)

Lemma bind_Ok_inv {S A B} (m : M S A) (k : A → M S B) s b s' :
  bind m k s = (Ok b, s') →
  ∃ a s1, m s = (Ok a, s1) ∧ k a s1 = (Ok b, s').
Proof.
  unfold bind. destruct (m s) as [[a|e] s1]; [eauto|done].
Qed.

(** A loop that threads an extra variable [c], updated by [g] at every
    iteration and not read by the body. *)
Lemma for_each_counter {S A B C} (l : list A) (body : A → B → M S B) (g : C → C) acc c s :
  for_each l (λ x st, bind (body x st.1) (λ b, ret (b, g st.2))) (acc, c) s
  = match for_each l body acc s with
    | (Ok b, s') => (Ok (b, Nat.iter (length l) g c), s')
    | (Raise e, s') => (Raise e, s')
    end.
Proof.
  revert acc c s. induction l as [|x l IH]; intros acc c s; simpl; [done|].
  unfold bind in *.
  destruct (body x acc s) as [[b|e] s1]; simpl; [|done].
  rewrite IH. destruct (for_each l body b s1) as [[b'|e] s2]; [|done].
  by rewrite <- Nat.iter_succ_r.
Qed.

(** Invariants of loops: [I] holds of the loop variables and the state
    at every normal exit, [R] of the state at every raise. *)
Lemma for_each_invariant {S A B} (I : B → S → Prop) (R : S → Prop)
    (l : list A) (body : A → B → M S B) acc s :
  (∀ x b s0, x ∈ l → I b s0 →
     match body x b s0 with
     | (Ok b', s1) => I b' s1
     | (Raise _, s1) => R s1
     end) →
  I acc s →
  match for_each l body acc s with
  | (Ok b', s1) => I b' s1
  | (Raise _, s1) => R s1
  end.
Proof.
  revert acc s. induction l as [|x l IH]; intros acc s Hbody HI; simpl; [done|].
  unfold bind. pose proof (Hbody x acc s ltac:(left) HI) as Hx.
  destruct (body x acc s) as [[b|e] s1]; [|done].
  apply IH; [|done]. intros y b0 s0 Hy. apply Hbody. by right.
Qed.

End Py.

Notation "'let*' x ':=' m 'in' k" := (Py.bind m (λ x, k))
  (at level 10, x pattern, m at level 100, k at level 200,
   format "'[v' 'let*'  x  ':='  m  'in' '/' k ']'").
Notation "m ';;' k" := (Py.bind m (λ _, k))
  (at level 100, k at level 200, right associativity,
   format "'[v' m  ;; '/' k ']'").

(** ** Insertion-ordered dictionaries *)

Module Dict.

Section DictOps.
Context {K V : Type} `{EqDecision K}.

(** A [dict] as the list of its items in insertion order; keys are
    unique in every dictionary built from [empty] by [set]. *)
Definition dict : Type := list (K * V).

(** [d[k] = v]: an existing key keeps its position. *)
Fixpoint set (k : K) (v : V) (d : dict) : dict :=
  match d with
  | [] => [(k, v)]
  | (k', v') :: d' =>
      if decide (k = k') then (k, v) :: d' else (k', v') :: set k v d'
  end.

(** [d.get(k)]. *)
Fixpoint get (k : K) (d : dict) : option V :=
  match d with
  | [] => None
  | (k', v') :: d' => if decide (k = k') then Some v' else get k d'
  end.

(** [d.keys()]. *)
Definition keys (d : dict) : list K := d.*1.

(** [{k: v for (k, v) in items}]. *)
Definition of_items (items : list (K * V)) : dict :=
  foldl (λ d kv, set kv.1 kv.2 d) [] items.

(** [d.update(other)]. *)
Definition update (d other : dict) : dict :=
  foldl (λ d kv, set kv.1 kv.2 d) d other.


(** *** Lookup, keys and order *)

Lemma get_None (k : K) (d : dict) : get k d = None ↔ k ∉ keys d.
Proof.
  induction d as [|[k' v'] d IH]; simpl.
  - split; [intros _; apply not_elem_of_nil|done].
  - rewrite not_elem_of_cons. destruct (decide (k = k')) as [Heq|Hne].
    + split; [done|by intros [? _]].
    + rewrite IH. tauto.
Qed.

Lemma elem_of_get (k : K) (v : V) (d : dict) :
  NoDup (keys d) → (k, v) ∈ d → get k d = Some v.
Proof.
  induction d as [|[k' v'] d IH]; simpl; intros Hnd Hin.
  - by apply elem_of_nil in Hin.
  - change (NoDup (k' :: keys d)) in Hnd.
    apply NoDup_cons in Hnd as [Hk' Hnd].
    apply elem_of_cons in Hin as [[= -> ->]|Hin].
    + by rewrite decide_True.
    + rewrite decide_False; [by apply IH|].
      intros ->. apply Hk'. unfold keys.
      apply list_elem_of_fmap. by exists (k', v).
Qed.

Lemma get_set_eq (k : K) (v : V) (d : dict) : get k (set k v d) = Some v.
Proof.
  induction d as [|[k' v'] d IH]; simpl.
  - by rewrite decide_True.
  - destruct (decide (k = k')); simpl.
    + by rewrite decide_True.
    + by rewrite decide_False.
Qed.

Lemma get_set_ne (k k' : K) (v : V) (d : dict) :
  k ≠ k' → get k' (set k v d) = get k' d.
Proof.
  intros Hne. induction d as [|[k0 v0] d IH]; simpl.
  - by rewrite decide_False.
  - destruct (decide (k = k0)) as [->|]; simpl.
    + by rewrite !decide_False.
    + by rewrite IH.
Qed.

Lemma keys_set (k : K) (v : V) (d : dict) :
  keys (set k v d) = if decide (k ∈ keys d) then keys d else keys d ++ [k].
Proof.
  induction d as [|[k' v'] d IH]; simpl.
  - done.
  - destruct (decide (k = k')) as [->|Hne]; simpl.
    + rewrite decide_True; [done|left].
    + unfold keys in *. rewrite IH.
      destruct (decide (k ∈ d.*1)).
      * rewrite decide_True; [done|by right].
      * rewrite decide_False; [done|]. rewrite not_elem_of_cons. done.
Qed.

Lemma NoDup_keys_set (k : K) (v : V) (d : dict) :
  NoDup (keys d) → NoDup (keys (set k v d)).
Proof.
  intros Hnd. rewrite keys_set. case_decide; [done|].
  apply NoDup_app. split; [done|]. split; [|apply NoDup_singleton].
  intros x Hx ->%list_elem_of_singleton. done.
Qed.

Lemma NoDup_keys_foldl_set (items : list (K * V)) (d : dict) :
  NoDup (keys d) → NoDup (keys (foldl (λ d kv, set kv.1 kv.2 d) d items)).
Proof.
  revert d. induction items as [|[k v] items IH]; intros d Hnd; simpl; [done|].
  by apply IH, NoDup_keys_set.
Qed.

Lemma NoDup_keys_of_items (items : list (K * V)) : NoDup (keys (of_items items)).
Proof. apply NoDup_keys_foldl_set. constructor. Qed.

Lemma keys_foldl_set_subseteq (items : list (K * V)) (d : dict) (k : K) :
  k ∈ keys (foldl (λ d kv, set kv.1 kv.2 d) d items) ↔ k ∈ keys d ∨ k ∈ items.*1.
Proof.
  revert d. induction items as [|[k' v'] items IH]; intros d; simpl.
  - rewrite elem_of_nil. tauto.
  - rewrite IH, keys_set, elem_of_cons. case_decide as Hin.
    + split; [tauto|]. intros [?|[->|?]]; tauto.
    + rewrite elem_of_app, list_elem_of_singleton. tauto.
Qed.

Lemma keys_of_items (items : list (K * V)) (k : K) :
  k ∈ keys (of_items items) ↔ k ∈ items.*1.
Proof.
  unfold of_items. rewrite keys_foldl_set_subseteq.
  unfold keys. simpl. rewrite elem_of_nil. tauto.
Qed.

(** [d.update(other)] for a dictionary [other]: its values win. *)
Lemma get_update (k : K) (d other : dict) :
  NoDup (keys other) →
  get k (update d other) = match get k other with Some v => Some v | None => get k d end.
Proof.
  unfold update. revert d.
  induction other as [|[k' v'] other IH]; intros d Hnd; simpl; [done|].
  change (NoDup (k' :: keys other)) in Hnd.
  apply NoDup_cons in Hnd as [Hk' Hnd]. rewrite IH by done.
  destruct (decide (k = k')) as [->|Hne].
  - apply get_None in Hk'. by rewrite Hk', get_set_eq.
  - rewrite get_set_ne by done. done.
Qed.

(** An entry in the middle of a dictionary whose earlier keys differ. *)
Lemma get_middle (k : K) (v : V) (pre post : dict) :
  k ∉ keys pre → get k (pre ++ (k, v) :: post) = Some v.
Proof.
  induction pre as [|[k' v'] pre IH]; simpl; intros Hk.
  - by rewrite decide_True.
  - apply not_elem_of_cons in Hk as [Hne Hk]. rewrite decide_False by done.
    by apply IH.
Qed.

Lemma set_middle (k : K) (v v' : V) (pre post : dict) :
  k ∉ keys pre → set k v' (pre ++ (k, v) :: post) = pre ++ (k, v') :: post.
Proof.
  induction pre as [|[k0 v0] pre IH]; simpl; intros Hk.
  - by rewrite decide_True.
  - apply not_elem_of_cons in Hk as [Hne Hk]. rewrite decide_False by done.
    f_equal. by apply IH.
Qed.


Lemma get_foldl_set_elem_of (items : list (K * V)) (d : dict) (k : K) (v : V) :
  get k (foldl (λ d kv, set kv.1 kv.2 d) d items) = Some v →
  get k d = Some v ∨ (k, v) ∈ items.
Proof.
  revert d. induction items as [|[k' v'] items IH]; intros d; simpl; [auto|].
  intros [Hd|Hin]%IH; [|right; by right].
  destruct (decide (k' = k)) as [->|Hne].
  - rewrite get_set_eq in Hd. injection Hd as ->. right. left.
  - rewrite get_set_ne in Hd by done. by left.
Qed.

Lemma get_of_items_elem_of (items : list (K * V)) (k : K) (v : V) :
  get k (of_items items) = Some v → (k, v) ∈ items.
Proof. intros [Hd|Hin]%get_foldl_set_elem_of; done. Qed.

Lemma get_fmap_values (f : K → V → V) (d : dict) (k : K) :
  get k ((λ kv, (kv.1, f kv.1 kv.2)) <$> d) = f k <$> get k d.
Proof.
  induction d as [|[k' v'] d IH]; simpl; [done|].
  destruct (decide (k = k')) as [->|Hne]; [done|]. apply IH.
Qed.

Lemma keys_update (d other : dict) (k : K) :
  k ∈ keys (update d other) ↔ k ∈ keys d ∨ k ∈ keys other.
Proof. apply keys_foldl_set_subseteq. Qed.


Lemma Forall_set (P : K * V → Prop) (k : K) (v : V) (d : dict) :
  P (k, v) → Forall P d → Forall P (set k v d).
Proof.
  intros Hkv. induction 1 as [|[k' v'] d Hx Hd IH]; simpl.
  - by constructor.
  - destruct (decide (k = k')); by constructor.
Qed.

Lemma Forall_foldl_set (P : K * V → Prop) (items : list (K * V)) (d : dict) :
  Forall P items → Forall P d → Forall P (foldl (λ d kv, set kv.1 kv.2 d) d items).
Proof.
  intros Hitems. revert d. induction Hitems as [|[k v] items Hkv Hitems IH];
    intros d Hd; simpl; [done|].
  by apply IH, Forall_set.
Qed.

Lemma Forall_of_items (P : K * V → Prop) (items : list (K * V)) :
  Forall P items → Forall P (of_items items).
Proof. intros Hitems. by apply Forall_foldl_set. Qed.

Lemma Forall_update (P : K * V → Prop) (d other : dict) :
  Forall P d → Forall P other → Forall P (update d other).
Proof. intros Hd Hother. by apply Forall_foldl_set. Qed.

Lemma set_fresh (k : K) (v : V) (d : dict) :
  k ∉ keys d → set k v d = d ++ [(k, v)].
Proof.
  induction d as [|[k' v'] d IH]; simpl; [done|].
  rewrite not_elem_of_cons. intros [Hne Hd].
  rewrite decide_False by done. by rewrite IH.
Qed.

Lemma foldl_set_fresh (items : list (K * V)) : ∀ d : dict,
  NoDup (keys d ++ items.*1) →
  foldl (λ d kv, set kv.1 kv.2 d) d items = d ++ items.
Proof.
  induction items as [|[k v] items IH]; intros d Hnd; simpl.
  - by rewrite app_nil_r.
  - simpl in Hnd. rewrite set_fresh.
    + rewrite IH; [by rewrite <- app_assoc|].
      unfold keys. rewrite fmap_app. simpl. by rewrite <- app_assoc.
    + apply NoDup_app in Hnd as (_ & Hdisj & _).
      intros Hk. apply (Hdisj k Hk). left.
Qed.

(** A comprehension over items with distinct keys keeps them as they are. *)
Lemma of_items_NoDup (items : list (K * V)) :
  NoDup items.*1 → of_items items = items.
Proof. intros Hnd. unfold of_items. by rewrite foldl_set_fresh. Qed.

Lemma get_Some_elem_of (k : K) (v : V) (d : dict) :
  get k d = Some v → (k, v) ∈ d.
Proof.
  induction d as [|[k' v'] d IH]; simpl; [done|].
  destruct (decide (k = k')) as [->|Hne].
  - intros [= ->]. left.
  - intros Hget. right. by apply IH.
Qed.

End DictOps.

Arguments dict : clear implicits.

End Dict.

(** ** Scene export utilities of [util.py] *)

Module Util.

Import Py.

(** *** Data of the host and of [mathutils] *)

(** [mathutils.Vector] of size three. *)
Record Vector := { vx : float; vy : float; vz : float }.

(** [v * s] for a vector and a float: component-wise. *)
Definition vec_mul (v : Vector) (s : float) : Vector :=
  {| vx := (vx v * s)%float; vy := (vy v * s)%float; vz := (vz v * s)%float |}.

(** What the program takes from its runtime: the matrices of [mathutils]
    with the three operations the code calls, and the order in which a
    two-element [set] of floats is iterated (decided by hashing). *)
Class Runtime := {
  Matrix : Type;
  (** [mathutils.Matrix.Translation(v)] *)
  Translation : Vector → Matrix;
  (** [mathutils.Matrix.Scale(factor, size, axis)] *)
  Scale : float → nat → Z * Z * Z → Matrix;
  (** [a * b] on matrices *)
  matmul : Matrix → Matrix → Matrix;
  (** [true] when iterating [{a, b}], [a ≠ b], yields [b] first *)
  set_swaps : float → float → bool;
}.

(** Iteration over the set literal [{a, b}]: equal floats are one element. *)
Definition set_literal2 `{Runtime} (a b : float) : list float :=
  if (a =? b)%float then [a]
  else if set_swaps a b then [b; a] else [a; b].

(** The position of the scene on the time line: [scene.frame_current] and
    [scene.frame_subframe]. [scene.frame_set(frame, subframe=s)] moves the
    scene to that position; the default subframe is 0.0. *)
Record Timeline := {
  frame_current : Z;
  frame_subframe : float;
}.

Section Host.

Context `{Runtime}.

(** An object being instanced ([dupli.object]): a name and its scale,
    which the host evaluates at the current time. *)
Record ObjectRef := {
  ref_name : string;
  ref_scale : Timeline → Vector;
}.

(** An entry of [ob.dupli_list]. *)
Record DupliObject := {
  dupli_object : ObjectRef;
  dupli_matrix : Matrix;
}.

Inductive dupli_settings := VIEWPORT | RENDER.

(** A particle, named as the host identifies it: the keys of the
    dictionaries below compare by that identity. *)
Definition Particle : Type := nat.

(** [settings.type]: the code tests for ['EMITTER'] only, [HAIR] stands
    for every other value. *)
Inductive particle_type := EMITTER | HAIR.
Inductive render_type := NONE | HALO | LINE | PATH | OBJECT | GROUP | BILLBOARD.
Inductive alive_state_type := ALIVE | DEAD | UNBORN | DYING.

(** A particle system: [settings.type], [settings.render_type], and what
    the host answers, at a given time, for [psys.particles] and for the
    attributes of a particle. *)
Record ParticleSystem := {
  settings_type : particle_type;
  settings_render_type : render_type;
  particles : Timeline → list Particle;
  alive_state : Timeline → Particle → alive_state_type;
  size : Timeline → Particle → float;
  location : Timeline → Particle → Vector;
}.

(** A modifier: a particle-system modifier with its [show_render] flag
    and its system, or a modifier of another type. *)
Inductive Modifier :=
| PARTICLE_SYSTEM (show_render : bool) (particle_system : ParticleSystem)
| OtherModifier (type : string) (show_render : bool).

Inductive motion_blur_type_enum := mb_object | mb_deformation.

(** The parent object: its appleseed settings, its modifiers ([None]
    when the object has no such attribute), and the dupli-list the host
    generates for it at a given time. *)
Record Object := {
  ob_enable_motion_blur : bool;
  ob_motion_blur_type : motion_blur_type_enum;
  modifiers : option (list Modifier);
  host_duplis : dupli_settings → Timeline → list DupliObject;
}.

(** [scene.appleseed]. *)
Record Scene := {
  enable_motion_blur : bool;
  enable_object_blur : bool;
  enable_deformation_blur : bool;
  shutter_open : float;
  shutter_close : float;
}.

(** Calls into the host, as the trace records them. *)
Inductive event :=
| FrameSet (frame : Z) (subframe : float)
| DupliListCreate (settings : dupli_settings) (at_time : Timeline)
| MatrixCopy (m : Matrix)
| DupliListClear.

(** The mutable part of the host: the time line, the dupli-list of the
    parent object (empty until created and after it is cleared), and the
    calls made so far. *)
Record host := {
  timeline : Timeline;
  dupli_list : list DupliObject;
  trace : list event;
}.

Definition emit (e : event) (h : host) : host :=
  {| timeline := timeline h; dupli_list := dupli_list h; trace := trace h ++ [e] |}.

(** [scene.frame_set(frame, subframe=subframe)]. *)
Definition frame_set (frame : Z) (subframe : float) : M host unit :=
  modify (λ h,
    {| timeline := {| frame_current := frame; frame_subframe := subframe |};
       dupli_list := dupli_list h;
       trace := trace h ++ [FrameSet frame subframe] |}).

(** [ob.dupli_list_create(scene, settings)]. *)
Definition dupli_list_create (ob : Object) (settings : dupli_settings) : M host unit :=
  modify (λ h,
    {| timeline := timeline h;
       dupli_list := host_duplis ob settings (timeline h);
       trace := trace h ++ [DupliListCreate settings (timeline h)] |}).

(** [ob.dupli_list_clear()]. *)
Definition dupli_list_clear : M host unit :=
  modify (λ h,
    {| timeline := timeline h; dupli_list := [];
       trace := trace h ++ [DupliListClear] |}).

(** [dupli.matrix.copy()]. *)
Definition matrix_copy (dupli : DupliObject) : M host Matrix :=
  modify (emit (MatrixCopy (dupli_matrix dupli))) ;; ret (dupli_matrix dupli).

(** *** Object / instance utilities *)

Definition ob_mblur_enabled (object : Object) (scene : Scene) : bool :=
  ob_enable_motion_blur object
  && (if ob_motion_blur_type object is mb_object then true else false)
  && enable_motion_blur scene && enable_object_blur scene.

(** What [get_instances] returns: [[object, matrix]] pairs without motion
    blur, [[object, [matrices]]] pairs with it. *)
Inductive instances :=
| StaticInstances (l : list (ObjectRef * Matrix))
| BlurInstances (l : list (ObjectRef * list Matrix)).

(** The second loop of [sample_mblur]:
    [matrices[m][1].append(ob.dupli_list[m].matrix.copy())]. *)
Definition append_close_sample (m : nat) (matrices : list (ObjectRef * list Matrix))
  : M host (list (ObjectRef * list Matrix)) :=
  let* entry := getitem matrices m in
  let* dl := gets dupli_list in
  let* dupli := getitem dl m in
  let* c := matrix_copy dupli in
  ret (<[m := (entry.1, entry.2 ++ [c])]> matrices).

Definition sample_mblur (ob : Object) (scene : Scene) (dupli : bool)
  : M host (list (ObjectRef * list Matrix)) :=
  let* frame_orig := gets (λ h, frame_current (timeline h)) in
  (* Collect matrices at shutter open. *)
  frame_set frame_orig (shutter_open scene) ;;
  dupli_list_create ob VIEWPORT ;;
  let* dl := gets dupli_list in
  let* matrices :=
    for_each dl (λ dupli matrices,
      let* c := matrix_copy dupli in
      ret (matrices ++ [(dupli_object dupli, [c])])) [] in
  dupli_list_clear ;;
  (* Advance to shutter close, collect matrices. *)
  frame_set frame_orig (shutter_close scene) ;;
  dupli_list_create ob VIEWPORT ;;
  let* dl := gets dupli_list in
  let* matrices := for_each (seq 0 (length dl)) append_close_sample matrices in
  dupli_list_clear ;;
  (* Reset timeline and return. *)
  frame_set frame_orig 0%float ;;
  ret matrices.

Definition get_instances (obj_parent : Object) (scene : Scene) : M host instances :=
  if ob_mblur_enabled obj_parent scene then
    let* dupli_list := sample_mblur obj_parent scene true in
    ret (BlurInstances dupli_list)
  else
    dupli_list_create obj_parent VIEWPORT ;;
    let* dl := gets dupli_list in
    let* dupli_list :=
      for_each dl (λ dupli dupli_list,
        let* dupli_matrix := matrix_copy dupli in
        ret (dupli_list ++ [(dupli_object dupli, dupli_matrix)])) [] in
    dupli_list_clear ;;
    ret (StaticInstances dupli_list).

(** *** Particle system utilities *)

(** The values of the dictionaries below: [[dupli.object, [matrices]]]. *)
Definition psys_entry : Type := ObjectRef * list Matrix.

Definition is_alive (a : alive_state_type) : bool :=
  if a is ALIVE then true else false.

(** [[p for p in psys.particles if p.alive_state == 'ALIVE']] for an
    emitter, [[p for p in psys.particles]] otherwise, at time [tl]. *)
Definition collect_particles (psys : ParticleSystem) (tl : Timeline) : list Particle :=
  match settings_type psys with
  | EMITTER => filter (λ p, is_alive (alive_state psys tl p)) (particles psys tl)
  | HAIR => particles psys tl
  end.

(** [{p[0]: [p[1], []] for p in p_duplis_pairs}]. *)
Definition empty_entries (p_duplis_pairs : list (Particle * ObjectRef))
  : Dict.dict Particle psys_entry :=
  Dict.of_items ((λ p, (p.1, (p.2, []))) <$> p_duplis_pairs).

(** The matrix of an emitter particle, lines 491-498 and 547-554. *)
Definition emitter_matrix (psys : ParticleSystem) (tl : Timeline)
    (particle : Particle) (dupli_ob : ObjectRef) : Matrix :=
  let size := size psys tl particle in
  let loc := location psys tl particle in
  let scale := vec_mul (ref_scale dupli_ob tl) size in
  let transl := Translation loc in
  let scale := matmul (matmul (Scale (vx scale) 4 (1, 0, 0))
                              (Scale (vy scale) 4 (0, 1, 0)))
                      (Scale (vz scale) 4 (0, 0, 1)) in
  matmul transl scale.

(** [dupli_dict[particle][1].append(mat)]. *)
Definition append_matrix (particle : Particle) (mat : Matrix)
    (dupli_dict : Dict.dict Particle psys_entry)
  : M host (Dict.dict Particle psys_entry) :=
  match Dict.get particle dupli_dict with
  | Some entry => ret (Dict.set particle (entry.1, entry.2 ++ [mat]) dupli_dict)
  | None => raise KeyError
  end.

(** The body of the loops over [dupli_dict.keys()] for an emitter. *)
Definition emitter_sample (psys : ParticleSystem) (particle : Particle)
    (dupli_dict : Dict.dict Particle psys_entry)
  : M host (Dict.dict Particle psys_entry) :=
  let* tl := gets timeline in
  match Dict.get particle dupli_dict with
  | Some entry =>
      append_matrix particle (emitter_matrix psys tl particle entry.1) dupli_dict
  | None => raise KeyError
  end.

(** The body of the loop over [dupli_dict.keys()] for hair:
    [mat = ob.dupli_list[new_index].matrix.copy()], append, count. *)
Definition hair_sample (particle : Particle)
    (st : Dict.dict Particle psys_entry * nat)
  : M host (Dict.dict Particle psys_entry * nat) :=
  let* dl := gets dupli_list in
  let* dupli := getitem dl st.2 in
  let* mat := matrix_copy dupli in
  let* dupli_dict := append_matrix particle mat st.1 in
  ret (dupli_dict, S st.2).

(** [duplis.append(ob.dupli_list[dupli_index].object)] for
    [dupli_index in range(start, current_total)]. *)
Definition collect_duplis (start current_total : nat) : M host (list ObjectRef) :=
  for_each (seq start (current_total - start)) (λ dupli_index duplis,
    let* dl := gets dupli_list in
    let* dupli := getitem dl dupli_index in
    ret (duplis ++ [dupli_object dupli])) [].

(** [sample_psys_mblur] returns [False] or a pair. *)
Inductive psys_mblur_result :=
| ReturnFalse
| ReturnPair (dupli_dict : Dict.dict Particle psys_entry) (index : nat).

Definition sample_psys_mblur (ob : Object) (scene : Scene) (psys : ParticleSystem)
    (index start current_total : nat) : M host psys_mblur_result :=
  let* frame_orig := gets (λ h, frame_current (timeline h)) in
  frame_set frame_orig (shutter_open scene) ;;
  let* tl := gets timeline in
  let particles := collect_particles psys tl in
  if decide (length particles = 0%nat) then ret ReturnFalse else
  let frames := set_literal2 (shutter_open scene) (shutter_close scene) in
  let* r :=
    match settings_type psys with
    | EMITTER =>
        (* Emitter particle system. *)
        dupli_list_create ob RENDER ;;
        let* dl := gets dupli_list in
        let duplis := dupli_object <$> dl in
        let p_duplis_pairs := zip particles duplis in
        let dupli_dict := empty_entries p_duplis_pairs in
        (* The loop variables: [dupli_dict], [new_index], and whether
           [scale], [transl] and [mat] have been assigned. *)
        let* r :=
          for_each frames (λ frame st,
            frame_set frame_orig frame ;;
            for_each (Dict.keys st.1) (λ particle st,
              let* dupli_dict := emitter_sample psys particle st.1 in
              ret (dupli_dict, (S st.2.1, true)))
            (st.1, (index, st.2.2)))
          (dupli_dict, (index, false)) in
        ret (r.1, ((index + r.2.1)%nat, r.2.2))
    | HAIR =>
        (* Hair particle system. *)
        dupli_list_create ob RENDER ;;
        let* duplis := collect_duplis start current_total in
        let p_duplis_pairs := zip particles duplis in
        let dupli_dict := empty_entries p_duplis_pairs in
        dupli_list_clear ;;
        (* The loop variables: [dupli_dict] and [new_index]. *)
        let* r :=
          for_each frames (λ frame st,
            frame_set frame_orig frame ;;
            dupli_list_create ob RENDER ;;
            let* st := for_each (Dict.keys st.1) hair_sample (st.1, index) in
            dupli_list_clear ;;
            ret st)
          (dupli_dict, index) in
        ret (r.1, ((index + r.2)%nat, false))
    end in
  (* Clean up and return: [del scale, transl, mat] needs the three names
     bound, which they are once an emitter sample was computed. *)
  (match settings_type psys with
   | EMITTER =>
       (if r.2.2 then ret tt else raise UnboundLocalError) ;;
       dupli_list_clear
   | HAIR => ret tt
   end) ;;
  frame_set frame_orig 0%float ;;
  ret (ReturnPair r.1 r.2.1).

Definition is_object_or_group (r : render_type) : bool :=
  match r with OBJECT | GROUP => true | _ => false end.

(** The dictionary of one particle system without motion blur,
    lines 480-503. *)
Definition static_dupli_dict (psys : ParticleSystem) (particles : list Particle)
    (start current_total : nat) : M host (Dict.dict Particle psys_entry) :=
  let* duplis := collect_duplis start current_total in
  match settings_type psys with
  | EMITTER =>
      let p_duplis_pairs := zip particles duplis in
      let dupli_dict := empty_entries p_duplis_pairs in
      for_each (Dict.keys dupli_dict) (emitter_sample psys) dupli_dict
  | HAIR =>
      let* dl := gets dupli_list in
      let* dupli_mat_list :=
        for_each dl (λ dupli l, let* c := matrix_copy dupli in ret (l ++ [c])) [] in
      let p_duplis_pairs := zip (zip particles duplis) dupli_mat_list in
      ret (Dict.of_items ((λ p, (p.1.1, (p.1.2, [p.2]))) <$> p_duplis_pairs))
  end.

(** The loop variables of [get_psys_instances]. *)
Record psys_loop := {
  all_duplis : Dict.dict Particle psys_entry;
  current_total : nat;
  index : nat;
}.

(** One iteration of the loop over [ob.modifiers]. *)
Definition psys_step (ob : Object) (scene : Scene) (modifier : Modifier)
    (st : psys_loop) : M host psys_loop :=
  match modifier with
  | PARTICLE_SYSTEM true psys =>
      if negb (is_object_or_group (settings_render_type psys)) then ret st else
      let* tl := gets timeline in
      let particles := collect_particles psys tl in
      let start := current_total st in
      let current_total := (current_total st + length particles)%nat in
      let* r :=
        if negb (ob_mblur_enabled ob scene) then
          (* No motion blur. *)
          let* dupli_dict := static_dupli_dict psys particles start current_total in
          ret (dupli_dict, index st)
        else
          (* Using motion blur: the result is unpacked as a pair. *)
          let* r := sample_psys_mblur ob scene psys (index st) start current_total in
          match r with
          | ReturnPair dupli_dict index => ret (dupli_dict, index)
          | ReturnFalse => raise TypeError
          end in
      (* Add current particle system to the collection. *)
      ret {| all_duplis := Dict.update (all_duplis st) r.1;
             current_total := current_total;
             index := r.2 |}
  | _ => ret st
  end.

Definition get_psys_instances (ob : Object) (scene : Scene)
  : M host (Dict.dict Particle psys_entry) :=
  match modifiers ob with
  | None => ret []
  | Some mods =>
      (if negb (ob_mblur_enabled ob scene) then dupli_list_create ob RENDER else ret tt) ;;
      let* st := for_each mods (psys_step ob scene)
                   {| all_duplis := []; current_total := 0; index := 0 |} in
      (if negb (ob_mblur_enabled ob scene) then dupli_list_clear else ret tt) ;;
      ret (all_duplis st)
  end.

(** *** Functions and predicates used to state the properties *)

(** The trace entries of copying the matrices of a dupli-list in order. *)
Definition copies (dl : list DupliObject) : list event :=
  (λ d, MatrixCopy (dupli_matrix d)) <$> dl.

(** The state after further host calls that leave the time line and the
    dupli-list as they are. *)
Definition with_trace (h : host) (t : list event) : host :=
  {| timeline := timeline h; dupli_list := dupli_list h; trace := trace h ++ t |}.

(** The times at which a trace created a dupli-list. *)
Definition dupli_creations (t : list event) : list Timeline :=
  omap (λ e, if e is DupliListCreate _ tl then Some tl else None) t.

(** The close pass of [sample_mblur] as a function: the entry at each
    index of the close list gets that dupli's matrix; entries past the
    end of the close list stay as they are. *)
Fixpoint merge_close (matrices : list (ObjectRef * list Matrix)) (dl : list DupliObject)
  : list (ObjectRef * list Matrix) :=
  match matrices, dl with
  | entry :: matrices', d :: dl' =>
      (entry.1, entry.2 ++ [dupli_matrix d]) :: merge_close matrices' dl'
  | _, [] => matrices
  | [], _ :: _ => []
  end.

(** The entries [sample_mblur] builds at shutter open. *)
Definition open_entries (dl : list DupliObject) : list (ObjectRef * list Matrix) :=
  (λ d, (dupli_object d, [dupli_matrix d])) <$> dl.

(** The current frame of [h] at another subframe. *)
Definition at_subframe (h : host) (subframe : float) : Timeline :=
  {| frame_current := frame_current (timeline h); frame_subframe := subframe |}.

(** The host calls of a normal run of [sample_mblur]. *)
Definition sample_mblur_calls (ob : Object) (scene : Scene) (h : host) : list event :=
  let t_open := at_subframe h (shutter_open scene) in
  let t_close := at_subframe h (shutter_close scene) in
  [FrameSet (frame_current (timeline h)) (shutter_open scene);
   DupliListCreate VIEWPORT t_open]
  ++ copies (host_duplis ob VIEWPORT t_open)
  ++ [DupliListClear;
      FrameSet (frame_current (timeline h)) (shutter_close scene);
      DupliListCreate VIEWPORT t_close]
  ++ copies (host_duplis ob VIEWPORT t_close)
  ++ [DupliListClear; FrameSet (frame_current (timeline h)) 0%float].

(** The emitter pass as a function: every entry gets the emitter matrix
    of its particle and its dupli object at the time [tl]. *)
Definition emitter_pass (psys : ParticleSystem) (tl : Timeline)
    (d : Dict.dict Particle psys_entry) : Dict.dict Particle psys_entry :=
  (λ kv, (kv.1, (kv.2.1, kv.2.2 ++ [emitter_matrix psys tl kv.1 kv.2.1]))) <$> d.

(** The hair pass as a function: the entries take, in order, the matrices
    of the duplis [dl]. *)
Definition hair_pass (dl : list DupliObject)
    (d : Dict.dict Particle psys_entry) : Dict.dict Particle psys_entry :=
  zip_with (λ kv dupli, (kv.1, (kv.2.1, kv.2.2 ++ [dupli_matrix dupli]))) d dl.

(** The state after [frame_set(frame, subframe=fr)] for each [fr] of
    [frames]. *)
Definition frames_state (frame : Z) (frames : list float) (h : host) : host :=
  {| timeline := match last frames with
                 | Some fr => {| frame_current := frame; frame_subframe := fr |}
                 | None => timeline h
                 end;
     dupli_list := dupli_list h;
     trace := trace h ++ (FrameSet frame <$> frames) |}.

(** The emitter passes, one per frame of the set. *)
Definition emitter_passes (psys : ParticleSystem) (frame : Z) (frames : list float)
    (d : Dict.dict Particle psys_entry) : Dict.dict Particle psys_entry :=
  foldl (λ d fr, emitter_pass psys {| frame_current := frame; frame_subframe := fr |} d)
        d frames.

(** The host calls of a normal run of [sample_psys_mblur] on an emitter. *)
Definition emitter_mblur_calls (scene : Scene) (h : host) : list event :=
  let frame := frame_current (timeline h) in
  [FrameSet frame (shutter_open scene);
   DupliListCreate RENDER (at_subframe h (shutter_open scene))]
  ++ (FrameSet frame <$> set_literal2 (shutter_open scene) (shutter_close scene))
  ++ [DupliListClear; FrameSet frame 0%float].

(** The hair passes, one per frame of the set: at each frame the entries
    take the matrices of the duplis from position [index] on. *)
Definition hair_passes (ob : Object) (frame : Z) (index : nat) (frames : list float)
    (d : Dict.dict Particle psys_entry) : Dict.dict Particle psys_entry :=
  foldl (λ d fr,
           hair_pass (take (length d) (drop index
                        (host_duplis ob RENDER
                           {| frame_current := frame; frame_subframe := fr |}))) d)
        d frames.

(** The host calls of the hair passes over [n] entries. *)
Definition hair_calls (ob : Object) (frame : Z) (index n : nat) (frames : list float)
  : list event :=
  frames ≫= λ fr,
    let tl := {| frame_current := frame; frame_subframe := fr |} in
    FrameSet frame fr :: DupliListCreate RENDER tl
    :: copies (take n (drop index (host_duplis ob RENDER tl))) ++ [DupliListClear].

(** The host calls of a normal run of [sample_psys_mblur] on hair with
    [n] entries. *)
Definition hair_mblur_calls (ob : Object) (scene : Scene) (index n : nat) (h : host)
  : list event :=
  let frame := frame_current (timeline h) in
  [FrameSet frame (shutter_open scene);
   DupliListCreate RENDER (at_subframe h (shutter_open scene));
   DupliListClear]
  ++ hair_calls ob frame index n (set_literal2 (shutter_open scene) (shutter_close scene))
  ++ [FrameSet frame 0%float].

(** The particle systems [get_psys_instances] processes: those of the
    particle-system modifiers shown in renders whose particles are
    rendered as objects or groups. *)
Definition rendered_systems (mods : list Modifier) : list ParticleSystem :=
  omap (λ modifier,
          match modifier with
          | PARTICLE_SYSTEM true psys =>
              if is_object_or_group (settings_render_type psys) then Some psys else None
          | _ => None
          end) mods.

(** What the host must supply for [sample_psys_mblur] to reach its final
    [return]: for an emitter one dupli to pair a particle with (the final
    [del] needs one computed sample); for hair, dupli-lists long enough
    for the indices [start .. current_total - 1] at shutter open and
    [index ..] at every sampled time. *)
Definition duplis_suffice (ob : Object) (scene : Scene) (psys : ParticleSystem)
    (index start current_total : nat) (h : host) : Prop :=
  let frame := frame_current (timeline h) in
  let particles := collect_particles psys (at_subframe h (shutter_open scene)) in
  let dl := host_duplis ob RENDER (at_subframe h (shutter_open scene)) in
  match settings_type psys with
  | EMITTER => dl ≠ []
  | HAIR =>
      (start + (current_total - start) ≤ length dl)%nat
      ∧ ∀ fr, fr ∈ set_literal2 (shutter_open scene) (shutter_close scene) →
          (index + length (empty_entries (zip particles
                             (dupli_object <$> take (current_total - start) (drop start dl))))
           ≤ length (host_duplis ob RENDER
                       {| frame_current := frame; frame_subframe := fr |}))%nat
  end.

(** An entry [e] of particle [p] was produced by one of [systems]: [p] is
    one of its collected particles, and if the system is an emitter the
    entry holds exactly the emitter matrix. *)
Definition entry_from (systems : list ParticleSystem) (tl : Timeline)
    (p : Particle) (e : psys_entry) : Prop :=
  ∃ psys, psys ∈ systems ∧ p ∈ collect_particles psys tl
          ∧ (settings_type psys = EMITTER → e.2 = [emitter_matrix psys tl p e.1]).

(** Every entry of [d] holds [n] matrices. *)
Definition matrix_count (n : nat) (d : Dict.dict Particle psys_entry) : Prop :=
  Forall (λ kv, length kv.2.2 = n) d.

(** *** Reasoning about host calls *)

Lemma with_trace_nil h : with_trace h [] = h.
Proof. destruct h. unfold with_trace. simpl. by rewrite app_nil_r. Qed.

Lemma with_trace_app h t1 t2 :
  with_trace (with_trace h t1) t2 = with_trace h (t1 ++ t2).
Proof. unfold with_trace. simpl. by rewrite app_assoc. Qed.

Lemma for_each_copy {B} (f : DupliObject → Matrix → B) dl acc h :
  for_each dl (λ dupli acc, let* c := matrix_copy dupli in ret (acc ++ [f dupli c])) acc h
  = (Ok (acc ++ ((λ d, f d (dupli_matrix d)) <$> dl)), with_trace h (copies dl)).
Proof.
  revert acc h. induction dl as [|d dl IH]; intros acc h; simpl.
  - by rewrite app_nil_r, with_trace_nil.
  - unfold bind at 1. simpl. rewrite IH. rewrite <- app_assoc. simpl.
    f_equal. unfold with_trace, emit. simpl. by rewrite <- app_assoc.
Qed.

Lemma append_close_sample_ok pre_ms entry rest_ms pre_dl d rest_dl h :
  length pre_ms = length pre_dl →
  dupli_list h = pre_dl ++ d :: rest_dl →
  append_close_sample (length pre_ms) (pre_ms ++ entry :: rest_ms) h
  = (Ok (pre_ms ++ (entry.1, entry.2 ++ [dupli_matrix d]) :: rest_ms),
     with_trace h [MatrixCopy (dupli_matrix d)]).
Proof.
  intros Hlen Hdl. unfold append_close_sample, getitem, bind, gets, ret. simpl.
  rewrite list_lookup_middle by done. simpl.
  rewrite Hdl, list_lookup_middle by done. simpl.
  rewrite insert_app_r_alt by lia. by rewrite Nat.sub_diag.
Qed.

Lemma for_each_append_close rest_dl : ∀ pre_ms rest_ms pre_dl h,
  length pre_ms = length pre_dl →
  dupli_list h = pre_dl ++ rest_dl →
  (length rest_dl ≤ length rest_ms)%nat →
  for_each (seq (length pre_ms) (length rest_dl)) append_close_sample (pre_ms ++ rest_ms) h
  = (Ok (pre_ms ++ merge_close rest_ms rest_dl), with_trace h (copies rest_dl)).
Proof.
  induction rest_dl as [|d rest_dl IH]; intros pre_ms rest_ms pre_dl h Hlen Hdl Hle.
  - simpl. rewrite with_trace_nil. by destruct rest_ms.
  - destruct rest_ms as [|entry rest_ms]; simpl in Hle; [lia|].
    simpl. unfold bind at 1.
    rewrite (append_close_sample_ok _ _ _ pre_dl d rest_dl) by done.
    specialize (IH (pre_ms ++ [(entry.1, entry.2 ++ [dupli_matrix d])]) rest_ms
                   (pre_dl ++ [d]) (with_trace h [MatrixCopy (dupli_matrix d)])).
    rewrite length_app, Nat.add_1_r, <- !app_assoc in IH. simpl in IH.
    rewrite IH; [|rewrite !length_app; simpl; lia|done|lia].
    by rewrite with_trace_app.
Qed.

(** With more duplis at shutter close than at shutter open, the close
    pass indexes [matrices] past its end. *)
Lemma for_each_append_close_raise rest_dl : ∀ pre_ms rest_ms pre_dl h,
  length pre_ms = length pre_dl →
  dupli_list h = pre_dl ++ rest_dl →
  (length rest_ms < length rest_dl)%nat →
  for_each (seq (length pre_ms) (length rest_dl)) append_close_sample (pre_ms ++ rest_ms) h
  = (Raise IndexError, with_trace h (copies (take (length rest_ms) rest_dl))).
Proof.
  induction rest_dl as [|d rest_dl IH]; intros pre_ms rest_ms pre_dl h Hlen Hdl Hlt.
  - simpl in Hlt. lia.
  - destruct rest_ms as [|entry rest_ms].
    + simpl. unfold bind at 1, append_close_sample, getitem, bind.
      rewrite app_nil_r, lookup_ge_None_2 by done.
      by rewrite with_trace_nil.
    + simpl. unfold bind at 1.
      rewrite (append_close_sample_ok _ _ _ pre_dl d rest_dl) by done.
      specialize (IH (pre_ms ++ [(entry.1, entry.2 ++ [dupli_matrix d])]) rest_ms
                     (pre_dl ++ [d]) (with_trace h [MatrixCopy (dupli_matrix d)])).
      rewrite length_app, Nat.add_1_r, <- !app_assoc in IH. simpl in IH.
      rewrite IH; [|rewrite !length_app; simpl; lia|done|simpl in Hlt; lia].
      by rewrite with_trace_app.
Qed.

Lemma dupli_creations_app t1 t2 :
  dupli_creations (t1 ++ t2) = dupli_creations t1 ++ dupli_creations t2.
Proof. apply omap_app. Qed.

Lemma dupli_creations_copies dl : dupli_creations (copies dl) = [].
Proof. induction dl as [|d dl IH]; [done|]. simpl. apply IH. Qed.

(** [sample_mblur] when the close list is not longer than the open list. *)
Lemma sample_mblur_returns ob scene dupli h :
  let dl_open := host_duplis ob VIEWPORT (at_subframe h (shutter_open scene)) in
  let dl_close := host_duplis ob VIEWPORT (at_subframe h (shutter_close scene)) in
  (length dl_close ≤ length dl_open)%nat →
  sample_mblur ob scene dupli h
  = (Ok (merge_close (open_entries dl_open) dl_close),
     {| timeline := at_subframe h 0%float; dupli_list := [];
        trace := trace h ++ sample_mblur_calls ob scene h |}).
Proof.
  intros dl_open dl_close Hle.
  unfold sample_mblur.
  unfold bind at 1, gets at 1. unfold bind at 1, frame_set at 1, modify at 1.
  unfold bind at 1, dupli_list_create at 1, modify at 1.
  unfold bind at 1, gets at 1. simpl.
  unfold bind at 1.
  rewrite (for_each_copy (λ d c, (dupli_object d, [c]))). simpl.
  unfold bind at 1, dupli_list_clear at 1, modify at 1.
  unfold bind at 1, frame_set at 1, modify at 1.
  unfold bind at 1, dupli_list_create at 1, modify at 1.
  unfold bind at 1, gets at 1. simpl.
  unfold bind at 1.
  fold dl_open dl_close (open_entries dl_open).
  rewrite (for_each_append_close dl_close [] (open_entries dl_open) []);
    [|done|done|by unfold open_entries; rewrite length_fmap].
  simpl. unfold bind, dupli_list_clear, frame_set, modify, ret. simpl.
  do 2 f_equal. unfold sample_mblur_calls.
  fold dl_open dl_close. simpl. rewrite <- !app_assoc. reflexivity.
Qed.

(** With more duplis at shutter close than at shutter open the close pass
    indexes [matrices] past its end: [IndexError], the scene left at the
    shutter-close subframe with its dupli-list alive. *)
Lemma sample_mblur_raises ob scene dupli h :
  let frame := frame_current (timeline h) in
  let t_open := at_subframe h (shutter_open scene) in
  let t_close := at_subframe h (shutter_close scene) in
  let dl_open := host_duplis ob VIEWPORT t_open in
  let dl_close := host_duplis ob VIEWPORT t_close in
  (length dl_open < length dl_close)%nat →
  sample_mblur ob scene dupli h
  = (Raise IndexError,
     {| timeline := t_close; dupli_list := dl_close;
        trace := trace h
                 ++ [FrameSet frame (shutter_open scene); DupliListCreate VIEWPORT t_open]
                 ++ copies dl_open
                 ++ [DupliListClear; FrameSet frame (shutter_close scene);
                     DupliListCreate VIEWPORT t_close]
                 ++ copies (take (length dl_open) dl_close) |}).
Proof.
  intros frame t_open t_close dl_open dl_close Hlt.
  unfold sample_mblur.
  unfold bind at 1, gets at 1. unfold bind at 1, frame_set at 1, modify at 1.
  unfold bind at 1, dupli_list_create at 1, modify at 1.
  unfold bind at 1, gets at 1. simpl.
  unfold bind at 1.
  rewrite (for_each_copy (λ d c, (dupli_object d, [c]))). simpl.
  unfold bind at 1, dupli_list_clear at 1, modify at 1.
  unfold bind at 1, frame_set at 1, modify at 1.
  unfold bind at 1, dupli_list_create at 1, modify at 1.
  unfold bind at 1, gets at 1. simpl.
  unfold bind at 1.
  fold frame t_open t_close dl_open dl_close (open_entries dl_open).
  rewrite (for_each_append_close_raise dl_close [] (open_entries dl_open) []);
    [|done|done|by unfold open_entries; rewrite length_fmap].
  unfold open_entries at 1. rewrite length_fmap.
  unfold with_trace. simpl. do 2 f_equal. by rewrite <- !app_assoc.
Qed.




(** *** [sample_psys_mblur]: the two kinds of return *)

(** With no particle collected at shutter open the function returns
    [False] right after the first [frame_set]. *)
Lemma sample_psys_mblur_empty ob scene psys index start current_total h :
  collect_particles psys (at_subframe h (shutter_open scene)) = [] →
  sample_psys_mblur ob scene psys index start current_total h
  = (Ok ReturnFalse,
     {| timeline := at_subframe h (shutter_open scene);
        dupli_list := dupli_list h;
        trace := trace h ++ [FrameSet (frame_current (timeline h)) (shutter_open scene)] |}).
Proof.
  intros Hnil. unfold sample_psys_mblur.
  unfold bind at 1, gets at 1. unfold bind at 1, frame_set at 1, modify at 1.
  unfold bind at 1, gets at 1. simpl.
  fold (at_subframe h (shutter_open scene)). rewrite Hnil. done.
Qed.

(** With particles, a normal return is a pair, and the time line has
    been reset to the whole frame. *)
Lemma sample_psys_mblur_nonempty ob scene psys index start current_total h r h' :
  collect_particles psys (at_subframe h (shutter_open scene)) ≠ [] →
  sample_psys_mblur ob scene psys index start current_total h = (Ok r, h') →
  (∃ dupli_dict index', r = ReturnPair dupli_dict index')
  ∧ timeline h' = at_subframe h 0%float.
Proof.
  intros Hne. unfold sample_psys_mblur.
  unfold bind at 1, gets at 1. unfold bind at 1, frame_set at 1, modify at 1.
  unfold bind at 1, gets at 1. simpl.
  fold (at_subframe h (shutter_open scene)).
  destruct (decide _) as [Hlen|_].
  { by apply length_zero_iff_nil in Hlen. }
  intros (r1 & h1 & _ & Hrest)%bind_Ok_inv.
  apply bind_Ok_inv in Hrest as ([] & h2 & _ & Hrest).
  apply bind_Ok_inv in Hrest as ([] & h3 & Hset & Hret).
  unfold ret in Hret. injection Hret as <- <-.
  unfold frame_set, modify in Hset. injection Hset as <-.
  split; [eauto|done].
Qed.

(** *** One pass over [dupli_dict.keys()] *)

Lemma keys_emitter_pass psys tl d : Dict.keys (emitter_pass psys tl d) = Dict.keys d.
Proof.
  unfold Dict.keys, emitter_pass. rewrite <- list_fmap_compose. done.
Qed.

Lemma NoDup_middle_notin {V} (k : Particle) (v : V) (pre post : Dict.dict Particle V) :
  NoDup (Dict.keys (pre ++ (k, v) :: post)) → k ∉ Dict.keys pre.
Proof.
  unfold Dict.keys. rewrite fmap_app. simpl.
  intros (_ & Hdisj & _)%NoDup_app Hk. apply (Hdisj k Hk). left.
Qed.

Lemma keys_middle_update {V} (k : Particle) (v v' : V) (pre post : Dict.dict Particle V) :
  Dict.keys ((pre ++ [(k, v')]) ++ post) = Dict.keys (pre ++ (k, v) :: post).
Proof. unfold Dict.keys. rewrite <- app_assoc, !fmap_app. done. Qed.

Lemma for_each_emitter_sample psys post : ∀ pre h,
  NoDup (Dict.keys (pre ++ post)) →
  for_each (Dict.keys post) (emitter_sample psys) (pre ++ post) h
  = (Ok (pre ++ emitter_pass psys (timeline h) post), h).
Proof.
  induction post as [|[k [o ms]] post IH]; intros pre h Hnd; [done|].
  pose proof (NoDup_middle_notin _ _ _ _ Hnd) as Hk.
  simpl. unfold bind at 1, emitter_sample at 1, bind at 1, gets at 1.
  rewrite Dict.get_middle by done. unfold append_matrix.
  rewrite Dict.get_middle by done. simpl.
  rewrite Dict.set_middle by done.
  rewrite cons_middle, app_assoc, IH.
  - by rewrite <- app_assoc.
  - by rewrite (keys_middle_update k (o, ms)).
Qed.

Lemma for_each_hair_sample post : ∀ pre dl_pre dl_post rest h,
  NoDup (Dict.keys (pre ++ post)) →
  dupli_list h = dl_pre ++ dl_post ++ rest →
  length dl_post = length post →
  for_each (Dict.keys post) hair_sample (pre ++ post, length dl_pre) h
  = (Ok (pre ++ hair_pass dl_post post, (length dl_pre + length post)%nat),
     with_trace h (copies dl_post)).
Proof.
  induction post as [|[k [o ms]] post IH];
    intros pre dl_pre [|d dl_post] rest h Hnd Hdl Hlen; try done.
  - simpl. by rewrite !app_nil_r, Nat.add_0_r, with_trace_nil.
  - pose proof (NoDup_middle_notin _ _ _ _ Hnd) as Hk.
    simpl. unfold bind at 1, hair_sample at 1, bind at 1, gets at 1. simpl.
    unfold bind at 1, getitem. rewrite Hdl. simpl.
    rewrite list_lookup_middle by done. unfold ret at 1.
    unfold bind at 1, matrix_copy, bind at 1, modify, ret at 1.
    unfold bind at 1, append_matrix.
    rewrite Dict.get_middle by done. simpl.
    rewrite Dict.set_middle by done.
    rewrite (cons_middle _ pre post), (app_assoc pre).
    specialize (IH (pre ++ [(k, (o, ms ++ [dupli_matrix d]))]) (dl_pre ++ [d])
                   dl_post rest (emit (MatrixCopy (dupli_matrix d)) h)).
    replace (length (dl_pre ++ [d])) with (S (length dl_pre)) in IH
      by (rewrite length_app; simpl; lia).
    etransitivity; [apply IH|].
    + by rewrite (keys_middle_update k (o, ms)).
    + simpl. by rewrite Hdl, <- app_assoc.
    + simpl in Hlen. lia.
    + rewrite <- app_assoc. simpl. rewrite Nat.add_succ_r. f_equal.
      unfold emit, with_trace. simpl. by rewrite <- app_assoc.
Qed.

Lemma iter_counter (n i : nat) (b : bool) :
  Nat.iter n (λ c : nat * bool, (S c.1, true)) (i, b)
  = ((i + n)%nat, match n with O => b | S _ => true end).
Proof.
  induction n as [|n IH]; simpl.
  - by rewrite Nat.add_0_r.
  - rewrite IH. simpl. by rewrite Nat.add_succ_r.
Qed.

Lemma emitter_frames_loop psys frame index frames : ∀ d n b h,
  NoDup (Dict.keys d) →
  for_each frames (λ fr st,
      frame_set frame fr ;;
      for_each (Dict.keys st.1) (λ particle st,
        let* dupli_dict := emitter_sample psys particle st.1 in
        ret (dupli_dict, (S st.2.1, true)))
      (st.1, (index, st.2.2)))
    (d, (n, b)) h
  = (Ok (emitter_passes psys frame frames d,
         (match frames with [] => n | _ :: _ => (index + length d)%nat end,
          match frames, d with _ :: _, _ :: _ => true | _, _ => b end)),
     frames_state frame frames h).
Proof.
  induction frames as [|fr frames IH]; intros d n b h Hnd.
  - simpl. unfold ret, frames_state. simpl. rewrite app_nil_r. by destruct h.
  - simpl. unfold bind at 1. unfold bind at 1, frame_set at 1, modify at 1.
    match goal with |- context [for_each (Dict.keys d) ?body ?acc ?hh] =>
      assert (for_each (Dict.keys d) body acc hh
              = (Ok (emitter_pass psys (timeline hh) d,
                     ((index + length (Dict.keys d))%nat,
                      match length (Dict.keys d) with O => b | S _ => true end)), hh))
        as ->
    end.
    { etransitivity.
      { apply (for_each_counter (Dict.keys d) (emitter_sample psys)
                 (λ c : nat * bool, (S c.1, true))). }
      rewrite (for_each_emitter_sample psys d []) by done.
      by rewrite iter_counter. }
    simpl. etransitivity; [apply IH; by rewrite keys_emitter_pass|].
    unfold Dict.keys, emitter_pass. rewrite !length_fmap. f_equal.
    + f_equal. f_equal; destruct frames, d; done.
    + unfold frames_state. simpl. rewrite <- app_assoc. simpl.
      f_equal. rewrite last_cons. by destruct (last frames).
Qed.

Lemma set_literal2_cases (a b : float) :
  set_literal2 a b = [a] ∧ (a =? b)%float = true
  ∨ (set_literal2 a b = [a; b] ∨ set_literal2 a b = [b; a]) ∧ (a =? b)%float = false.
Proof.
  unfold set_literal2. destruct (a =? b)%float; [by left|].
  right. destruct (set_swaps a b); auto.
Qed.

Lemma set_literal2_nonempty (a b : float) : set_literal2 a b ≠ [].
Proof. destruct (set_literal2_cases a b) as [[-> _]|[[->| ->] _]]; done. Qed.

Lemma empty_entries_nil (pairs : list (Particle * ObjectRef)) :
  empty_entries pairs = [] ↔ pairs = [].
Proof.
  split; [|by intros ->].
  destruct pairs as [|[p o] pairs]; [done|]. intros Hnil.
  assert (p ∈ Dict.keys (empty_entries ((p, o) :: pairs))) as Hin.
  { unfold empty_entries. apply Dict.keys_of_items. simpl. left. }
  rewrite Hnil in Hin. by apply elem_of_nil in Hin.
Qed.

(** [sample_psys_mblur] on an emitter with particles: the dictionary
    pairs the particles with the duplis of the shutter-open list and holds
    one emitter matrix per element of the set of shutter times; with no
    dupli to pair, the final [del] finds its names unbound. *)
Lemma sample_psys_mblur_emitter ob scene psys index start current_total h :
  let frame := frame_current (timeline h) in
  let particles := collect_particles psys (at_subframe h (shutter_open scene)) in
  let dl := host_duplis ob RENDER (at_subframe h (shutter_open scene)) in
  let frames := set_literal2 (shutter_open scene) (shutter_close scene) in
  let dupli_dict := empty_entries (zip particles (dupli_object <$> dl)) in
  settings_type psys = EMITTER →
  particles ≠ [] →
  (dupli_dict = [] →
     (sample_psys_mblur ob scene psys index start current_total h).1
     = Raise UnboundLocalError)
  ∧ (dupli_dict ≠ [] →
     sample_psys_mblur ob scene psys index start current_total h
     = (Ok (ReturnPair (emitter_passes psys frame frames dupli_dict)
                       (index + (index + length dupli_dict))),
        {| timeline := at_subframe h 0%float; dupli_list := [];
           trace := trace h ++ emitter_mblur_calls scene h |})).
Proof.
  intros frame particles dl frames dupli_dict Hty Hne.
  assert (Hrun :
    sample_psys_mblur ob scene psys index start current_total h
    = let h1 := {| timeline := at_subframe h (shutter_open scene);
                   dupli_list := dl;
                   trace := trace h ++ [FrameSet frame (shutter_open scene);
                              DupliListCreate RENDER (at_subframe h (shutter_open scene))] |} in
      let r := (emitter_passes psys frame frames dupli_dict,
                ((index + (index + length dupli_dict))%nat,
                 match dupli_dict with [] => false | _ :: _ => true end)) in
      (((if r.2.2 then ret tt else raise UnboundLocalError) ;;
        dupli_list_clear) ;;
       frame_set frame 0%float ;;
       ret (ReturnPair r.1 r.2.1)) (frames_state frame frames h1)).
  { unfold sample_psys_mblur.
    unfold bind at 1, gets at 1. unfold bind at 1, frame_set at 1, modify at 1.
    unfold bind at 1, gets at 1. simpl.
    fold (at_subframe h (shutter_open scene)). fold particles.
    destruct (decide _) as [Hlen|_].
    { by apply length_zero_iff_nil in Hlen. }
    rewrite Hty. unfold bind at 1. unfold bind at 1, dupli_list_create at 1, modify at 1.
    unfold bind at 1, gets at 1. simpl. unfold bind at 1.
    fold dl dupli_dict frames frame.
    match goal with |- context [for_each frames ?body ?acc ?hh] =>
      set (c := for_each frames body acc hh);
      assert (c = (Ok (emitter_passes psys frame frames dupli_dict,
                       (match frames with
                        | [] => index
                        | _ :: _ => (index + length dupli_dict)%nat
                        end,
                        match frames, dupli_dict with
                        | _ :: _, _ :: _ => true
                        | _, _ => false
                        end)),
                   frames_state frame frames hh)) as ->
        by (subst c; apply emitter_frames_loop, Dict.NoDup_keys_of_items)
    end.
    pose proof (set_literal2_nonempty (shutter_open scene) (shutter_close scene))
      as Hfr.
    fold frames in Hfr. destruct frames as [|fr frames']; [done|].
    unfold ret at 1. cbv zeta. rewrite <- app_assoc. reflexivity. }
  rewrite Hrun. clear Hrun. split.
  - intros ->. done.
  - intros Hd. destruct dupli_dict as [|e dupli_dict'] eqn:Hdd; [done|].
    simpl. unfold bind, ret, dupli_list_clear, frame_set, modify. simpl.
    do 2 f_equal. unfold emitter_mblur_calls. fold frame frames.
    rewrite <- !app_assoc. reflexivity.
Qed.

Lemma for_each_hair_sample_at d i h :
  NoDup (Dict.keys d) →
  (i + length d ≤ length (dupli_list h))%nat →
  for_each (Dict.keys d) hair_sample (d, i) h
  = (Ok (hair_pass (take (length d) (drop i (dupli_list h))) d, (i + length d)%nat),
     with_trace h (copies (take (length d) (drop i (dupli_list h))))).
Proof.
  intros Hnd Hle.
  pose proof (for_each_hair_sample d [] (take i (dupli_list h))
                (take (length d) (drop i (dupli_list h)))
                (drop (length d) (drop i (dupli_list h))) h Hnd) as Hloop.
  assert (Hi : length (take i (dupli_list h)) = i)
    by (rewrite length_take; lia).
  rewrite Hi in Hloop. apply Hloop.
  - by rewrite !take_drop.
  - rewrite length_take, length_drop. lia.
Qed.

Lemma length_hair_pass dl d :
  length dl = length d → length (hair_pass dl d) = length d.
Proof. intros Hlen. unfold hair_pass. by apply length_zip_with_l_eq. Qed.

Lemma keys_hair_pass dl : ∀ d,
  length dl = length d → Dict.keys (hair_pass dl d) = Dict.keys d.
Proof.
  induction dl as [|x dl IH]; intros [|kv d] Hlen; simpl in *; try done.
  f_equal. apply IH. lia.
Qed.

Lemma hair_frames_loop ob frame index frames : ∀ d n h,
  NoDup (Dict.keys d) →
  (∀ fr, fr ∈ frames →
     (index + length d
      ≤ length (host_duplis ob RENDER {| frame_current := frame; frame_subframe := fr |}))%nat) →
  for_each frames (λ fr st,
      frame_set frame fr ;;
      dupli_list_create ob RENDER ;;
      let* st := for_each (Dict.keys st.1) hair_sample (st.1, index) in
      dupli_list_clear ;;
      ret st)
    (d, n) h
  = (Ok (hair_passes ob frame index frames d,
         match frames with [] => n | _ :: _ => (index + length d)%nat end),
     {| timeline := match last frames with
                    | Some fr => {| frame_current := frame; frame_subframe := fr |}
                    | None => timeline h
                    end;
        dupli_list := match frames with [] => dupli_list h | _ :: _ => [] end;
        trace := trace h ++ hair_calls ob frame index (length d) frames |}).
Proof.
  induction frames as [|fr frames IH]; intros d n h Hnd Hle.
  - simpl. unfold ret. rewrite app_nil_r. by destruct h.
  - simpl. unfold bind at 1. unfold bind at 1, frame_set at 1, modify at 1.
    unfold bind at 1, dupli_list_create at 1, modify at 1. simpl.
    unfold bind at 1.
    set (dl := host_duplis ob RENDER {| frame_current := frame; frame_subframe := fr |}).
    match goal with |- context [for_each (Dict.keys d) hair_sample ?acc ?hh] =>
      set (c := for_each (Dict.keys d) hair_sample acc hh);
      assert (c = (Ok (hair_pass (take (length d) (drop index dl)) d,
                       (index + length d)%nat),
                   with_trace hh (copies (take (length d) (drop index dl))))) as ->
        by (subst c; apply (for_each_hair_sample_at d index hh Hnd);
            simpl; apply Hle; left)
    end.
    assert (Hlen : length (take (length d) (drop index dl)) = length d).
    { rewrite length_take, length_drop.
      specialize (Hle fr ltac:(left)). fold dl in Hle. lia. }
    unfold bind at 1, dupli_list_clear at 1, modify at 1. unfold ret at 1.
    etransitivity; [apply IH|].
    + by rewrite keys_hair_pass.
    + intros fr' Hfr'. rewrite length_hair_pass by done. apply Hle. by right.
    + rewrite length_hair_pass by done. simpl. f_equal.
      * f_equal. by destruct frames.
      * f_equal.
        -- rewrite last_cons. by destruct (last frames).
        -- by destruct frames.
        -- fold dl. by rewrite <- !app_assoc.
Qed.

Lemma collect_duplis_loop n : ∀ start acc h,
  (start + n ≤ length (dupli_list h))%nat →
  for_each (seq start n) (λ dupli_index duplis,
      let* dl := gets dupli_list in
      let* dupli := getitem dl dupli_index in
      ret (duplis ++ [dupli_object dupli])) acc h
  = (Ok (acc ++ (dupli_object <$> take n (drop start (dupli_list h)))), h).
Proof.
  induction n as [|n IH]; intros start acc h Hle; simpl.
  - by rewrite app_nil_r.
  - destruct (lookup_lt_is_Some_2 (dupli_list h) start ltac:(lia)) as [d Hd].
    unfold bind at 1. unfold bind at 1, gets at 1. unfold bind at 1, getitem.
    rewrite Hd. unfold ret at 1. unfold ret at 1.
    rewrite IH by lia. rewrite (drop_S _ _ _ Hd). simpl.
    by rewrite <- app_assoc.
Qed.

Lemma collect_duplis_ok start current_total h :
  (start + (current_total - start) ≤ length (dupli_list h))%nat →
  collect_duplis start current_total h
  = (Ok (dupli_object <$> take (current_total - start) (drop start (dupli_list h))), h).
Proof. intros Hle. unfold collect_duplis. by rewrite collect_duplis_loop. Qed.

(** [sample_psys_mblur] on hair with particles, the host lists being long
    enough for every index the code uses. *)
Lemma sample_psys_mblur_hair ob scene psys index start current_total h :
  let frame := frame_current (timeline h) in
  let particles := collect_particles psys (at_subframe h (shutter_open scene)) in
  let dl := host_duplis ob RENDER (at_subframe h (shutter_open scene)) in
  let frames := set_literal2 (shutter_open scene) (shutter_close scene) in
  let duplis := dupli_object <$> take (current_total - start) (drop start dl) in
  let dupli_dict := empty_entries (zip particles duplis) in
  settings_type psys = HAIR →
  particles ≠ [] →
  (start + (current_total - start) ≤ length dl)%nat →
  (∀ fr, fr ∈ frames →
     (index + length dupli_dict
      ≤ length (host_duplis ob RENDER {| frame_current := frame; frame_subframe := fr |}))%nat) →
  sample_psys_mblur ob scene psys index start current_total h
  = (Ok (ReturnPair (hair_passes ob frame index frames dupli_dict)
                    (index + (index + length dupli_dict))),
     {| timeline := at_subframe h 0%float; dupli_list := [];
        trace := trace h ++ hair_mblur_calls ob scene index (length dupli_dict) h |}).
Proof.
  intros frame particles dl frames duplis dupli_dict Hty Hne Hdl Hfr.
  unfold sample_psys_mblur.
  unfold bind at 1, gets at 1. unfold bind at 1, frame_set at 1, modify at 1.
  unfold bind at 1, gets at 1. simpl.
  fold (at_subframe h (shutter_open scene)). fold particles.
  destruct (decide _) as [Hlen|_].
  { by apply length_zero_iff_nil in Hlen. }
  rewrite Hty. unfold bind at 1. unfold bind at 1, dupli_list_create at 1, modify at 1.
  unfold bind at 1. rewrite collect_duplis_ok by done. simpl.
  fold dl duplis dupli_dict frames frame.
  unfold bind at 1, dupli_list_clear at 1, modify at 1. simpl. unfold bind at 1.
  match goal with |- context [for_each frames ?body ?acc ?hh] =>
    set (c := for_each frames body acc hh);
    pose proof (hair_frames_loop ob frame index frames dupli_dict index hh
                  (Dict.NoDup_keys_of_items _) Hfr) as Hloop;
    match type of Hloop with _ = ?rhs => change (c = rhs) in Hloop end;
    rewrite Hloop; clear Hloop c
  end.
  pose proof (set_literal2_nonempty (shutter_open scene) (shutter_close scene)) as Hnil.
  fold frames in Hnil.
  unfold hair_mblur_calls. fold frame frames.
  generalize (hair_calls ob frame index (length dupli_dict) frames). intros calls.
  destruct frames as [|fr frames']; [done|].
  unfold bind, ret, frame_set, modify. simpl.
  do 2 f_equal. by rewrite <- !app_assoc.
Qed.

(** *** The caller [get_psys_instances] under motion blur *)

Lemma rendered_systems_cons modifier mods :
  rendered_systems (modifier :: mods)
  = rendered_systems [modifier] ++ rendered_systems mods.
Proof. apply (omap_app _ [modifier] mods). Qed.

(** Unpacking [False] as a pair raises [TypeError]. *)
Lemma psys_step_mblur_empty ob scene psys st h :
  ob_mblur_enabled ob scene = true →
  is_object_or_group (settings_render_type psys) = true →
  collect_particles psys (at_subframe h (shutter_open scene)) = [] →
  (psys_step ob scene (PARTICLE_SYSTEM true psys) st h).1 = Raise TypeError.
Proof.
  intros Hmb Hrt Hnil. unfold psys_step. rewrite Hrt, Hmb. simpl.
  unfold bind at 1, gets at 1. unfold bind at 1. unfold bind at 1.
  by rewrite sample_psys_mblur_empty.
Qed.

Lemma psys_step_mblur_Ok ob scene modifier st h st' h' :
  ob_mblur_enabled ob scene = true →
  psys_step ob scene modifier st h = (Ok st', h') →
  frame_current (timeline h') = frame_current (timeline h)
  ∧ ∀ psys, psys ∈ rendered_systems [modifier] →
      collect_particles psys (at_subframe h (shutter_open scene)) ≠ [].
Proof.
  intros Hmb. unfold psys_step, rendered_systems.
  destruct modifier as [[|] psys|]; simpl;
    try (intros [= <- <-]; split; [done|by intros ? ?%elem_of_nil]).
  destruct (is_object_or_group (settings_render_type psys)); simpl;
    [|intros [= <- <-]; split; [done|by intros ? ?%elem_of_nil]].
  rewrite Hmb. simpl.
  unfold bind at 1, gets at 1.
  intros (r & h1 & Hr & Hret)%bind_Ok_inv.
  unfold ret in Hret. injection Hret as _ <-.
  apply bind_Ok_inv in Hr as (r' & h2 & Hsample & Hmatch).
  destruct (decide (collect_particles psys (at_subframe h (shutter_open scene)) = []))
    as [Hnil|Hne].
  { rewrite sample_psys_mblur_empty in Hsample by done.
    injection Hsample as <- <-. done. }
  destruct (sample_psys_mblur_nonempty _ _ _ _ _ _ _ _ _ Hne Hsample)
    as [(d & i & ->) Htl].
  unfold ret in Hmatch. injection Hmatch as _ <-.
  split; [by rewrite Htl|].
  intros psys' ->%list_elem_of_singleton. done.
Qed.

Lemma psys_loop_mblur_Ok ob scene mods : ∀ st h st' h',
  ob_mblur_enabled ob scene = true →
  for_each mods (psys_step ob scene) st h = (Ok st', h') →
  frame_current (timeline h') = frame_current (timeline h)
  ∧ ∀ psys, psys ∈ rendered_systems mods →
      collect_particles psys (at_subframe h (shutter_open scene)) ≠ [].
Proof.
  induction mods as [|modifier mods IH]; intros st h st' h' Hmb Hrun;
    simpl in Hrun.
  - injection Hrun as <- <-. split; [done|by intros ? ?%elem_of_nil].
  - apply bind_Ok_inv in Hrun as (st1 & h1 & Hstep & Hrest).
    destruct (psys_step_mblur_Ok _ _ _ _ _ _ _ Hmb Hstep) as [Hf1 Hp1].
    destruct (IH _ _ _ _ Hmb Hrest) as [Hf2 Hp2].
    split; [congruence|].
    intros psys Hin. rewrite rendered_systems_cons in Hin.
    apply elem_of_app in Hin as [Hin|Hin]; [by apply Hp1|].
    specialize (Hp2 psys Hin). unfold at_subframe in *. by rewrite <- Hf1.
Qed.

Lemma get_psys_instances_mblur_Ok ob scene mods h d h' :
  ob_mblur_enabled ob scene = true →
  modifiers ob = Some mods →
  get_psys_instances ob scene h = (Ok d, h') →
  ∀ psys, psys ∈ rendered_systems mods →
    collect_particles psys (at_subframe h (shutter_open scene)) ≠ [].
Proof.
  intros Hmb Hmods. unfold get_psys_instances. rewrite Hmods, Hmb. simpl.
  unfold bind at 1, ret at 1.
  intros (st & h1 & Hloop & _)%bind_Ok_inv.
  by destruct (psys_loop_mblur_Ok _ _ _ _ _ _ _ Hmb Hloop).
Qed.

(** C9: [sample_psys_mblur] returns the bare [False] when no particle is
    collected at the shutter-open subframe; when particles are collected a
    normal return is a [(dictionary, index)] pair, and it does return one
    when the host supplies the duplis the code indexes.  In the caller the
    unpacking of [False] raises [TypeError], so [get_psys_instances] under
    motion blur returns normally only if every particle system it
    processes has particles at the shutter-open subframe. *)
Theorem sample_psys_mblur_False_or_pair ob scene psys index start current_total h :
  let particles := collect_particles psys (at_subframe h (shutter_open scene)) in
  (particles = [] →
     (sample_psys_mblur ob scene psys index start current_total h).1 = Ok ReturnFalse)
  ∧ (particles ≠ [] →
     (∀ r h', sample_psys_mblur ob scene psys index start current_total h = (Ok r, h') →
              ∃ dupli_dict index', r = ReturnPair dupli_dict index')
     ∧ (duplis_suffice ob scene psys index start current_total h →
        ∃ dupli_dict index' h',
          sample_psys_mblur ob scene psys index start current_total h
          = (Ok (ReturnPair dupli_dict index'), h')))
  ∧ (ob_mblur_enabled ob scene = true →
     (is_object_or_group (settings_render_type psys) = true → particles = [] →
      ∀ st, (psys_step ob scene (PARTICLE_SYSTEM true psys) st h).1 = Raise TypeError)
     ∧ (∀ mods d h', modifiers ob = Some mods →
          get_psys_instances ob scene h = (Ok d, h') →
          ∀ psys', psys' ∈ rendered_systems mods →
            collect_particles psys' (at_subframe h (shutter_open scene)) ≠ [])).
Proof.
  intros particles. split; [|split].
  - intros Hnil. by rewrite sample_psys_mblur_empty.
  - intros Hne. split.
    + intros r h' Hrun.
      by destruct (sample_psys_mblur_nonempty _ _ _ _ _ _ _ _ _ Hne Hrun).
    + unfold duplis_suffice. destruct (settings_type psys) eqn:Hty.
      * intros Hdl.
        destruct (sample_psys_mblur_emitter ob scene psys index start current_total h
                    Hty Hne) as [_ Hok].
        rewrite Hok; [eauto|].
        rewrite empty_entries_nil. intros Hzip.
        apply (f_equal length) in Hzip. rewrite length_zip, length_fmap in Hzip.
        fold particles in Hzip. simpl in Hzip.
        destruct particles, (host_duplis ob RENDER _); simpl in *; done.
      * intros [Hdl Hfr].
        rewrite (sample_psys_mblur_hair ob scene psys index start current_total h
                   Hty Hne Hdl Hfr). eauto.
  - intros Hmb. split.
    + intros Hrt Hnil st. by apply psys_step_mblur_empty.
    + intros mods d h' Hmods Hrun. by eapply get_psys_instances_mblur_Ok.
Qed.

(** *** [get_psys_instances] without motion blur *)

Lemma collect_duplis_Ok_inv start current_total h duplis h' :
  collect_duplis start current_total h = (Ok duplis, h') →
  h' = h ∧ length duplis = (current_total - start)%nat.
Proof.
  unfold collect_duplis.
  assert (Hgen : ∀ l acc (r : list ObjectRef),
    for_each l (λ dupli_index duplis,
        let* dl := gets dupli_list in
        let* dupli := getitem dl dupli_index in
        ret (duplis ++ [dupli_object dupli])) acc h = (Ok r, h') →
    h' = h ∧ length r = (length acc + length l)%nat).
  { induction l as [|i l IH]; intros acc r; simpl.
    - intros [= <- <-]. split; [done|lia].
    - intros (acc' & h1 & Hbody & Hrest)%bind_Ok_inv.
      unfold bind at 1, gets at 1 in Hbody. unfold bind, getitem in Hbody.
      destruct (dupli_list h !! i) as [d|]; [|done].
      unfold ret in Hbody. injection Hbody as <- <-.
      apply IH in Hrest as [-> Hlen]. split; [done|].
      rewrite Hlen, length_app. simpl. lia. }
  intros Hrun. apply Hgen in Hrun as [-> Hlen]. split; [done|].
  by rewrite Hlen, length_seq.
Qed.

Lemma get_emitter_pass psys tl d p :
  Dict.get p (emitter_pass psys tl d)
  = (λ v, (v.1, v.2 ++ [emitter_matrix psys tl p v.1])) <$> Dict.get p d.
Proof.
  apply (Dict.get_fmap_values
           (λ k v, (v.1, v.2 ++ [emitter_matrix psys tl k v.1]))).
Qed.

Lemma get_empty_entries pairs p v :
  Dict.get p (empty_entries pairs) = Some v → v.2 = [].
Proof.
  unfold empty_entries. intros Hin%Dict.get_of_items_elem_of.
  apply list_elem_of_fmap in Hin as ([p' o] & [= -> ->] & _). done.
Qed.

Lemma keys_empty_entries pairs p :
  p ∈ Dict.keys (empty_entries pairs) ↔ p ∈ pairs.*1.
Proof.
  unfold empty_entries. rewrite Dict.keys_of_items, <- list_fmap_compose.
  done.
Qed.

(** The dictionary of one particle system without motion blur: its keys
    are particles of the system; for an emitter every collected particle
    is a key and holds exactly its emitter matrix. *)
Lemma static_dupli_dict_Ok psys particles start h d h' :
  static_dupli_dict psys particles start (start + length particles) h = (Ok d, h') →
  timeline h' = timeline h
  ∧ NoDup (Dict.keys d)
  ∧ (∀ p, p ∈ Dict.keys d → p ∈ particles)
  ∧ (settings_type psys = EMITTER →
     (∀ p, p ∈ particles → p ∈ Dict.keys d)
     ∧ ∀ p o ms, Dict.get p d = Some (o, ms) →
         ms = [emitter_matrix psys (timeline h) p o]).
Proof.
  unfold static_dupli_dict.
  intros (duplis & h1 & [-> Hlen]%collect_duplis_Ok_inv & Hrest)%bind_Ok_inv.
  replace (start + length particles - start)%nat with (length particles) in Hlen by lia.
  destruct (settings_type psys).
  - rewrite (for_each_emitter_sample psys (empty_entries (zip particles duplis)) [])
      in Hrest by apply Dict.NoDup_keys_of_items.
    injection Hrest as <- <-. simpl.
    split; [done|]. rewrite keys_emitter_pass.
    split; [apply Dict.NoDup_keys_of_items|].
    assert (Hkeys : ∀ p, p ∈ Dict.keys (empty_entries (zip particles duplis))
                         ↔ p ∈ particles).
    { intros p. rewrite keys_empty_entries, fst_zip by lia. done. }
    split; [intros p; apply Hkeys|]. intros _.
    split; [intros p; apply Hkeys|].
    intros p o ms. rewrite get_emitter_pass.
    destruct (Dict.get p _) as [[o' ms']|] eqn:Hget; [|done].
    apply get_empty_entries in Hget. simpl in *. subst ms'.
    by intros [= -> <-].
  - apply bind_Ok_inv in Hrest as (dl & h2 & [= <- <-] & Hrest).
    apply bind_Ok_inv in Hrest as (mats & h3 & Hcopy & Hret).
    rewrite (for_each_copy (λ _ c, c)) in Hcopy. injection Hcopy as _ <-.
    unfold ret in Hret. injection Hret as <- <-.
    split; [done|]. split; [apply Dict.NoDup_keys_of_items|].
    split; [|done].
    intros p. rewrite Dict.keys_of_items, <- list_fmap_compose.
    intros ([[p' o] m] & -> & Hin)%list_elem_of_fmap. simpl.
    apply elem_of_zip_l in Hin. by apply elem_of_zip_l in Hin.
Qed.

Lemma psys_step_static_Ok ob scene modifier st h st' h' :
  ob_mblur_enabled ob scene = false →
  psys_step ob scene modifier st h = (Ok st', h') →
  timeline h' = timeline h
  ∧ (∀ p, p ∈ Dict.keys (all_duplis st) → p ∈ Dict.keys (all_duplis st'))
  ∧ (∀ psys, psys ∈ rendered_systems [modifier] → settings_type psys = EMITTER →
       ∀ p, p ∈ collect_particles psys (timeline h) → p ∈ Dict.keys (all_duplis st'))
  ∧ (∀ p e, Dict.get p (all_duplis st') = Some e →
       Dict.get p (all_duplis st) = Some e
       ∨ entry_from (rendered_systems [modifier]) (timeline h) p e).
Proof.
  intros Hmb. unfold psys_step, rendered_systems.
  assert (Hskip : (Ok st, h) = (Ok st', h') →
    timeline h' = timeline h
    ∧ (∀ p, p ∈ Dict.keys (all_duplis st) → p ∈ Dict.keys (all_duplis st'))
    ∧ (∀ psys, psys ∈ @nil ParticleSystem → settings_type psys = EMITTER →
         ∀ p, p ∈ collect_particles psys (timeline h) → p ∈ Dict.keys (all_duplis st'))
    ∧ (∀ p e, Dict.get p (all_duplis st') = Some e →
         Dict.get p (all_duplis st) = Some e
         ∨ entry_from [] (timeline h) p e)).
  { intros [= <- <-]. repeat split; auto. by intros ? ?%elem_of_nil. }
  destruct modifier as [[|] psys|]; simpl; try exact Hskip.
  destruct (is_object_or_group (settings_render_type psys)); simpl;
    [|exact Hskip].
  clear Hskip. rewrite Hmb. simpl. unfold bind at 1, gets at 1.
  intros (r & h1 & Hr & Hret)%bind_Ok_inv.
  unfold ret in Hret. injection Hret as <- <-.
  apply bind_Ok_inv in Hr as (d & h2 & Hd & Hret).
  unfold ret in Hret. injection Hret as <- <-. simpl.
  apply static_dupli_dict_Ok in Hd as (Htl & Hnd & Hkeys & Hemit).
  split; [done|]. split; [|split].
  - intros p Hp. apply Dict.keys_update. by left.
  - intros psys' ->%list_elem_of_singleton Hty p Hp.
    apply Dict.keys_update. right. by apply Hemit.
  - intros p [o ms]. rewrite Dict.get_update by done.
    destruct (Dict.get p d) as [e|] eqn:Hget; [|by left].
    intros [= ->]. right. exists psys.
    split; [by apply list_elem_of_singleton|]. split.
    + apply Hkeys. apply dec_stable. intros Hnotin.
      apply Dict.get_None in Hnotin. congruence.
    + intros Hty. simpl. by eapply Hemit.
Qed.

Lemma entry_from_mono systems1 systems2 tl p e :
  (∀ psys, psys ∈ systems1 → psys ∈ systems2) →
  entry_from systems1 tl p e → entry_from systems2 tl p e.
Proof. intros Hsub (psys & Hin & Hrest). exists psys. split; [auto|done]. Qed.

Lemma psys_loop_static_Ok ob scene mods : ∀ st h st' h',
  ob_mblur_enabled ob scene = false →
  for_each mods (psys_step ob scene) st h = (Ok st', h') →
  timeline h' = timeline h
  ∧ (∀ p, p ∈ Dict.keys (all_duplis st) → p ∈ Dict.keys (all_duplis st'))
  ∧ (∀ psys, psys ∈ rendered_systems mods → settings_type psys = EMITTER →
       ∀ p, p ∈ collect_particles psys (timeline h) → p ∈ Dict.keys (all_duplis st'))
  ∧ (∀ p e, Dict.get p (all_duplis st') = Some e →
       Dict.get p (all_duplis st) = Some e
       ∨ entry_from (rendered_systems mods) (timeline h) p e).
Proof.
  induction mods as [|modifier mods IH]; intros st h st' h' Hmb Hrun;
    simpl in Hrun.
  - injection Hrun as <- <-. repeat split; auto. by intros ? ?%elem_of_nil.
  - apply bind_Ok_inv in Hrun as (st1 & h1 & Hstep & Hrest).
    destruct (psys_step_static_Ok _ _ _ _ _ _ _ Hmb Hstep)
      as (Htl1 & Hmono1 & Hkeys1 & Hent1).
    destruct (IH _ _ _ _ Hmb Hrest) as (Htl2 & Hmono2 & Hkeys2 & Hent2).
    rewrite Htl1 in *. rewrite rendered_systems_cons.
    split; [done|]. split; [auto|]. split.
    + intros psys [Hin|Hin]%elem_of_app Hty p Hp; [|by eapply Hkeys2].
      apply Hmono2. by eapply Hkeys1.
    + intros p e [He|He]%Hent2.
      * apply Hent1 in He as [He|He]; [by left|right].
        eapply entry_from_mono; [|done]. intros ??. apply elem_of_app. by left.
      * right. eapply entry_from_mono; [|done]. intros ??. apply elem_of_app. by right.
Qed.

(** C6: without motion blur, a live particle of an emitter system that
    [get_psys_instances] processes (and that belongs to no other processed
    system) is stored with exactly one matrix: the translation by the
    particle's location times the product of the three axis-aligned scale
    matrices whose factors are the scale of the stored dupli object, per
    axis, multiplied by the particle's size. *)
Theorem get_psys_instances_emitter_matrix ob scene mods h d h' psys particle :
  let tl := timeline h in
  ob_mblur_enabled ob scene = false →
  modifiers ob = Some mods →
  get_psys_instances ob scene h = (Ok d, h') →
  psys ∈ rendered_systems mods →
  settings_type psys = EMITTER →
  particle ∈ collect_particles psys tl →
  (∀ psys', psys' ∈ rendered_systems mods →
     particle ∈ collect_particles psys' tl → psys' = psys) →
  ∃ dupli_ob,
    Dict.get particle d
    = Some (dupli_ob,
            [matmul
               (Translation (location psys tl particle))
               (matmul
                  (matmul
                     (Scale (vx (ref_scale dupli_ob tl) * size psys tl particle)%float
                            4 (1, 0, 0))
                     (Scale (vy (ref_scale dupli_ob tl) * size psys tl particle)%float
                            4 (0, 1, 0)))
                  (Scale (vz (ref_scale dupli_ob tl) * size psys tl particle)%float
                         4 (0, 0, 1)))]).
Proof.
  intros tl Hmb Hmods Hrun Hin Hty Hp Huniq.
  unfold get_psys_instances in Hrun. rewrite Hmods, Hmb in Hrun. simpl in Hrun.
  apply bind_Ok_inv in Hrun as ([] & h1 & Hcreate & Hrun).
  unfold dupli_list_create, modify in Hcreate. injection Hcreate as <-.
  apply bind_Ok_inv in Hrun as (st & h2 & Hloop & Hrun).
  apply bind_Ok_inv in Hrun as ([] & h3 & _ & Hret).
  unfold ret in Hret. injection Hret as <- _.
  apply psys_loop_static_Ok in Hloop as (_ & _ & Hkeys & Hent); [|done].
  simpl in Hkeys, Hent. fold tl in Hkeys, Hent.
  specialize (Hkeys psys Hin Hty particle Hp).
  destruct (Dict.get particle (all_duplis st)) as [[dupli_ob ms]|] eqn:Hget.
  - exists dupli_ob. f_equal. f_equal.
    destruct (Hent _ _ Hget) as [Hnil|(psys' & Hin' & Hp' & Hmat)]; [done|].
    rewrite (Huniq psys' Hin' Hp') in Hmat. by apply Hmat.
  - apply Dict.get_None in Hget. done.
Qed.

(** *** The number of matrices per particle under motion blur *)

Lemma matrix_count_empty_entries pairs : matrix_count 0 (empty_entries pairs).
Proof.
  apply Forall_forall. intros [p [o ms]] Hin.
  apply Dict.elem_of_get in Hin; [|apply Dict.NoDup_keys_of_items].
  apply get_empty_entries in Hin. simpl in *. by subst ms.
Qed.

Lemma matrix_count_emitter_pass psys tl n d :
  matrix_count n d → matrix_count (S n) (emitter_pass psys tl d).
Proof.
  intros Hd. unfold matrix_count, emitter_pass. apply Forall_fmap.
  eapply Forall_impl; [exact Hd|]. intros [p [o ms]] Hlen. simpl in *.
  rewrite length_app. simpl. lia.
Qed.

Lemma matrix_count_emitter_passes psys frame frames : ∀ n d,
  matrix_count n d →
  matrix_count (n + length frames) (emitter_passes psys frame frames d).
Proof.
  induction frames as [|fr frames IH]; intros n d Hd; simpl.
  - by rewrite Nat.add_0_r.
  - rewrite Nat.add_succ_r. by apply (IH (S n)), matrix_count_emitter_pass.
Qed.

Lemma hair_sample_inv pre k o ms post i h d1 i1 h1 :
  k ∉ Dict.keys pre →
  hair_sample k (pre ++ (k, (o, ms)) :: post, i) h = (Ok (d1, i1), h1) →
  ∃ mat, d1 = pre ++ (k, (o, ms ++ [mat])) :: post.
Proof.
  intros Hk. unfold hair_sample. unfold bind at 1, gets at 1.
  intros (dupli & h2 & _ & Hrest)%bind_Ok_inv.
  apply bind_Ok_inv in Hrest as (mat & h3 & _ & Hrest).
  apply bind_Ok_inv in Hrest as (d & h4 & Happ & Hret).
  unfold ret in Hret. injection Hret as <- _ _.
  unfold append_matrix in Happ. simpl in Happ.
  rewrite Dict.get_middle in Happ by done. simpl in Happ.
  rewrite Dict.set_middle in Happ by done.
  unfold ret in Happ. injection Happ as <- _. eauto.
Qed.

Lemma for_each_hair_sample_count n post : ∀ pre i h d' i' h',
  NoDup (Dict.keys (pre ++ post)) →
  matrix_count n post →
  for_each (Dict.keys post) hair_sample (pre ++ post, i) h = (Ok (d', i'), h') →
  ∃ post', d' = pre ++ post' ∧ Dict.keys post' = Dict.keys post
           ∧ matrix_count (S n) post'.
Proof.
  induction post as [|[k [o ms]] post IH]; intros pre i h d' i' h' Hnd Hn Hrun.
  - simpl in Hrun. injection Hrun as <- _ _. exists []. by split; [|split; [|constructor]].
  - pose proof (NoDup_middle_notin _ _ _ _ Hnd) as Hk.
    apply Forall_cons in Hn as [Hms Hn]. simpl in Hms.
    simpl in Hrun. apply bind_Ok_inv in Hrun as ([d1 i1] & h1 & Hstep & Hrest).
    apply hair_sample_inv in Hstep as [mat ->]; [|done].
    rewrite (cons_middle _ pre post), (app_assoc pre) in Hrest.
    apply IH in Hrest as (post' & -> & Hkeys & Hn'); [| |done].
    + exists ((k, (o, ms ++ [mat])) :: post'). rewrite <- app_assoc.
      split; [done|]. split; [simpl; by rewrite Hkeys|].
      constructor; [|done]. simpl. rewrite length_app. simpl. lia.
    + by rewrite (keys_middle_update k (o, ms)).
Qed.

Lemma hair_frames_loop_count ob frame index frames : ∀ n d n0 h r h',
  NoDup (Dict.keys d) →
  matrix_count n d →
  for_each frames (λ fr st,
      frame_set frame fr ;;
      dupli_list_create ob RENDER ;;
      let* st := for_each (Dict.keys st.1) hair_sample (st.1, index) in
      dupli_list_clear ;;
      ret st)
    (d, n0) h = (Ok r, h') →
  matrix_count (n + length frames) r.1.
Proof.
  induction frames as [|fr frames IH]; intros n d n0 h r h' Hnd Hn Hrun;
    simpl in Hrun.
  - injection Hrun as <- _. simpl. by rewrite Nat.add_0_r.
  - apply bind_Ok_inv in Hrun as ([d1 i1] & h1 & Hstep & Hrest).
    apply bind_Ok_inv in Hstep as ([] & h2 & _ & Hstep).
    apply bind_Ok_inv in Hstep as ([] & h3 & _ & Hstep).
    apply bind_Ok_inv in Hstep as ([d2 i2] & h4 & Hpass & Hstep).
    apply bind_Ok_inv in Hstep as ([] & h5 & _ & Hret).
    unfold ret in Hret. injection Hret as <- <- _.
    simpl in Hpass.
    apply (for_each_hair_sample_count n d []) in Hpass
      as (d' & -> & Hkeys & Hn'); [|done|done].
    simpl. rewrite Nat.add_succ_r.
    eapply (IH (S n)); [|exact Hn'|exact Hrest]. simpl. by rewrite Hkeys.
Qed.

(** Whenever [sample_psys_mblur] returns a dictionary, every particle in
    it holds as many matrices as the set [{shutter_open, shutter_close}]
    has elements. *)
Lemma sample_psys_mblur_matrix_count ob scene psys index start current_total h d i h' :
  sample_psys_mblur ob scene psys index start current_total h
  = (Ok (ReturnPair d i), h') →
  matrix_count (length (set_literal2 (shutter_open scene) (shutter_close scene))) d.
Proof.
  intros Hrun.
  destruct (decide (collect_particles psys (at_subframe h (shutter_open scene)) = []))
    as [Hnil|Hne].
  { by rewrite sample_psys_mblur_empty in Hrun. }
  destruct (settings_type psys) eqn:Hty.
  - destruct (sample_psys_mblur_emitter ob scene psys index start current_total h
                Hty Hne) as [Hraise Hok].
    destruct (decide (empty_entries
                (zip (collect_particles psys (at_subframe h (shutter_open scene)))
                     (dupli_object <$>
                        host_duplis ob RENDER (at_subframe h (shutter_open scene)))) = []))
      as [He|He].
    + specialize (Hraise He). by rewrite Hrun in Hraise.
    + rewrite (Hok He) in Hrun. injection Hrun as <- _ _.
      apply (matrix_count_emitter_passes _ _ _ 0), matrix_count_empty_entries.
  - revert Hrun. unfold sample_psys_mblur.
    unfold bind at 1, gets at 1. unfold bind at 1, frame_set at 1, modify at 1.
    unfold bind at 1, gets at 1. simpl.
    fold (at_subframe h (shutter_open scene)).
    destruct (decide _) as [Hlen|_].
    { by apply length_zero_iff_nil in Hlen. }
    rewrite Hty.
    intros (r & h1 & Hr & Hrest)%bind_Ok_inv.
    apply bind_Ok_inv in Hrest as ([] & h2 & _ & Hrest).
    apply bind_Ok_inv in Hrest as ([] & h3 & _ & Hret).
    unfold ret in Hret. injection Hret as <- _ _.
    apply bind_Ok_inv in Hr as ([] & h4 & _ & Hr).
    apply bind_Ok_inv in Hr as (duplis & h5 & _ & Hr).
    apply bind_Ok_inv in Hr as ([] & h6 & _ & Hr).
    apply bind_Ok_inv in Hr as (r' & h7 & Hloop & Hret).
    unfold ret in Hret. injection Hret as <- _. simpl.
    eapply (hair_frames_loop_count _ _ _ _ 0); [| |exact Hloop].
    + apply Dict.NoDup_keys_of_items.
    + apply matrix_count_empty_entries.
Qed.

(** Equal shutter times: one matrix per particle; different: two. *)
Lemma sample_psys_mblur_one_or_two ob scene psys index start current_total h d i h' :
  sample_psys_mblur ob scene psys index start current_total h
  = (Ok (ReturnPair d i), h') →
  matrix_count (if (shutter_open scene =? shutter_close scene)%float then 1 else 2) d.
Proof.
  intros Hcount%sample_psys_mblur_matrix_count.
  by destruct (set_literal2_cases (shutter_open scene) (shutter_close scene))
    as [[Hs ->]|[[Hs|Hs] ->]]; rewrite Hs in Hcount.
Qed.

(** *** The number of matrices per particle, both modes *)

Lemma static_dupli_dict_matrix_count psys particles start current_total h d h' :
  static_dupli_dict psys particles start current_total h = (Ok d, h') →
  matrix_count 1 d.
Proof.
  unfold static_dupli_dict.
  intros (duplis & h1 & [-> Hlen]%collect_duplis_Ok_inv & Hrest)%bind_Ok_inv.
  destruct (settings_type psys).
  - rewrite (for_each_emitter_sample psys (empty_entries (zip particles duplis)) [])
      in Hrest by apply Dict.NoDup_keys_of_items.
    injection Hrest as <- _.
    apply matrix_count_emitter_pass, matrix_count_empty_entries.
  - apply bind_Ok_inv in Hrest as (dl & h2 & _ & Hrest).
    apply bind_Ok_inv in Hrest as (mats & h3 & _ & Hret).
    unfold ret in Hret. injection Hret as <- _.
    apply Dict.Forall_of_items, Forall_fmap, Forall_forall. by intros [[p o] m] _.
Qed.

Lemma psys_step_matrix_count ob scene modifier st h st' h' :
  let n := if ob_mblur_enabled ob scene
           then length (set_literal2 (shutter_open scene) (shutter_close scene))
           else 1%nat in
  matrix_count n (all_duplis st) →
  psys_step ob scene modifier st h = (Ok st', h') →
  matrix_count n (all_duplis st').
Proof.
  intros n Hst. unfold psys_step.
  destruct modifier as [[|] psys|]; try (by intros [= <- _]).
  destruct (is_object_or_group (settings_render_type psys)); simpl;
    [|by intros [= <- _]].
  unfold bind at 1, gets at 1.
  intros (r & h1 & Hr & Hret)%bind_Ok_inv.
  unfold ret in Hret. injection Hret as <- _. simpl.
  apply Dict.Forall_update; [done|]. subst n.
  destruct (ob_mblur_enabled ob scene); simpl in Hr.
  - apply bind_Ok_inv in Hr as ([|d i] & h2 & Hsample & Hret); [done|].
    unfold ret in Hret. injection Hret as <- _. simpl.
    by eapply sample_psys_mblur_matrix_count.
  - apply bind_Ok_inv in Hr as (d & h2 & Hd & Hret).
    unfold ret in Hret. injection Hret as <- _. simpl.
    by eapply static_dupli_dict_matrix_count.
Qed.

(** Every entry of the dictionary [get_psys_instances] returns holds one
    matrix without motion blur, and with it as many as the set of the two
    shutter times has elements. *)
Lemma get_psys_instances_matrix_count ob scene h d h' :
  get_psys_instances ob scene h = (Ok d, h') →
  matrix_count (if ob_mblur_enabled ob scene
                then length (set_literal2 (shutter_open scene) (shutter_close scene))
                else 1%nat) d.
Proof.
  unfold get_psys_instances. destruct (modifiers ob) as [mods|].
  - intros ([] & h1 & _ & Hrun)%bind_Ok_inv.
    apply bind_Ok_inv in Hrun as (st & h2 & Hloop & Hrun).
    apply bind_Ok_inv in Hrun as ([] & h3 & _ & Hret).
    unfold ret in Hret. injection Hret as <- _.
    pose proof (for_each_invariant
      (λ st _, matrix_count (if ob_mblur_enabled ob scene
                 then length (set_literal2 (shutter_open scene) (shutter_close scene))
                 else 1%nat) (all_duplis st))
      (λ _, True) mods (psys_step ob scene)
      {| all_duplis := []; current_total := 0; index := 0 |} h1) as Hinv.
    rewrite Hloop in Hinv. apply Hinv; [|constructor].
    intros modifier st0 h0 _ Hst0.
    destruct (psys_step ob scene modifier st0 h0) as [[st1|e] h4] eqn:Hstep; [|done].
    by eapply psys_step_matrix_count.
  - intros [= <- _]. constructor.
Qed.

(** *** [sample_mblur] when the dupli-list changes length during the frame *)

Lemma merge_close_objects dl_close : ∀ matrices : list (ObjectRef * list Matrix),
  (merge_close matrices dl_close).*1 = matrices.*1.
Proof.
  induction dl_close as [|d dl_close IH]; intros [|entry matrices]; simpl; try done.
  f_equal. apply IH.
Qed.

Lemma merge_close_counts dl_open : ∀ dl_close,
  (length dl_close ≤ length dl_open)%nat →
  (λ e : ObjectRef * list Matrix, length e.2) <$> merge_close (open_entries dl_open) dl_close
  = replicate (length dl_close) 2%nat
    ++ replicate (length dl_open - length dl_close) 1%nat.
Proof.
  induction dl_open as [|o dl_open IH]; intros [|c dl_close] Hle; simpl in *;
    try done; try lia.
  - f_equal. specialize (IH [] ltac:(simpl; lia)). simpl in IH.
    rewrite Nat.sub_0_r in IH. rewrite <- IH. by destruct dl_open.
  - f_equal. apply IH. lia.
Qed.

(** [sample_mblur] with no more duplis at shutter close than at shutter
    open returns one entry per dupli of the shutter-open list, in the
    order of that list; the entries that have a dupli at the same position
    of the shutter-close list hold two matrices, the others the
    shutter-open matrix alone.  The scene ends at subframe 0.0 of the frame
    the call started on, whatever the subframe was, and the dupli-list is
    cleared. *)
Theorem sample_mblur_one_entry_per_open_dupli ob scene dupli h :
  let dl_open := host_duplis ob VIEWPORT (at_subframe h (shutter_open scene)) in
  let dl_close := host_duplis ob VIEWPORT (at_subframe h (shutter_close scene)) in
  (length dl_close ≤ length dl_open)%nat →
  ∃ matrices h',
    sample_mblur ob scene dupli h = (Ok matrices, h')
    ∧ matrices.*1 = dupli_object <$> dl_open
    ∧ (λ e, length e.2) <$> matrices
      = replicate (length dl_close) 2%nat
        ++ replicate (length dl_open - length dl_close) 1%nat
    ∧ timeline h'
      = {| frame_current := frame_current (timeline h); frame_subframe := 0 |}
    ∧ dupli_list h' = [].
Proof.
  intros dl_open dl_close Hle.
  eexists _, _. split; [by apply sample_mblur_returns|].
  fold dl_open dl_close. split; [|split; [|done]].
  - rewrite merge_close_objects. unfold open_entries.
    by rewrite <- list_fmap_compose.
  - by apply merge_close_counts.
Qed.

(** [get_instances] under motion blur when the host yields more duplis at
    shutter close than at shutter open: the close pass indexes the list of
    entries past its end and the call raises [IndexError], after it has
    copied the close matrices of the entries that exist.  Nothing is
    cleaned up: the scene stays at the shutter-close subframe and the
    dupli-list of that time stays alive. *)
Theorem get_instances_growing_dupli_list_raises ob scene h :
  let frame := frame_current (timeline h) in
  let t_open := at_subframe h (shutter_open scene) in
  let t_close := at_subframe h (shutter_close scene) in
  let dl_open := host_duplis ob VIEWPORT t_open in
  let dl_close := host_duplis ob VIEWPORT t_close in
  ob_mblur_enabled ob scene = true →
  (length dl_open < length dl_close)%nat →
  get_instances ob scene h
  = (Raise IndexError,
     {| timeline := t_close; dupli_list := dl_close;
        trace := trace h
                 ++ [FrameSet frame (shutter_open scene); DupliListCreate VIEWPORT t_open]
                 ++ copies dl_open
                 ++ [DupliListClear; FrameSet frame (shutter_close scene);
                     DupliListCreate VIEWPORT t_close]
                 ++ copies (take (length dl_open) dl_close) |}).
Proof.
  intros frame t_open t_close dl_open dl_close Hmb Hlt.
  unfold get_instances. rewrite Hmb. unfold bind.
  by rewrite sample_mblur_raises.
Qed.

(** *** [get_psys_instances] without motion blur: the duplis it needs *)

(** The number of dupli-list entries the loop of [get_psys_instances]
    indexes: one per collected particle of every processed system. *)
Definition particles_needed (mods : list Modifier) (tl : Timeline) : nat :=
  length (rendered_systems mods ≫= λ psys, collect_particles psys tl).

Lemma collect_duplis_loop_raises n : ∀ start acc h,
  (0 < n)%nat →
  (length (dupli_list h) < start + n)%nat →
  for_each (seq start n) (λ dupli_index duplis,
      let* dl := gets dupli_list in
      let* dupli := getitem dl dupli_index in
      ret (duplis ++ [dupli_object dupli])) acc h
  = (Raise IndexError, h).
Proof.
  induction n as [|n IH]; intros start acc h Hpos Hlt; [lia|]. simpl.
  unfold bind at 1. unfold bind at 1, gets at 1. unfold bind at 1, getitem.
  destruct (dupli_list h !! start) as [d|] eqn:Hd; [|done].
  apply lookup_lt_Some in Hd. unfold ret at 1. unfold ret at 1.
  apply IH; lia.
Qed.

Lemma collect_duplis_raises start current_total h :
  (start < current_total)%nat →
  (length (dupli_list h) < current_total)%nat →
  collect_duplis start current_total h = (Raise IndexError, h).
Proof.
  intros Hlt Hlen. unfold collect_duplis. apply collect_duplis_loop_raises; lia.
Qed.

Lemma static_dupli_dict_run psys particles start h :
  (start + length particles ≤ length (dupli_list h))%nat →
  ∃ d, static_dupli_dict psys particles start (start + length particles) h
       = (Ok d, match settings_type psys with
                | EMITTER => h
                | HAIR => with_trace h (copies (dupli_list h))
                end).
Proof.
  intros Hle. unfold static_dupli_dict. unfold bind at 1.
  rewrite collect_duplis_ok by lia.
  destruct (settings_type psys).
  - eexists.
    apply (for_each_emitter_sample psys (empty_entries _) []),
      Dict.NoDup_keys_of_items.
  - unfold bind at 1, gets at 1. unfold bind at 1.
    rewrite (for_each_copy (λ _ c, c)). unfold ret. eauto.
Qed.

Lemma psys_step_static_run ob scene psys st h :
  let n := length (collect_particles psys (timeline h)) in
  ob_mblur_enabled ob scene = false →
  is_object_or_group (settings_render_type psys) = true →
  ((current_total st + n ≤ length (dupli_list h))%nat →
     ∃ st' t, psys_step ob scene (PARTICLE_SYSTEM true psys) st h = (Ok st', with_trace h t)
              ∧ current_total st' = (current_total st + n)%nat
              ∧ dupli_creations t = [])
  ∧ ((0 < n)%nat → (length (dupli_list h) < current_total st + n)%nat →
     psys_step ob scene (PARTICLE_SYSTEM true psys) st h = (Raise IndexError, h)).
Proof.
  intros n Hmb Hrt. unfold psys_step. rewrite Hrt, Hmb. simpl.
  split.
  - intros Hle. unfold bind at 1, gets at 1. fold n.
    destruct (static_dupli_dict_run psys (collect_particles psys (timeline h))
                (current_total st) h Hle) as [d Hd].
    fold n in Hd. unfold bind. rewrite Hd. unfold ret. simpl.
    destruct (settings_type psys).
    + exists {| all_duplis := Dict.update (all_duplis st) d;
                current_total := current_total st + n; index := index st |}, [].
      by rewrite with_trace_nil.
    + eexists _, _. split; [done|]. split; [done|]. apply dupli_creations_copies.
  - intros Hpos Hlt. unfold bind at 1, gets at 1. fold n.
    unfold bind. unfold static_dupli_dict. unfold bind.
    rewrite collect_duplis_raises by lia. done.
Qed.

Lemma psys_loop_static_run ob scene mods : ∀ st h,
  ob_mblur_enabled ob scene = false →
  (current_total st ≤ length (dupli_list h))%nat →
  ((current_total st + particles_needed mods (timeline h) ≤ length (dupli_list h))%nat →
     ∃ st' t, for_each mods (psys_step ob scene) st h = (Ok st', with_trace h t)
              ∧ dupli_creations t = [])
  ∧ ((length (dupli_list h) < current_total st + particles_needed mods (timeline h))%nat →
     ∃ t, for_each mods (psys_step ob scene) st h = (Raise IndexError, with_trace h t)).
Proof.
  induction mods as [|modifier mods IH]; intros st h Hmb Hst.
  - unfold particles_needed. simpl. split; [|lia].
    intros _. exists st, []. by rewrite with_trace_nil.
  - assert (Hskip : rendered_systems [modifier] = [] →
      psys_step ob scene modifier st h = (Ok st, h)).
    { unfold rendered_systems, psys_step. destruct modifier as [[|] psys|]; simpl; try done.
      by destruct (is_object_or_group (settings_render_type psys)). }
    unfold particles_needed. rewrite rendered_systems_cons, bind_app, length_app.
    fold (particles_needed mods (timeline h)).
    destruct (rendered_systems [modifier]) as [|psys [|]] eqn:Hr.
    + cbn [for_each]. unfold bind. rewrite Hskip by done. by apply IH.
    + assert (modifier = PARTICLE_SYSTEM true psys
              ∧ is_object_or_group (settings_render_type psys) = true) as [-> Hrt].
      { unfold rendered_systems in Hr. destruct modifier as [[|] psys'|]; simpl in Hr; try done.
        destruct (is_object_or_group (settings_render_type psys')) eqn:Hrt; [|done].
        by injection Hr as ->. }
      replace (length ([psys] ≫= λ psys, collect_particles psys (timeline h)))
        with (length (collect_particles psys (timeline h)))
        by (simpl; by rewrite app_nil_r).
      cbn [for_each].
      set (n := length (collect_particles psys (timeline h))).
      destruct (psys_step_static_run ob scene psys st h Hmb Hrt) as [Hok Hraise].
      fold n in Hok, Hraise. unfold bind.
      destruct (decide (current_total st + n ≤ length (dupli_list h))%nat) as [Hle|Hgt].
      * destruct (Hok Hle) as (st1 & t1 & -> & Hct & Hcr1).
        destruct (IH st1 (with_trace h t1) Hmb) as [IHok IHraise].
        { simpl. lia. }
        simpl in IHok, IHraise. rewrite Hct in IHok, IHraise. split.
        -- intros Hall. destruct IHok as (st' & t2 & -> & Hcr2); [lia|].
           exists st', (t1 ++ t2). rewrite with_trace_app. split; [done|].
           by rewrite dupli_creations_app, Hcr1, Hcr2.
        -- intros Hall. destruct IHraise as (t2 & ->); [lia|].
           exists (t1 ++ t2). by rewrite with_trace_app.
      * split; [lia|]. intros _. rewrite Hraise by lia.
        exists []. by rewrite with_trace_nil.
    + unfold rendered_systems in Hr. destruct modifier as [[|] psys'|]; simpl in Hr; try done.
      by destruct (is_object_or_group (settings_render_type psys')).
Qed.

(** Without motion blur [get_psys_instances] returns normally exactly when
    the dupli-list the host generates has an entry for every collected
    particle of the systems it processes.  It then leaves the time line
    where it was, has created the dupli-list once and cleared it.  With
    fewer entries the call raises [IndexError] and the final
    [dupli_list_clear] is not reached: the dupli-list stays alive. *)
Theorem get_psys_instances_static_needs_one_dupli_per_particle ob scene mods h :
  let tl := timeline h in
  let dl := host_duplis ob RENDER tl in
  ob_mblur_enabled ob scene = false →
  modifiers ob = Some mods →
  ((particles_needed mods tl ≤ length dl)%nat →
     ∃ d h', get_psys_instances ob scene h = (Ok d, h')
             ∧ timeline h' = tl ∧ dupli_list h' = []
             ∧ dupli_creations (trace h') = dupli_creations (trace h) ++ [tl])
  ∧ ((length dl < particles_needed mods tl)%nat →
     ∃ h', get_psys_instances ob scene h = (Raise IndexError, h')
           ∧ timeline h' = tl ∧ dupli_list h' = dl).
Proof.
  intros tl dl Hmb Hmods. unfold get_psys_instances. rewrite Hmods, Hmb. simpl.
  unfold bind at 1, dupli_list_create at 1, modify at 1.
  set (h1 := {| timeline := timeline h; dupli_list := host_duplis ob RENDER (timeline h);
                trace := trace h ++ [DupliListCreate RENDER (timeline h)] |}).
  destruct (psys_loop_static_run ob scene mods
              {| all_duplis := []; current_total := 0; index := 0 |} h1 Hmb)
    as [Hok Hraise]; [simpl; lia|].
  simpl in Hok, Hraise. fold tl dl in Hok, Hraise. split.
  - intros Hle. destruct (Hok Hle) as (st' & t & Hloop & Hcr).
    unfold bind at 1. rewrite Hloop.
    unfold bind, dupli_list_clear, modify, ret. simpl.
    eexists _, _. split; [done|]. simpl. split; [done|]. split; [done|].
    rewrite !dupli_creations_app, Hcr. simpl. by rewrite !app_nil_r.
  - intros Hlt. destruct (Hraise Hlt) as (t & Hloop).
    unfold bind at 1, dupli_list_create at 1, modify at 1. fold h1.
    unfold bind at 1. rewrite Hloop. eexists. split; [done|]. done.
Qed.

(** Without motion blur, the dictionary of a system that is not an
    emitter pairs the particle at position [k] with the object of the
    dupli at position [start + k] of the dupli-list, the systems before it
    having taken the first [start] duplis, and with the matrix of the
    dupli at position [k]: the matrices are copied from the start of the
    whole list, one copy per dupli of the list. *)
Theorem static_dupli_dict_hair_matrix_by_position psys particles start h :
  let dl := dupli_list h in
  settings_type psys = HAIR →
  NoDup particles →
  (start + length particles ≤ length dl)%nat →
  ∃ d, static_dupli_dict psys particles start (start + length particles) h
       = (Ok d, with_trace h (copies dl))
       ∧ Dict.keys d = particles
       ∧ ∀ k p, particles !! k = Some p →
           ∃ d_obj d_mat,
             dl !! (start + k)%nat = Some d_obj ∧ dl !! k = Some d_mat
             ∧ Dict.get p d = Some (dupli_object d_obj, [dupli_matrix d_mat]).
Proof.
  intros dl Hty Hnd Hle. unfold static_dupli_dict. unfold bind at 1.
  rewrite collect_duplis_ok by (fold dl; lia). rewrite Hty.
  unfold bind at 1, gets at 1. unfold bind at 1.
  rewrite (for_each_copy (λ _ c, c)). unfold ret. fold dl. simpl.
  replace (start + length particles - start)%nat with (length particles) by lia.
  set (duplis := dupli_object <$> take (length particles) (drop start dl)).
  set (mats := (λ d, dupli_matrix d) <$> dl).
  set (items := (λ p : Particle * ObjectRef * Matrix, (p.1.1, (p.1.2, [p.2])))
                  <$> zip (zip particles duplis) mats).
  assert (Hduplis : length duplis = length particles).
  { subst duplis. rewrite length_fmap, length_take, length_drop. lia. }
  assert (Hmats : length mats = length dl) by (subst mats; by rewrite length_fmap).
  assert (Hkeys : items.*1 = particles).
  { transitivity (((zip (zip particles duplis) mats).*1).*1).
    - subst items. rewrite <- !list_fmap_compose. by apply list_fmap_ext.
    - rewrite fst_zip by (rewrite length_zip; lia).
      apply fst_zip. lia. }
  assert (Hof : Dict.of_items items = items).
  { apply Dict.of_items_NoDup. exact (eq_ind_r NoDup Hnd Hkeys). }
  exists items. split; [do 2 f_equal; exact Hof|]. split; [exact Hkeys|].
  intros k p Hp. pose proof (lookup_lt_Some _ _ _ Hp) as Hk.
  destruct (lookup_lt_is_Some_2 dl (start + k) ltac:(lia)) as [d_obj Hobj].
  destruct (lookup_lt_is_Some_2 dl k ltac:(lia)) as [d_mat Hmat].
  exists d_obj, d_mat. split; [done|]. split; [done|].
  apply Dict.elem_of_get; [exact (eq_ind_r NoDup Hnd Hkeys)|].
  apply list_elem_of_lookup. exists k. subst items.
  rewrite list_lookup_fmap.
  assert (Hz : zip (zip particles duplis) mats !! k
               = Some (p, dupli_object d_obj, dupli_matrix d_mat)).
  { apply lookup_zip_Some. split.
    - apply lookup_zip_Some. split; [done|]. subst duplis.
      rewrite list_lookup_fmap, lookup_take_lt, lookup_drop, Hobj by lia. done.
    - subst mats. by rewrite list_lookup_fmap, Hmat. }
  by rewrite Hz.
Qed.

(** *** What a pair returned by [sample_psys_mblur] holds *)

Lemma keys_emitter_passes psys frame frames : ∀ d,
  Dict.keys (emitter_passes psys frame frames d) = Dict.keys d.
Proof.
  induction frames as [|fr frames IH]; intros d; [done|].
  etransitivity; [apply IH|]. apply keys_emitter_pass.
Qed.

Lemma keys_zip_particles (particles : list Particle) (duplis : list ObjectRef) p :
  p ∈ Dict.keys (empty_entries (zip particles duplis)) → p ∈ particles.
Proof.
  rewrite keys_empty_entries.
  intros ([p' o] & -> & Hin)%list_elem_of_fmap. by apply elem_of_zip_l in Hin.
Qed.

Lemma hair_sample_Ok_inv pre k o ms post i h d1 i1 h1 :
  k ∉ Dict.keys pre →
  hair_sample k (pre ++ (k, (o, ms)) :: post, i) h = (Ok (d1, i1), h1) →
  (∃ mat, d1 = pre ++ (k, (o, ms ++ [mat])) :: post)
  ∧ i1 = S i ∧ timeline h1 = timeline h ∧ dupli_list h1 = dupli_list h.
Proof.
  intros Hk Hrun. split; [by eapply hair_sample_inv|].
  revert Hrun. unfold hair_sample. unfold bind at 1, gets at 1.
  intros (dupli & h2 & Hget & Hrest)%bind_Ok_inv.
  unfold getitem in Hget. destruct (_ !! _); [|done].
  unfold ret in Hget. injection Hget as _ <-.
  apply bind_Ok_inv in Hrest as (mat & h3 & Hcopy & Hrest).
  unfold matrix_copy, bind, modify, ret in Hcopy. injection Hcopy as _ <-.
  apply bind_Ok_inv in Hrest as (dd & h4 & Happ & Hret).
  unfold ret in Hret. injection Hret as _ <- <-.
  unfold append_matrix in Happ. destruct (Dict.get _ _); [|done].
  unfold ret in Happ. injection Happ as _ <-. done.
Qed.

Lemma for_each_hair_sample_Ok_inv post : ∀ pre i h d' i' h',
  NoDup (Dict.keys (pre ++ post)) →
  for_each (Dict.keys post) hair_sample (pre ++ post, i) h = (Ok (d', i'), h') →
  Dict.keys d' = Dict.keys (pre ++ post)
  ∧ i' = (i + length post)%nat
  ∧ timeline h' = timeline h ∧ dupli_list h' = dupli_list h.
Proof.
  induction post as [|[k [o ms]] post IH]; intros pre i h d' i' h' Hnd Hrun.
  - simpl in Hrun. injection Hrun as <- <- <-. simpl. by rewrite Nat.add_0_r.
  - pose proof (NoDup_middle_notin _ _ _ _ Hnd) as Hk.
    simpl in Hrun. apply bind_Ok_inv in Hrun as ([d1 i1] & h1 & Hstep & Hrest).
    apply hair_sample_Ok_inv in Hstep as ([mat ->] & -> & Htl & Hdl); [|done].
    rewrite (cons_middle _ pre post), (app_assoc pre) in Hrest.
    apply IH in Hrest as (Hkeys & -> & Htl' & Hdl').
    + rewrite Hkeys, (keys_middle_update k (o, ms)). simpl.
      split; [done|]. split; [lia|]. split; congruence.
    + by rewrite (keys_middle_update k (o, ms)).
Qed.

Lemma hair_frames_loop_Ok_inv ob frame index frames : ∀ d n0 h r h',
  NoDup (Dict.keys d) →
  for_each frames (λ fr st,
      frame_set frame fr ;;
      dupli_list_create ob RENDER ;;
      let* st := for_each (Dict.keys st.1) hair_sample (st.1, index) in
      dupli_list_clear ;;
      ret st)
    (d, n0) h = (Ok r, h') →
  Dict.keys r.1 = Dict.keys d
  ∧ r.2 = match frames with [] => n0 | _ :: _ => (index + length d)%nat end
  ∧ (frames ≠ [] → dupli_list h' = []).
Proof.
  induction frames as [|fr frames IH]; intros d n0 h r h' Hnd Hrun;
    simpl in Hrun.
  - injection Hrun as <- _. done.
  - apply bind_Ok_inv in Hrun as ([d1 i1] & h1 & Hstep & Hrest).
    apply bind_Ok_inv in Hstep as ([] & h2 & _ & Hstep).
    apply bind_Ok_inv in Hstep as ([] & h3 & _ & Hstep).
    apply bind_Ok_inv in Hstep as ([d2 i2] & h4 & Hpass & Hstep).
    apply bind_Ok_inv in Hstep as ([] & h5 & Hclear & Hret).
    unfold ret in Hret. injection Hret as <- <- <-.
    unfold dupli_list_clear, modify in Hclear. injection Hclear as <-.
    simpl in Hpass.
    apply (for_each_hair_sample_Ok_inv d []) in Hpass as (Hkeys & -> & _ & _);
      [|done].
    simpl in Hkeys. pose proof Hrest as Hlast.
    apply IH in Hrest as (Hkeys' & Hidx & Hdl); [|by rewrite Hkeys].
    assert (Hlen : length d2 = length d).
    { apply (f_equal length) in Hkeys. unfold Dict.keys in Hkeys.
      by rewrite !length_fmap in Hkeys. }
    split; [congruence|]. split.
    + rewrite Hidx. destruct frames; [done|]. by rewrite Hlen.
    + intros _. destruct frames as [|fr' frames]; [|by apply Hdl].
      simpl in Hlast. by injection Hlast as _ <-.
Qed.

(** Whenever [sample_psys_mblur] returns a pair: the keys of the
    dictionary are distinct particles among those collected at shutter
    open; the index returned is the index passed in plus the position
    reached by the last pass, which is the index passed in plus the number
    of entries, so twice the incoming index is in it; the scene is back at
    subframe 0.0 of the frame the call started on and the dupli-list is
    cleared. *)
Theorem sample_psys_mblur_pair_index_and_state
    ob scene psys index start current_total h d i h' :
  sample_psys_mblur ob scene psys index start current_total h
  = (Ok (ReturnPair d i), h') →
  i = (index + (index + length d))%nat
  ∧ NoDup (Dict.keys d)
  ∧ (∀ p, p ∈ Dict.keys d →
       p ∈ collect_particles psys (at_subframe h (shutter_open scene)))
  ∧ timeline h' = at_subframe h 0%float
  ∧ dupli_list h' = [].
Proof.
  intros Hrun.
  destruct (decide (collect_particles psys (at_subframe h (shutter_open scene)) = []))
    as [Hnil|Hne].
  { by rewrite sample_psys_mblur_empty in Hrun. }
  destruct (settings_type psys) eqn:Hty.
  - destruct (sample_psys_mblur_emitter ob scene psys index start current_total h
                Hty Hne) as [Hraise Hok].
    destruct (decide (empty_entries
                (zip (collect_particles psys (at_subframe h (shutter_open scene)))
                     (dupli_object <$>
                        host_duplis ob RENDER (at_subframe h (shutter_open scene)))) = []))
      as [He|He].
    { specialize (Hraise He). by rewrite Hrun in Hraise. }
    rewrite (Hok He) in Hrun. injection Hrun as <- <- <-.
    assert (Hlen : ∀ d1 d2 : Dict.dict Particle psys_entry,
              Dict.keys d1 = Dict.keys d2 → length d1 = length d2).
    { intros d1 d2 Hk. apply (f_equal length) in Hk. unfold Dict.keys in Hk.
      by rewrite !length_fmap in Hk. }
    split; [by rewrite (Hlen _ _ (keys_emitter_passes _ _ _ _))|].
    rewrite keys_emitter_passes.
    split; [apply Dict.NoDup_keys_of_items|].
    split; [apply keys_zip_particles|]. done.
  - revert Hrun. unfold sample_psys_mblur.
    unfold bind at 1, gets at 1. unfold bind at 1, frame_set at 1, modify at 1.
    unfold bind at 1, gets at 1. simpl.
    fold (at_subframe h (shutter_open scene)).
    destruct (decide _) as [Hlen|_].
    { by apply length_zero_iff_nil in Hlen. }
    rewrite Hty.
    intros (r & h1 & Hr & Hrest)%bind_Ok_inv.
    apply bind_Ok_inv in Hrest as ([] & h2 & Hnone & Hrest).
    unfold ret in Hnone. injection Hnone as <-.
    apply bind_Ok_inv in Hrest as ([] & h3 & Hset & Hret).
    unfold frame_set, modify in Hset. injection Hset as <-.
    unfold ret in Hret. injection Hret as <- <- <-.
    apply bind_Ok_inv in Hr as ([] & h4 & _ & Hr).
    apply bind_Ok_inv in Hr as (duplis & h5 & _ & Hr).
    apply bind_Ok_inv in Hr as ([] & h6 & _ & Hr).
    apply bind_Ok_inv in Hr as (r' & h7 & Hloop & Hret).
    unfold ret in Hret. injection Hret as <- <-. simpl.
    apply hair_frames_loop_Ok_inv in Hloop as (Hkeys & Hidx & Hdl);
      [|apply Dict.NoDup_keys_of_items].
    pose proof (set_literal2_nonempty (shutter_open scene) (shutter_close scene)) as Hfr.
    assert (Hlen : length r'.1
                   = length (empty_entries
                       (zip (collect_particles psys (at_subframe h (shutter_open scene)))
                            duplis))).
    { apply (f_equal length) in Hkeys. unfold Dict.keys in Hkeys.
      by rewrite !length_fmap in Hkeys. }
    split.
    { rewrite Hidx, Hlen. by destruct (set_literal2 _ _). }
    rewrite Hkeys. split; [apply Dict.NoDup_keys_of_items|].
    split; [apply keys_zip_particles|]. split; [done|]. by apply Hdl.
Qed.

(** *** Further outcomes of the particle functions *)

(** An emitter with particles at shutter open but an empty dupli-list:
    the dictionary is empty, no sample is computed, and the final
    [del scale, transl, mat] finds the three names unbound.
    [sample_psys_mblur] raises [UnboundLocalError], and so does the
    iteration of [get_psys_instances] that called it. *)
Theorem sample_psys_mblur_emitter_without_duplis
    ob scene psys index start current_total h st :
  settings_type psys = EMITTER →
  collect_particles psys (at_subframe h (shutter_open scene)) ≠ [] →
  host_duplis ob RENDER (at_subframe h (shutter_open scene)) = [] →
  (sample_psys_mblur ob scene psys index start current_total h).1
  = Raise UnboundLocalError
  ∧ (ob_mblur_enabled ob scene = true →
     is_object_or_group (settings_render_type psys) = true →
     (psys_step ob scene (PARTICLE_SYSTEM true psys) st h).1 = Raise UnboundLocalError).
Proof.
  intros Hty Hne Hdl.
  assert (Hraise : ∀ index start current_total,
    (sample_psys_mblur ob scene psys index start current_total h).1
    = Raise UnboundLocalError).
  { intros index0 start0 current_total0.
    destruct (sample_psys_mblur_emitter ob scene psys index0 start0 current_total0 h
                Hty Hne) as [Hraise _].
    apply Hraise. rewrite Hdl. simpl. by rewrite zip_with_nil_r. }
  split; [apply Hraise|]. clear index start current_total.
  intros Hmb Hrt. unfold psys_step. rewrite Hrt, Hmb. simpl.
  unfold bind at 1, gets at 1. unfold bind at 1. unfold bind at 1.
  specialize (Hraise (index st) (current_total st)
                (current_total st + length (collect_particles psys (timeline h)))%nat).
  destruct (sample_psys_mblur _ _ _ _ _ _ _) as [[r|e] h1]; simpl in *; congruence.
Qed.

(** The number of matrices of every particle of a returned dictionary:
    one without motion blur; with it one when the shutter opens and closes
    at the same time and two otherwise. *)
Theorem get_psys_instances_matrices_per_particle ob scene h d h' p e :
  get_psys_instances ob scene h = (Ok d, h') →
  Dict.get p d = Some e →
  length e.2
  = if ob_mblur_enabled ob scene
    then (if (shutter_open scene =? shutter_close scene)%float then 1 else 2)%nat
    else 1%nat.
Proof.
  intros Hcount%get_psys_instances_matrix_count Hget%Dict.get_Some_elem_of.
  unfold matrix_count in Hcount. rewrite Forall_forall in Hcount.
  specialize (Hcount _ Hget). simpl in Hcount. rewrite Hcount.
  destruct (ob_mblur_enabled ob scene); [|done].
  by destruct (set_literal2_cases (shutter_open scene) (shutter_close scene))
    as [[-> ->]|[[->| ->] ->]].
Qed.

(** An object without the [modifiers] attribute gives the empty
    dictionary and no host call is made.  An object none of whose
    modifiers is a particle system shown in renders with particles
    rendered as objects or groups gives the empty dictionary too: under
    motion blur without any host call, otherwise after one creation and
    one clearing of the dupli-list. *)
Theorem get_psys_instances_nothing_rendered ob scene h :
  (modifiers ob = None → get_psys_instances ob scene h = (Ok [], h))
  ∧ (∀ mods, modifiers ob = Some mods → rendered_systems mods = [] →
       get_psys_instances ob scene h
       = (Ok [],
          if ob_mblur_enabled ob scene then h
          else {| timeline := timeline h; dupli_list := [];
                  trace := trace h ++ [DupliListCreate RENDER (timeline h);
                                       DupliListClear] |})).
Proof.
  split.
  - intros Hnone. unfold get_psys_instances. by rewrite Hnone.
  - intros mods Hmods Hnil. unfold get_psys_instances. rewrite Hmods.
    assert (Hloop : ∀ st h0, for_each mods (psys_step ob scene) st h0 = (Ok st, h0)).
    { clear Hmods. induction mods as [|modifier mods IH]; intros st h0; [done|].
      rewrite rendered_systems_cons in Hnil. apply app_eq_nil in Hnil as [Hm Hnil].
      cbn [for_each]. unfold bind.
      assert (psys_step ob scene modifier st h0 = (Ok st, h0)) as ->.
      { unfold rendered_systems in Hm. unfold psys_step.
        destruct modifier as [[|] psys|]; simpl in *; try done.
        by destruct (is_object_or_group (settings_render_type psys)). }
      by apply IH. }
    unfold bind. destruct (ob_mblur_enabled ob scene); simpl.
    + unfold ret at 1. rewrite Hloop. by destruct h.
    + rewrite Hloop. unfold ret. simpl. by rewrite <- app_assoc.
Qed.

(** [def_mblur_enabled]: deformation blur is on for the object and for
    the scene. *)
Definition def_mblur_enabled (object : Object) (scene : Scene) : bool :=
  ob_enable_motion_blur object
  && (if ob_motion_blur_type object is mb_deformation then true else false)
  && enable_motion_blur scene && enable_deformation_blur scene.

(** Object blur and deformation blur are never both enabled for an
    object, and each needs the switch of the object and that of the
    scene.  An object set for deformation blur is therefore instanced as a
    static one: [get_instances] returns one [[object, matrix]] pair per
    dupli without moving the time line. *)
Theorem deformation_blur_excludes_object_blur ob scene h :
  ob_mblur_enabled ob scene && def_mblur_enabled ob scene = false
  ∧ (ob_mblur_enabled ob scene || def_mblur_enabled ob scene = true →
     ob_enable_motion_blur ob = true ∧ enable_motion_blur scene = true)
  ∧ (def_mblur_enabled ob scene = true →
     ∃ l h', get_instances ob scene h = (Ok (StaticInstances l), h')
             ∧ length l = length (host_duplis ob VIEWPORT (timeline h))
             ∧ timeline h' = timeline h
             ∧ dupli_creations (trace h') = dupli_creations (trace h) ++ [timeline h]).
Proof.
  assert (Hexcl : ob_mblur_enabled ob scene && def_mblur_enabled ob scene = false).
  { unfold ob_mblur_enabled, def_mblur_enabled.
    destruct (ob_enable_motion_blur ob), (ob_motion_blur_type ob),
      (enable_motion_blur scene), (enable_object_blur scene),
      (enable_deformation_blur scene); done. }
  split; [exact Hexcl|]. split.
  - unfold ob_mblur_enabled, def_mblur_enabled.
    destruct (ob_enable_motion_blur ob), (ob_motion_blur_type ob),
      (enable_motion_blur scene), (enable_object_blur scene),
      (enable_deformation_blur scene); done.
  - intros Hdef. rewrite Hdef, andb_true_r in Hexcl.
    unfold get_instances. rewrite Hexcl.
    unfold bind at 1, dupli_list_create at 1, modify at 1.
    unfold bind at 1, gets at 1. simpl. unfold bind at 1.
    rewrite (for_each_copy (λ d c, (dupli_object d, c))). simpl.
    unfold bind, dupli_list_clear, modify, ret. simpl.
    eexists _, _. split; [done|]. rewrite length_fmap. split; [done|].
    split; [done|]. simpl.
    rewrite !dupli_creations_app, dupli_creations_copies. simpl.
    by rewrite !app_nil_r.
Qed.

(** *** The entries built under motion blur *)

Lemma NoDup_fst_zip {A B} (l : list A) : ∀ k : list B,
  NoDup l → NoDup (zip l k).*1.
Proof.
  induction l as [|x l IH]; intros [|y k] Hnd; simpl; try constructor.
  - apply NoDup_cons in Hnd as [Hx _].
    intros ([x' y'] & -> & Hin)%list_elem_of_fmap. by apply elem_of_zip_l in Hin.
  - apply IH. by apply NoDup_cons in Hnd as [_ Hnd].
Qed.

(** With distinct particles, the comprehension pairs the particle at
    position [k] with the dupli object at position [k]. *)
Lemma get_empty_entries_zip (particles : list Particle) (duplis : list ObjectRef) k p o :
  NoDup particles →
  particles !! k = Some p → duplis !! k = Some o →
  Dict.get p (empty_entries (zip particles duplis)) = Some (o, []).
Proof.
  intros Hnd Hp Ho. unfold empty_entries.
  set (items := (λ p : Particle * ObjectRef, (p.1, (p.2, @nil Matrix)))
                  <$> zip particles duplis).
  assert (Hkeys : items.*1 = (zip particles duplis).*1).
  { subst items. rewrite <- list_fmap_compose. by apply list_fmap_ext. }
  assert (Hnd' : NoDup items.*1).
  { exact (eq_ind_r NoDup (NoDup_fst_zip particles duplis Hnd) Hkeys). }
  assert (Hof : Dict.of_items items = items) by (by apply Dict.of_items_NoDup).
  etransitivity; [exact (f_equal (Dict.get p) Hof)|].
  apply Dict.elem_of_get; [exact Hnd'|].
  apply list_elem_of_lookup. exists k. subst items.
  rewrite list_lookup_fmap.
  assert (zip particles duplis !! k = Some (p, o)) as ->; [|done].
  by apply lookup_zip_Some.
Qed.

Lemma get_emitter_passes psys frame frames p : ∀ d,
  Dict.get p (emitter_passes psys frame frames d)
  = (λ v, (v.1, v.2 ++ ((λ fr, emitter_matrix psys
                                   {| frame_current := frame; frame_subframe := fr |}
                                   p v.1) <$> frames)))
    <$> Dict.get p d.
Proof.
  induction frames as [|fr frames IH]; intros d.
  - simpl. destruct (Dict.get p d) as [[o ms]|]; simpl; [|done].
    by rewrite app_nil_r.
  - change (emitter_passes psys frame (fr :: frames) d)
      with (emitter_passes psys frame frames
              (emitter_pass psys {| frame_current := frame; frame_subframe := fr |} d)).
    rewrite IH, get_emitter_pass.
    destruct (Dict.get p d) as [[o ms]|]; simpl; [|done].
    by rewrite <- app_assoc.
Qed.

(** Under motion blur the emitter particle at position [k] of the
    particles collected at shutter open is stored with the object of the
    dupli at position [k] of the dupli-list of that time (counted from the
    start of the list, whatever [start] is), and with one matrix per
    element of the set of the two shutter times, in the order in which the
    set is iterated: the translation by the particle's location times the
    three axis-aligned scalings by the dupli object's scale times the
    particle's size, all read at that time. *)
Theorem sample_psys_mblur_emitter_entries
    ob scene psys index start current_total h k p dupli :
  let frame := frame_current (timeline h) in
  let particles := collect_particles psys (at_subframe h (shutter_open scene)) in
  let dl := host_duplis ob RENDER (at_subframe h (shutter_open scene)) in
  settings_type psys = EMITTER →
  NoDup particles →
  particles !! k = Some p →
  dl !! k = Some dupli →
  ∃ d i h',
    sample_psys_mblur ob scene psys index start current_total h
    = (Ok (ReturnPair d i), h')
    ∧ Dict.get p d
      = Some (dupli_object dupli,
              (λ fr, let tl := {| frame_current := frame; frame_subframe := fr |} in
                     let scale := vec_mul (ref_scale (dupli_object dupli) tl)
                                          (size psys tl p) in
                     matmul (Translation (location psys tl p))
                            (matmul (matmul (Scale (vx scale) 4 (1, 0, 0))
                                            (Scale (vy scale) 4 (0, 1, 0)))
                                    (Scale (vz scale) 4 (0, 0, 1))))
              <$> set_literal2 (shutter_open scene) (shutter_close scene)).
Proof.
  intros frame particles dl Hty Hnd Hp Hdupli.
  assert (Hne : particles ≠ []) by (intros Hnil; by rewrite Hnil in Hp).
  destruct (sample_psys_mblur_emitter ob scene psys index start current_total h
              Hty Hne) as [_ Hok].
  fold frame particles dl in Hok.
  assert (Hget : Dict.get p (empty_entries (zip particles (dupli_object <$> dl)))
                 = Some (dupli_object dupli, [])).
  { apply (get_empty_entries_zip _ _ k); [done|done|].
    by rewrite list_lookup_fmap, Hdupli. }
  eexists _, _, _. split.
  - apply Hok. intros Hnil. by rewrite Hnil in Hget.
  - rewrite get_emitter_passes, Hget. done.
Qed.





End Host.

End Util.

(** ** Camera field of view: [calc_fov] *)

Module Fov.

Local Open Scope float_scope.

(** [camera_ob.data]: only the angle is read. *)
Record Camera := { angle : float }.

Section CalcFov.
(** [tan], [atan] and [degrees] of the [math] module. *)
Variables tan atan degrees : float → float.
(** The conversion Python applies to an [int] operand of a float
    operation. *)
Variable float_of_int : Z → float.

(** The corrected angle, in radians, computed when the render is taller
    than wide. *)
Definition corrected_angle (camera_ob : Camera) (width height : Z) : float :=
  let length := 18.0 / tan (angle camera_ob / 2) in
  2 * atan (18.0 * float_of_int width / float_of_int height / length).

Definition calc_fov (camera_ob : Camera) (width height : Z) : float :=
  let camera_angle := degrees (angle camera_ob) in
  if (width <? height)%Z then
    let camera_angle := corrected_angle camera_ob width height in
    degrees camera_angle
  else camera_angle.

(** C5: the tangent-half-angle correction is applied exactly when the
    width is strictly less than the height; for every camera and every
    width at least the height the result is the camera angle in degrees,
    and so it is when width and height are equal. *)
Theorem calc_fov_corrects_only_tall_renders (camera_ob : Camera) (width height : Z) :
  ((width < height)%Z →
     calc_fov camera_ob width height
     = degrees (2 * atan (18.0 * float_of_int width / float_of_int height
                          / (18.0 / tan (angle camera_ob / 2)))))
  ∧ ((height ≤ width)%Z →
     calc_fov camera_ob width height = degrees (angle camera_ob))
  ∧ calc_fov camera_ob width width = degrees (angle camera_ob).
Proof.
  unfold calc_fov, corrected_angle. split; [|split].
  - intros Hlt. apply Z.ltb_lt in Hlt. by rewrite Hlt.
  - intros Hle. apply Z.ltb_ge in Hle. by rewrite Hle.
  - by rewrite Z.ltb_irrefl.
Qed.

End CalcFov.

End Fov.

(** ** OSL shader discovery: [read_osl_shaders] *)

Module Osl.

Inductive level := DEBUG | WARNING | ERROR.

(** What the function acts on besides its result: the records handed to
    the logger, and the files opened through the shader query. *)
Record effects := {
  log : list (level * string);
  opened : list (list string);
}.

Definition logger (l : level) (msg : string) (s : effects) : effects :=
  {| log := log s ++ [(l, msg)]; opened := opened s |}.

(** [q.open(filename)]. *)
Definition q_open (filename : list string) (s : effects) : effects :=
  {| log := log s; opened := opened s ++ [filename] |}.

(** An absolute path is the list of its components, root first. *)
Definition path : Type := list string.

Definition show_path (p : path) : string :=
  foldr (λ c acc, "/" ++ c ++ acc)%string "" p.

(** [s.endswith(suffix)]. *)
Definition endswith (s suffix : string) : bool :=
  let n := String.length s in
  let m := String.length suffix in
  (m <=? n)%nat && String.eqb (String.substring (n - m) m s) suffix.

(** The dictionaries of a shader that [read_osl_shaders] builds. *)
Section Shaders.
(** The dictionary [param_data] of one parameter (lines 178-204). *)
Variable ParamData : Type.

(** What the shader query answers once a file is open. *)
Record Param := {
  isoutput : bool;
  param_data : ParamData;
}.

Record ShaderInfo := {
  as_blender_node_name : option string;
  shader_name : string;
  as_blender_category : option string;
  params : list Param;
}.

(** The dictionary [d] of one shader. *)
Record Node := {
  name : string;
  filename : string;
  category : string;
  inputs : list ParamData;
  outputs : list ParamData;
}.

(** The host: the add-on preference, the file system, the shader query,
    and [str.replace]. *)
Variable appleseed_binary_directory : string.
Variable realpath : string → path.
Variable isdir : path → bool.
Variable listdir : path → list string.
Variable shader_query : path → ShaderInfo.
Variable replace : string → string → string → string.

(** [get_appleseed_bin_dir]: the preference when it is falsy, its real
    path otherwise. [None] stands for the falsy value. *)
Definition get_appleseed_bin_dir : option path :=
  if String.eqb appleseed_binary_directory "" then None
  else Some (realpath appleseed_binary_directory).

(** The loop [while basename(dir) != 'bin': dir = dirname(dir)] followed
    by one more [dirname], on the components last first. The loop does
    not end on a path without a component [bin]: [None]. *)
Fixpoint parent_of_bin (rev_components : list string) : option path :=
  match rev_components with
  | [] => None
  | c :: rest =>
      if String.eqb c "bin" then Some (reverse rest) else parent_of_bin rest
  end.

(** [get_osl_search_paths]: the tool directory and the two shader
    directories. *)
Definition get_osl_search_paths (bin_dir : path) : option (path * list path) :=
  match parent_of_bin (reverse bin_dir) with
  | None => None
  | Some appleseed_parent_dir =>
      Some (appleseed_parent_dir ++ ["bin"],
            [appleseed_parent_dir ++ ["shaders"; "appleseed"];
             appleseed_parent_dir ++ ["shaders"; "blenderseed"]])
  end.

(** The dictionary of the shader in [file] of [shader_dir], lines 153-211. *)
Definition shader_node (shader_dir : path) (file : string) : Node :=
  let q := shader_query (shader_dir ++ [file]) in
  {| name := match as_blender_node_name q with
             | Some n => n
             | None => shader_name q
             end;
     filename := replace file ".oso" "";
     category := match as_blender_category q with
                 | Some c => c
                 | None => "other"
                 end;
     inputs := param_data <$> filter (λ p, isoutput p = false) (params q);
     outputs := param_data <$> filter (λ p, isoutput p = true) (params q) |}.

(** The loop over the files of one shader directory. *)
Definition read_shader_dir (shader_dir : path) (acc : list Node * effects)
  : list Node * effects :=
  if isdir shader_dir then
    foldl (λ acc file,
             if endswith file ".oso" then
               let s := logger DEBUG ("[appleseed] Reading " ++ file ++ "...")%string
                               acc.2 in
               let s := q_open (shader_dir ++ [file]) s in
               (acc.1 ++ [shader_node shader_dir file], s)
             else acc)
          (acc.1, logger DEBUG ("[appleseed] Searching " ++ show_path shader_dir
                                ++ " for OSO files...")%string acc.2)
          (listdir shader_dir)
  else acc.

(** [read_osl_shaders]; [None] when the search for the shader
    directories does not end. *)
Definition read_osl_shaders (s : effects) : option (list Node * effects) :=
  let nodes := [] in
  match get_appleseed_bin_dir with
  | None =>
      Some (nodes,
            logger WARNING "[appleseed] WARNING: Path to appleseed's binary directory not set: rendering and OSL features will not be available." s)
  | Some bin_dir =>
      match get_osl_search_paths bin_dir with
      | None => None
      | Some (tool_dir, shader_directories) =>
          let s := logger DEBUG "[appleseed] Parsing OSL shaders..." s in
          let r := foldl (λ acc shader_dir, read_shader_dir shader_dir acc)
                         (nodes, s) shader_directories in
          Some (r.1, logger DEBUG "[appleseed] OSL parsing complete." r.2)
      end
  end.

(** C7: with the binary directory preference unset, [read_osl_shaders]
    returns the empty list, its only effect is one warning record, and no
    shader file is opened. *)
Theorem read_osl_shaders_unset_bin_dir (s : effects) :
  appleseed_binary_directory = "" →
  read_osl_shaders s
  = Some ([],
          {| log := log s ++ [(WARNING, "[appleseed] WARNING: Path to appleseed's binary directory not set: rendering and OSL features will not be available.")];
             opened := opened s |}).
Proof.
  intros Hunset. unfold read_osl_shaders, get_appleseed_bin_dir.
  by rewrite Hunset.
Qed.

(** *** The search for the directory [bin] *)

(** [os.path.basename] and [os.path.dirname] on the components of a
    path: the root has the empty base name and is its own directory. *)
Definition basename (p : path) : string := default "" (last p).

Definition dirname (p : path) : path := removelast p.

(** The loop [while os.path.basename(dir) != 'bin': dir = os.path.dirname(dir)]
    of [get_osl_search_paths] and [get_appleseed_parent_dir], with a bound
    on the number of times the condition is tested: [None] when the bound
    is reached. *)
Fixpoint climb_to_bin (fuel : nat) (appleseed_parent_dir : path) : option path :=
  match fuel with
  | O => None
  | S fuel =>
      if String.eqb (basename appleseed_parent_dir) "bin" then Some appleseed_parent_dir
      else climb_to_bin fuel (dirname appleseed_parent_dir)
  end.

(** [get_appleseed_parent_dir], on the value of [get_appleseed_bin_dir]. *)
Definition get_appleseed_parent_dir_within (fuel : nat) (bin_dir : path) : option path :=
  dirname <$> climb_to_bin fuel bin_dir.

(** [get_osl_search_paths], on the value of [get_appleseed_bin_dir]. *)
Definition get_osl_search_paths_within (fuel : nat) (bin_dir : path)
  : option (path * list path) :=
  match get_appleseed_parent_dir_within fuel bin_dir with
  | None => None
  | Some appleseed_parent_dir =>
      Some (appleseed_parent_dir ++ ["bin"],
            [appleseed_parent_dir ++ ["shaders"; "appleseed"];
             appleseed_parent_dir ++ ["shaders"; "blenderseed"]])
  end.

Lemma basename_snoc (p : path) (c : string) : basename (p ++ [c]) = c.
Proof. unfold basename. by rewrite last_snoc. Qed.

Lemma dirname_snoc (p : path) (c : string) : dirname (p ++ [c]) = p.
Proof. apply removelast_last. Qed.

(** From a path whose last component [bin] is followed by [post], the
    loop tests its condition once per component of [post] and once more. *)
Lemma climb_to_bin_last_bin (pre : path) (post : path) : ∀ fuel,
  "bin" ∉ post →
  climb_to_bin fuel (pre ++ "bin" :: post)
  = if decide (length post < fuel)%nat then Some (pre ++ ["bin"]) else None.
Proof.
  induction post as [|c post IH] using rev_ind; intros fuel Hpost.
  - destruct fuel as [|fuel]; simpl; [done|].
    by rewrite basename_snoc.
  - apply not_elem_of_app in Hpost as [Hpost Hc].
    rewrite not_elem_of_cons in Hc. destruct Hc as [Hc _].
    destruct fuel as [|fuel]; cbn [climb_to_bin].
    { destruct (decide _); [lia|done]. }
    replace (pre ++ "bin" :: post ++ [c]) with ((pre ++ "bin" :: post) ++ [c])
      by (by rewrite <- app_assoc).
    rewrite basename_snoc, dirname_snoc.
    assert ((c =? "bin")%string = false) as ->.
    { apply String.eqb_neq. congruence. }
    rewrite IH by done. rewrite length_app. simpl.
    destruct (decide (length post < fuel)%nat), (decide (length post + 1 < S fuel)%nat);
      done || lia.
Qed.

(** On a path with no component [bin] the condition of the loop holds at
    every test. *)
Lemma climb_to_bin_no_bin fuel : ∀ p : path,
  "bin" ∉ p → climb_to_bin fuel p = None.
Proof.
  induction fuel as [|fuel IH]; intros p Hp; simpl; [done|].
  destruct p as [|c p _] using rev_ind.
  - simpl. by apply IH.
  - rewrite basename_snoc, dirname_snoc.
    apply not_elem_of_app in Hp as [Hp Hc].
    rewrite not_elem_of_cons in Hc. destruct Hc as [Hc _].
    assert ((c =? "bin")%string = false) as ->.
    { apply String.eqb_neq. congruence. }
    by apply IH.
Qed.

Lemma parent_of_bin_last_bin (pre post : path) :
  "bin" ∉ post → parent_of_bin (reverse (pre ++ "bin" :: post)) = Some pre.
Proof.
  intros Hpost. rewrite reverse_app, reverse_cons, <- app_assoc. simpl.
  assert (Hrev : "bin" ∉ reverse post) by (by rewrite elem_of_reverse).
  induction (reverse post) as [|c rest IH]; simpl.
  - by rewrite reverse_involutive.
  - apply not_elem_of_cons in Hrev as [Hc Hrest].
    assert ((c =? "bin")%string = false) as ->.
    { apply String.eqb_neq. congruence. }
    by apply IH.
Qed.

Lemma parent_of_bin_no_bin (rev_components : path) :
  "bin" ∉ rev_components → parent_of_bin rev_components = None.
Proof.
  induction rev_components as [|c rest IH]; simpl; [done|].
  intros [Hc Hrest]%not_elem_of_cons.
  assert ((c =? "bin")%string = false) as ->.
  { apply String.eqb_neq. congruence. }
  by apply IH.
Qed.

(** [get_osl_search_paths] on a binary directory that has a component
    [bin]: the loop ends after one test per component below the last
    [bin] and one more; the tool directory is the path up to and including
    that last [bin], a prefix of the binary directory, and the two shader
    directories are [shaders/appleseed] and [shaders/blenderseed] beside
    it.  Components [bin] further up play no part. *)
Theorem get_osl_search_paths_from_last_bin (pre post : path) (fuel : nat) :
  let bin_dir := pre ++ "bin" :: post in
  let found := Some (pre ++ ["bin"],
                     [pre ++ ["shaders"; "appleseed"];
                      pre ++ ["shaders"; "blenderseed"]]) in
  "bin" ∉ post →
  get_osl_search_paths_within fuel bin_dir
  = (if decide (length post < fuel)%nat then found else None)
  ∧ get_appleseed_parent_dir_within fuel bin_dir
    = (if decide (length post < fuel)%nat then Some pre else None)
  ∧ get_osl_search_paths bin_dir = found.
Proof.
  intros bin_dir found Hpost.
  assert (Hparent : get_appleseed_parent_dir_within fuel bin_dir
                    = if decide (length post < fuel)%nat then Some pre else None).
  { unfold get_appleseed_parent_dir_within, bin_dir.
    rewrite climb_to_bin_last_bin by done.
    destruct (decide _); [|done]. simpl. by rewrite dirname_snoc. }
  split; [|split; [exact Hparent|]].
  - unfold get_osl_search_paths_within. rewrite Hparent.
    by destruct (decide _).
  - unfold get_osl_search_paths, bin_dir. by rewrite parent_of_bin_last_bin.
Qed.

(** On a binary directory with no component [bin] the loop of
    [get_osl_search_paths] and of [get_appleseed_parent_dir] never ends:
    whatever the number of tests allowed, no result is reached.  This is
    the [None] of [get_osl_search_paths], and [read_osl_shaders] does not
    return either when the preference is set to such a directory. *)
Theorem get_osl_search_paths_without_bin_never_returns (bin_dir : path) (s : effects) :
  "bin" ∉ bin_dir →
  (∀ fuel, get_osl_search_paths_within fuel bin_dir = None
           ∧ get_appleseed_parent_dir_within fuel bin_dir = None)
  ∧ get_osl_search_paths bin_dir = None
  ∧ (get_appleseed_bin_dir = Some bin_dir → read_osl_shaders s = None).
Proof.
  intros Hbin.
  assert (Hnone : get_osl_search_paths bin_dir = None).
  { unfold get_osl_search_paths.
    rewrite parent_of_bin_no_bin; [done|]. by rewrite elem_of_reverse. }
  split; [|split; [exact Hnone|]].
  - intros fuel.
    unfold get_osl_search_paths_within, get_appleseed_parent_dir_within.
    by rewrite climb_to_bin_no_bin.
  - intros Hset. unfold read_osl_shaders. by rewrite Hset, Hnone.
Qed.

(** *** [endswith] *)

Lemma substring_all (s : string) : String.substring 0 (String.length s) s = s.
Proof. induction s as [|c s IH]; simpl; [done|]. by rewrite IH. Qed.

Lemma substring_append (pre suffix : string) :
  String.substring (String.length pre) (String.length suffix) (pre ++ suffix)%string
  = suffix.
Proof. induction pre as [|c pre IH]; simpl; [apply substring_all|done]. Qed.

Lemma append_substring (s : string) : ∀ k,
  (k ≤ String.length s)%nat →
  ∃ pre, s = (pre ++ String.substring k (String.length s - k) s)%string.
Proof.
  induction s as [|c s IH]; intros [|k] Hk; simpl in *; try lia.
  - by exists "".
  - exists "". simpl. by rewrite substring_all.
  - destruct (IH k ltac:(lia)) as [pre Hpre]. exists (String c pre).
    change (String c s
            = String c (pre ++ String.substring k (String.length s - k) s)%string).
    by f_equal.
Qed.

(** [s.endswith(suffix)] holds exactly of the strings that are some text
    followed by [suffix]. *)
Lemma endswith_spec (s suffix : string) :
  endswith s suffix = true ↔ ∃ stem, s = (stem ++ suffix)%string.
Proof.
  unfold endswith. rewrite andb_true_iff, Nat.leb_le, String.eqb_eq. split.
  - intros [Hle Hsuf].
    destruct (append_substring s (String.length s - String.length suffix) ltac:(lia))
      as [stem Hstem].
    exists stem.
    replace (String.length s - (String.length s - String.length suffix))%nat
      with (String.length suffix) in Hstem by lia.
    by rewrite Hsuf in Hstem.
  - intros [stem ->]. rewrite Names.length_append. split; [lia|].
    replace (String.length stem + String.length suffix - String.length suffix)%nat
      with (String.length stem) by lia.
    apply substring_append.
Qed.

(** *** The shader files [read_osl_shaders] opens *)

(** The compiled shaders of a directory, in the order of its listing. *)
Definition oso_files (shader_dir : path) : list string :=
  filter (λ file, endswith file ".oso" = true) (listdir shader_dir).

(** The files of the shader directories that exist, as directory and
    file name, in the order of the search. *)
Definition shader_files (shader_directories : list path) : list (path * string) :=
  shader_directories ≫= λ shader_dir,
    if isdir shader_dir then (λ file, (shader_dir, file)) <$> oso_files shader_dir
    else [].

Lemma read_files_loop (shader_dir : path) (files : list string) :
  ∀ (nodes : list Node) (s : effects),
  foldl (λ (acc : list Node * effects) file,
           if endswith file ".oso" then
             let s := logger DEBUG ("[appleseed] Reading " ++ file ++ "...")%string
                             acc.2 in
             let s := q_open (shader_dir ++ [file]) s in
             (acc.1 ++ [shader_node shader_dir file], s)
           else acc)
        (nodes, s) files
  = let oso := filter (λ file, endswith file ".oso" = true) files in
    (nodes ++ (shader_node shader_dir <$> oso),
     {| log := log s ++ ((λ file, (DEBUG, "[appleseed] Reading " ++ file ++ "...")%string)
                           <$> oso);
        opened := opened s ++ ((λ file, shader_dir ++ [file]) <$> oso) |}).
Proof.
  induction files as [|file files IH]; intros nodes s; simpl.
  - rewrite !app_nil_r. by destruct s.
  - rewrite filter_cons. destruct (endswith file ".oso") eqn:Hoso.
    + rewrite decide_True by done. rewrite IH. simpl.
      by rewrite <- !app_assoc.
    + rewrite decide_False by done. apply IH.
Qed.

Lemma read_shader_dir_files (shader_dir : path) (nodes : list Node) (s : effects) :
  ∃ records,
    read_shader_dir shader_dir (nodes, s)
    = (nodes ++ ((λ f : path * string, shader_node f.1 f.2) <$> shader_files [shader_dir]),
       {| log := log s ++ records;
          opened := opened s
                    ++ ((λ f : path * string, f.1 ++ [f.2]) <$> shader_files [shader_dir]) |})
    ∧ Forall (λ r, r.1 = DEBUG) records.
Proof.
  unfold read_shader_dir, shader_files. simpl. destruct (isdir shader_dir).
  - eexists. split.
    + etransitivity; [apply read_files_loop|]. cbv zeta. simpl.
      rewrite app_nil_r, <- !list_fmap_compose, <- app_assoc. reflexivity.
    + constructor; [done|]. apply Forall_fmap, Forall_forall. by intros file _.
  - exists []. simpl. rewrite !app_nil_r. split; [by destruct s|constructor].
Qed.

Lemma shader_files_cons (shader_dir : path) (dirs : list path) :
  shader_files (shader_dir :: dirs) = shader_files [shader_dir] ++ shader_files dirs.
Proof. unfold shader_files. simpl. by rewrite app_nil_r. Qed.

Lemma read_shader_dirs_files (dirs : list path) : ∀ (nodes : list Node) (s : effects),
  ∃ records,
    foldl (λ acc shader_dir, read_shader_dir shader_dir acc) (nodes, s) dirs
    = (nodes ++ ((λ f : path * string, shader_node f.1 f.2) <$> shader_files dirs),
       {| log := log s ++ records;
          opened := opened s
                    ++ ((λ f : path * string, f.1 ++ [f.2]) <$> shader_files dirs) |})
    ∧ Forall (λ r, r.1 = DEBUG) records.
Proof.
  induction dirs as [|shader_dir dirs IH]; intros nodes s.
  - exists []. simpl. rewrite !app_nil_r. split; [by destruct s|constructor].
  - cbn [foldl].
    destruct (read_shader_dir_files shader_dir nodes s) as (r1 & -> & Hr1).
    edestruct IH as (r2 & -> & Hr2).
    exists (r1 ++ r2). split; [|by apply Forall_app].
    rewrite (shader_files_cons shader_dir dirs), !fmap_app. cbn [log opened].
    by rewrite <- !app_assoc.
Qed.

(** With the binary directory set and a component [bin] in it,
    [read_osl_shaders] opens exactly the files whose name ends in [.oso]
    of the shader directories that exist, directory by directory in the
    order of the search and file by file in the order of the listing, and
    returns one node per opened file, in the same order.  No other file is
    opened, every record it logs is a debug record, and every parameter of
    a shader is either among the inputs or among the outputs of its
    node. *)
Theorem read_osl_shaders_one_node_per_oso_file
    (bin_dir tool_dir : path) (shader_directories : list path) (s : effects) :
  let files := shader_files shader_directories in
  get_appleseed_bin_dir = Some bin_dir →
  get_osl_search_paths bin_dir = Some (tool_dir, shader_directories) →
  ∃ records,
    read_osl_shaders s
    = Some ((λ f, shader_node f.1 f.2) <$> files,
            {| log := log s ++ records;
               opened := opened s ++ ((λ f, f.1 ++ [f.2]) <$> files) |})
    ∧ Forall (λ r, r.1 = DEBUG) records
    ∧ Forall (λ f, f.1 ∈ shader_directories ∧ isdir f.1 = true
                   ∧ f.2 ∈ listdir f.1
                   ∧ ∃ stem, f.2 = (stem ++ ".oso")%string) files
    ∧ Forall (λ f, let node := shader_node f.1 f.2 in
                   (length (inputs node) + length (outputs node))%nat
                   = length (params (shader_query (f.1 ++ [f.2])))) files.
Proof.
  intros files Hset Hpaths. unfold read_osl_shaders. rewrite Hset, Hpaths.
  edestruct (read_shader_dirs_files shader_directories [])
    as (records & -> & Hrecords).
  exists ([(DEBUG, "[appleseed] Parsing OSL shaders...")] ++ records
          ++ [(DEBUG, "[appleseed] OSL parsing complete.")]).
  split; [|split; [|split]].
  - unfold logger. cbn [fst snd log opened]. by rewrite <- !app_assoc.
  - apply Forall_app. split; [by constructor|].
    apply Forall_app. split; [done|by constructor].
  - apply Forall_forall. intros [dir file].
    unfold files, shader_files. rewrite list_elem_of_bind.
    intros (shader_dir & Hin & Hdir). destruct (isdir shader_dir) eqn:Hisdir.
    + apply list_elem_of_fmap in Hin as (file' & [= -> ->] & Hfile).
      unfold oso_files in Hfile. apply list_elem_of_filter in Hfile as [Hoso Hfile].
      simpl. by rewrite <- endswith_spec.
    + by apply elem_of_nil in Hin.
  - apply Forall_forall. intros [dir file] _. simpl. rewrite !length_fmap.
    set (l := params (shader_query (dir ++ [file]))).
    induction l as [|p l IH]; [done|].
    rewrite !filter_cons. destruct (isoutput p).
    + rewrite decide_False, decide_True by done. simpl. lia.
    + rewrite decide_True, decide_False by done. simpl. lia.
Qed.

End Shaders.

End Osl.

(** ** The Python path of appleseed: [find_python_path],
    [load_appleseed_python_paths], [unload_appleseed_python_paths] *)

Module PythonPaths.

Import Stdlib.Strings.Ascii.
Import Osl.

(** The exceptions of this part of the module. *)
Inductive exn := KeyError | ValueError.

Inductive outcome := Returns | Raises (e : exn).

(** What the three functions read and change of the running
    interpreter: [sys.path], [os.environ], and the log. *)
Record process := {
  sys_path : list string;
  environ : Dict.dict string string;
  log : list (level * string);
}.

(** [l.remove(x)]: the list without the first occurrence of [x];
    [None] when [x] does not occur, where Python raises [ValueError]. *)
Fixpoint remove (x : string) (l : list string) : option (list string) :=
  match l with
  | [] => None
  | y :: l' => if decide (x = y) then Some l' else (y ::.) <$> remove x l'
  end.

Section PythonPaths.

(** The add-on preference and [realpath], as in the search for the
    shaders. *)
Variable appleseed_binary_directory : string.
Variable realpath : string → path.
(** The text of a path as [os.path] writes it on the platform. *)
Variable path_text : path → string.
(** [platform.system()] and [os.pathsep]. *)
Variable platform_system : string.
Variable pathsep : Ascii.ascii.
(** [repr] of a string. *)
Variable repr : string → string.

(** [str(l)] for a list of strings. *)
Definition str_of_list (l : list string) : string :=
  ("[" ++ Names.join ", " (repr <$> l) ++ "]")%string.

(** The value of [get_appleseed_bin_dir()] as text: the empty string
    when the preference is unset. *)
Definition bin_dir_text : string :=
  match get_appleseed_bin_dir appleseed_binary_directory realpath with
  | None => ""
  | Some bin_dir => path_text bin_dir
  end.

(** [get_appleseed_parent_dir()], the loop bounded by [fuel].  The empty
    string of an unset preference, like the root, has the empty base name
    and is its own directory. *)
Definition get_appleseed_parent_dir (fuel : nat) : option path :=
  get_appleseed_parent_dir_within fuel
    (default [] (get_appleseed_bin_dir appleseed_binary_directory realpath)).

(** [find_python_path()]; [None] when the bound of the loop is reached. *)
Definition find_python_path (fuel : nat) (s : process) : option string :=
  match Dict.get "APPLESEED_PYTHON_PATH" (environ s) with
  | Some python_path => Some python_path
  | None =>
      match get_appleseed_parent_dir fuel with
      | Some appleseed_parent_dir =>
          Some (path_text (appleseed_parent_dir ++ ["lib"; "python2.7"]))
      | None => None
      end
  end.

Definition load_appleseed_python_paths (fuel : nat) (s : process)
  : option (outcome * process) :=
  match find_python_path fuel s with
  | None => None
  | Some python_path =>
      Some (
        if String.eqb python_path "" then (Returns, s) else
        let s := {| sys_path := sys_path s ++ [python_path];
                    environ := environ s;
                    log := log s ++ [(DEBUG, "[appleseed] Python path set to: "
                                             ++ python_path)%string] |} in
        if String.eqb platform_system "Windows" then
          let bin_dir := bin_dir_text in
          match Dict.get "PATH" (environ s) with
          | None => (Raises KeyError, s)
          | Some PATH =>
              (Returns,
               {| sys_path := sys_path s;
                  environ := Dict.set "PATH" (PATH ++ String pathsep "" ++ bin_dir)%string
                                      (environ s);
                  log := log s ++ [(DEBUG, "[appleseed] Path to appleseed.dll is set to: "
                                           ++ bin_dir)%string] |})
          end
        else (Returns, s))
  end.

Definition unload_appleseed_python_paths (fuel : nat) (s : process)
  : option (outcome * process) :=
  match find_python_path fuel s with
  | None => None
  | Some python_path =>
      Some (
        if String.eqb python_path "" then (Returns, s) else
        match remove python_path (sys_path s) with
        | None => (Raises ValueError, s)
        | Some sys_path' =>
            let s := {| sys_path := sys_path'; environ := environ s; log := log s |} in
            if String.eqb platform_system "Windows" then
              match Dict.get "PATH" (environ s) with
              | None => (Raises KeyError, s)
              | Some PATH =>
                  (Returns,
                   {| sys_path := sys_path s;
                      environ := Dict.set "PATH"
                                   (str_of_list (removelast (Names.split pathsep PATH)))
                                   (environ s);
                      log := log s |})
              end
            else (Returns, s)
        end)
  end.

(** *** [list.remove] and [str.split] *)

Lemma remove_None (x : string) (l : list string) : remove x l = None ↔ x ∉ l.
Proof.
  induction l as [|y l IH]; simpl.
  - split; [intros _; apply not_elem_of_nil|done].
  - rewrite not_elem_of_cons. destruct (decide (x = y)) as [->|Hne].
    + split; [done|by intros [? _]].
    + destruct (remove x l); simpl; [|tauto].
      split; [done|]. intros [_ Hl]. by apply IH in Hl.
Qed.

Lemma remove_first_occurrence (x : string) (pre post : list string) :
  x ∉ pre → remove x (pre ++ x :: post) = Some (pre ++ post).
Proof.
  induction pre as [|y pre IH]; simpl; intros Hpre.
  - by rewrite decide_True.
  - apply not_elem_of_cons in Hpre as [Hne Hpre].
    rewrite decide_False by done. by rewrite IH.
Qed.

Lemma split_append (sep : Ascii.ascii) (s1 s2 : string) :
  Names.split sep (s1 ++ String sep s2) = Names.split sep s1 ++ Names.split sep s2.
Proof.
  induction s1 as [|c s1 IH].
  - simpl. by rewrite Ascii.eqb_refl.
  - change (String c s1 ++ String sep s2)%string with (String c (s1 ++ String sep s2)).
    simpl. rewrite IH. destruct (Ascii.eqb c sep); [done|].
    pose proof (Names.split_nonempty sep s1) as Hne.
    by destruct (Names.split sep s1).
Qed.

Lemma split_no_separator (sep : Ascii.ascii) (s : string) :
  sep ∉ Names.chars s → Names.split sep s = [s].
Proof.
  induction s as [|c s IH]; simpl; [done|].
  intros [Hc Hs]%not_elem_of_cons.
  assert (Ascii.eqb c sep = false) as -> by (apply Ascii.eqb_neq; congruence).
  by rewrite IH.
Qed.

Lemma remove_Permutation (x : string) (l l' : list string) :
  remove x l = Some l' → l ≡ₚ x :: l'.
Proof.
  revert l'. induction l as [|y l IH]; intros l'; simpl; [done|].
  destruct (decide (x = y)) as [->|Hne]; [by intros [= ->]|].
  destruct (remove x l) as [l0|]; simpl; [|done].
  intros [= <-]. rewrite (IH l0 eq_refl). apply Permutation_swap.
Qed.

(** [load_appleseed_python_paths] leaves the answer of
    [find_python_path] as it was. *)
Lemma find_python_path_environ fuel (s s' : process) :
  Dict.get "APPLESEED_PYTHON_PATH" (environ s')
  = Dict.get "APPLESEED_PYTHON_PATH" (environ s) →
  find_python_path fuel s' = find_python_path fuel s.
Proof. intros Henv. unfold find_python_path. by rewrite Henv. Qed.

Lemma load_Returns_inv fuel s python_path s1 :
  find_python_path fuel s = Some python_path →
  python_path ≠ "" →
  load_appleseed_python_paths fuel s = Some (Returns, s1) →
  sys_path s1 = sys_path s ++ [python_path]
  ∧ find_python_path fuel s1 = Some python_path
  ∧ (platform_system = "Windows" →
     ∃ PATH, Dict.get "PATH" (environ s) = Some PATH
             ∧ Dict.get "PATH" (environ s1)
               = Some (PATH ++ String pathsep "" ++ bin_dir_text)%string)
  ∧ (platform_system ≠ "Windows" → environ s1 = environ s).
Proof.
  intros Hfind Hne. unfold load_appleseed_python_paths. rewrite Hfind.
  apply String.eqb_neq in Hne. rewrite Hne. cbv zeta. cbn [environ sys_path log].
  destruct (String.eqb_spec platform_system "Windows") as [Hwin|Hother].
  - destruct (Dict.get "PATH" (environ s)) as [PATH|] eqn:Hpath; [|done].
    intros [= <-]. cbn [environ sys_path]. split; [done|]. split; [|split; [|done]].
    + rewrite <- Hfind. apply find_python_path_environ. cbn [environ].
      by rewrite Dict.get_set_ne.
    + intros _. exists PATH. split; [done|]. apply Dict.get_set_eq.
  - intros [= <-]. cbn [environ sys_path]. split; [done|]. split; [|split; done].
    by rewrite <- Hfind.
Qed.

(** Loading and then unloading the Python path, for a path that is not
    the empty string: the load appends the path to [sys.path], and the
    unload takes out the first occurrence of it and returns normally.  The
    entries of [sys.path] are the same as before the load, and so is the
    list if the path was not in it; if it was, its first occurrence has
    moved to the end. *)
Theorem load_then_unload_restores_the_entries_of_sys_path
    (fuel : nat) (s s1 : process) (python_path : string) :
  find_python_path fuel s = Some python_path →
  python_path ≠ "" →
  load_appleseed_python_paths fuel s = Some (Returns, s1) →
  ∃ s2,
    unload_appleseed_python_paths fuel s1 = Some (Returns, s2)
    ∧ sys_path s1 = sys_path s ++ [python_path]
    ∧ sys_path s2 ≡ₚ sys_path s
    ∧ (python_path ∉ sys_path s → sys_path s2 = sys_path s)
    ∧ (∀ pre post, sys_path s = pre ++ python_path :: post → python_path ∉ pre →
         sys_path s2 = pre ++ post ++ [python_path]).
Proof.
  intros Hfind Hne Hload.
  destruct (load_Returns_inv fuel s python_path s1 Hfind Hne Hload)
    as (Hpath1 & Hfind1 & Hwin & Hother).
  assert (Hremove : ∃ l, remove python_path (sys_path s1) = Some l
            ∧ l ≡ₚ sys_path s
            ∧ (python_path ∉ sys_path s → l = sys_path s)
            ∧ (∀ pre post, sys_path s = pre ++ python_path :: post →
                 python_path ∉ pre → l = pre ++ post ++ [python_path])).
  { rewrite Hpath1.
    destruct (remove python_path (sys_path s ++ [python_path])) as [l|] eqn:Hl.
    - exists l. split; [done|]. split; [|split].
      + apply remove_Permutation in Hl.
        rewrite <- Permutation_cons_append in Hl.
        by apply Permutation_cons_inv in Hl.
      + intros Hnotin.
        rewrite <- (app_nil_r (sys_path s ++ [python_path])), <- app_assoc in Hl.
        simpl in Hl. rewrite remove_first_occurrence in Hl by done.
        rewrite app_nil_r in Hl. by injection Hl as <-.
      + intros pre post Hs Hpre. rewrite Hs, <- app_assoc in Hl. simpl in Hl.
        rewrite remove_first_occurrence in Hl by done. by injection Hl as <-.
    - apply remove_None in Hl. contradict Hl. apply elem_of_app. right. left. }
  destruct Hremove as (l & Hl & Hperm & Hsame & Hmoved).
  unfold unload_appleseed_python_paths. rewrite Hfind1.
  apply String.eqb_neq in Hne. rewrite Hne, Hl. cbv zeta. cbn [environ sys_path log].
  destruct (String.eqb_spec platform_system "Windows") as [Hw|Ho].
  - destruct (Hwin Hw) as (PATH & _ & ->). eexists. split; [done|].
    cbn [sys_path]. done.
  - eexists. split; [done|]. cbn [sys_path]. done.
Qed.

(** [unload_appleseed_python_paths] when the Python path is not in
    [sys.path], as when nothing was loaded: [sys.path.remove] raises
    [ValueError] and nothing is changed.  When the Python path is the empty
    string, which only the environment variable can make it, neither
    function does anything. *)
Theorem unload_without_load_raises_ValueError
    (fuel : nat) (s : process) (python_path : string) :
  find_python_path fuel s = Some python_path →
  (python_path ≠ "" → python_path ∉ sys_path s →
     unload_appleseed_python_paths fuel s = Some (Raises ValueError, s))
  ∧ (python_path = "" →
     unload_appleseed_python_paths fuel s = Some (Returns, s)
     ∧ load_appleseed_python_paths fuel s = Some (Returns, s)).
Proof.
  intros Hfind. unfold unload_appleseed_python_paths, load_appleseed_python_paths.
  rewrite Hfind. split.
  - intros Hne%String.eqb_neq Hnotin%remove_None. by rewrite Hne, Hnotin.
  - by intros ->.
Qed.

(** On Windows the load appends the separator and the binary directory
    to [PATH]; the unload then sets [PATH] to the text of a Python list,
    the one of the entries [PATH] had before the load: brackets, quotes
    and commas included.  Unless [PATH] began with a bracket before, it is
    not what it was. *)
Theorem unload_on_Windows_sets_PATH_to_the_text_of_a_list
    (fuel : nat) (s : process) (python_path PATH : string) :
  platform_system = "Windows" →
  find_python_path fuel s = Some python_path →
  python_path ≠ "" →
  Dict.get "PATH" (environ s) = Some PATH →
  pathsep ∉ Names.chars bin_dir_text →
  ∃ s1 s2,
    load_appleseed_python_paths fuel s = Some (Returns, s1)
    ∧ Dict.get "PATH" (environ s1)
      = Some (PATH ++ String pathsep "" ++ bin_dir_text)%string
    ∧ unload_appleseed_python_paths fuel s1 = Some (Returns, s2)
    ∧ Dict.get "PATH" (environ s2)
      = Some ("[" ++ Names.join ", " (repr <$> Names.split pathsep PATH) ++ "]")%string
    ∧ (String.get 0 PATH ≠ Some "["%char → Dict.get "PATH" (environ s2) ≠ Some PATH).
Proof.
  intros Hwin Hfind Hne HPATH Hsep.
  assert (Hload : ∃ s1, load_appleseed_python_paths fuel s = Some (Returns, s1)).
  { unfold load_appleseed_python_paths. rewrite Hfind.
    apply String.eqb_neq in Hne. rewrite Hne. cbv zeta. cbn [environ].
    rewrite Hwin, String.eqb_refl, HPATH. eauto. }
  destruct Hload as [s1 Hload]. exists s1.
  destruct (load_Returns_inv fuel s python_path s1 Hfind Hne Hload)
    as (Hpath1 & Hfind1 & Hw & _).
  destruct (Hw Hwin) as (PATH' & HPATH' & HPATH1).
  rewrite HPATH in HPATH'. injection HPATH' as <-.
  assert (Hunload : ∃ l, unload_appleseed_python_paths fuel s1
    = Some (Returns,
            {| sys_path := l;
               environ := Dict.set "PATH"
                            (str_of_list (removelast (Names.split pathsep
                               (PATH ++ String pathsep "" ++ bin_dir_text))))
                            (environ s1);
               log := log s1 |})).
  { unfold unload_appleseed_python_paths. rewrite Hfind1.
    apply String.eqb_neq in Hne. rewrite Hne.
    destruct (remove python_path (sys_path s1)) as [l|] eqn:Hl.
    - cbv zeta. cbn [environ sys_path log].
      rewrite Hwin, String.eqb_refl, HPATH1. eauto.
    - apply remove_None in Hl. contradict Hl. rewrite Hpath1.
      apply elem_of_app. right. left. }
  destruct Hunload as [l Hunload]. eexists.
  split; [done|]. split; [done|]. split; [exact Hunload|].
  cbn [environ]. rewrite Dict.get_set_eq.
  assert (Hsplit : removelast (Names.split pathsep
                     (PATH ++ String pathsep "" ++ bin_dir_text))
                   = Names.split pathsep PATH).
  { change (PATH ++ String pathsep "" ++ bin_dir_text)%string
      with (PATH ++ String pathsep bin_dir_text)%string.
    rewrite split_append. rewrite (split_no_separator _ _ Hsep).
    apply removelast_last. }
  rewrite Hsplit. split; [done|].
  intros Hfirst [= Heq]. apply Hfirst. by rewrite <- Heq.
Qed.

(** Where [find_python_path] takes the Python path from: the environment
    variable [APPLESEED_PYTHON_PATH] when it is set, whatever the
    preference is; otherwise [lib/python2.7] beside the last directory [bin]
    of the binary directory.  With the variable not set and no component
    [bin] in the binary directory, as when the preference is unset, the
    loop of [get_appleseed_parent_dir] never ends: neither
    [find_python_path] nor the load nor the unload returns, whatever the
    number of tests allowed. *)
Theorem find_python_path_prefers_the_environment (fuel : nat) (s : process) :
  (∀ python_path,
     Dict.get "APPLESEED_PYTHON_PATH" (environ s) = Some python_path →
     find_python_path fuel s = Some python_path)
  ∧ (Dict.get "APPLESEED_PYTHON_PATH" (environ s) = None →
     (∀ pre post,
        get_appleseed_bin_dir appleseed_binary_directory realpath
        = Some (pre ++ "bin" :: post) →
        "bin" ∉ post → (length post < fuel)%nat →
        find_python_path fuel s = Some (path_text (pre ++ ["lib"; "python2.7"])))
     ∧ ((∀ bin_dir,
           get_appleseed_bin_dir appleseed_binary_directory realpath = Some bin_dir →
           "bin" ∉ bin_dir) →
        find_python_path fuel s = None
        ∧ load_appleseed_python_paths fuel s = None
        ∧ unload_appleseed_python_paths fuel s = None)).
Proof.
  split.
  - intros python_path Henv. unfold find_python_path. by rewrite Henv.
  - intros Henv. split.
    + intros pre post Hbin Hpost Hfuel.
      unfold find_python_path, get_appleseed_parent_dir,
        get_appleseed_parent_dir_within.
      rewrite Henv, Hbin. simpl.
      rewrite climb_to_bin_last_bin, decide_True by done. simpl.
      by rewrite dirname_snoc.
    + intros Hnobin.
      assert (Hfind : find_python_path fuel s = None).
      { unfold find_python_path, get_appleseed_parent_dir,
          get_appleseed_parent_dir_within.
        rewrite Henv, climb_to_bin_no_bin; [done|].
        destruct (get_appleseed_bin_dir _ _) as [bin_dir|]; simpl.
        - by apply Hnobin.
        - apply not_elem_of_nil. }
      unfold load_appleseed_python_paths, unload_appleseed_python_paths.
      by rewrite Hfind.
Qed.

End PythonPaths.

End PythonPaths.

(** ** Scene export utilities: [inscenelayer] and [do_export] *)

Module SceneExport.

Import Py.

(** What the two functions read of a host object and of a scene. *)
Record BlObject := {
  hide_render : bool;
  type : string;
  layers : list bool;
}.

Record BlScene := {
  scene_layers : list bool;
}.

(** The values the two functions return. *)
Inductive value := PyTrue | PyFalse | PyNone.

(** The truth value Python gives them in a condition. *)
Definition truthy (v : value) : bool :=
  if v is PyTrue then true else false.

(** The loop of [inscenelayer] over the indices [i] still to come: the
    scene is indexed only where the layer of the object is set, and the
    function falls off its end, returning [None], when the loop is over. *)
Fixpoint inscenelayer_from (indices : list nat) (obj : BlObject) (scene : BlScene)
  : outcome value :=
  match indices with
  | [] => Ok PyNone
  | i :: indices =>
      match layers obj !! i with
      | None => Raise IndexError
      | Some false => inscenelayer_from indices obj scene
      | Some true =>
          match scene_layers scene !! i with
          | None => Raise IndexError
          | Some true => Ok PyTrue
          | Some false => inscenelayer_from indices obj scene
          end
      end
  end.

Definition inscenelayer (obj : BlObject) (scene : BlScene) : outcome value :=
  inscenelayer_from (seq 0 (length (layers obj))) obj scene.

(** The object types that are exported. *)
Definition exported_types : list string :=
  ["MESH"; "SURFACE"; "META"; "TEXT"; "CURVE"; "LAMP"].

(** [not obj.hide_render and obj.type in (...) and inscenelayer(obj, scene)]:
    the first operand that is false is the result, and the operands after
    it are not evaluated. *)
Definition do_export (obj : BlObject) (scene : BlScene) : outcome value :=
  if negb (hide_render obj) then
    if bool_decide (type obj ∈ exported_types) then inscenelayer obj scene
    else Ok PyFalse
  else Ok PyFalse.

(** [i] is the first layer of the object, from [k] on, at which the scene
    does not answer [False], and the scene answers [answer] there. *)
Definition first_layer (obj : BlObject) (scene : BlScene) (k i : nat)
    (answer : option bool) : Prop :=
  (k ≤ i)%nat ∧ layers obj !! i = Some true ∧ scene_layers scene !! i = answer
  ∧ answer ≠ Some false
  ∧ ∀ j, (k ≤ j < i)%nat → layers obj !! j = Some true →
         scene_layers scene !! j = Some false.

Lemma first_layer_unique obj scene k i i' answer answer' :
  first_layer obj scene k i answer → first_layer obj scene k i' answer' →
  i = i' ∧ answer = answer'.
Proof.
  intros (Hk & Hobj & Hsc & Hans & Hfirst) (Hk' & Hobj' & Hsc' & Hans' & Hfirst').
  destruct (Nat.lt_trichotomy i i') as [Hlt|[->|Hgt]].
  - specialize (Hfirst' i ltac:(lia) Hobj). congruence.
  - split; [done|]. congruence.
  - specialize (Hfirst i' ltac:(lia) Hobj'). congruence.
Qed.

Lemma inscenelayer_from_seq obj scene n : ∀ k,
  (k + n = length (layers obj))%nat →
  match inscenelayer_from (seq k n) obj scene with
  | Ok PyTrue => ∃ i, first_layer obj scene k i (Some true)
  | Ok PyNone => ∀ j, (k ≤ j)%nat → layers obj !! j = Some true →
                      scene_layers scene !! j = Some false
  | Ok PyFalse => False
  | Raise e => e = IndexError ∧ ∃ i, first_layer obj scene k i None
  end.
Proof.
  induction n as [|n IH]; intros k Hk; simpl.
  - intros j Hj Hobj. apply lookup_lt_Some in Hobj. lia.
  - destruct (lookup_lt_is_Some_2 (layers obj) k ltac:(lia)) as [b Hb].
    rewrite Hb.
    assert (Hnext :
      (b = false ∨ scene_layers scene !! k = Some false) →
      match inscenelayer_from (seq (S k) n) obj scene with
      | Ok PyTrue => ∃ i, first_layer obj scene k i (Some true)
      | Ok PyNone => ∀ j, (k ≤ j)%nat → layers obj !! j = Some true →
                          scene_layers scene !! j = Some false
      | Ok PyFalse => False
      | Raise e => e = IndexError ∧ ∃ i, first_layer obj scene k i None
      end).
    { intros Hskip. specialize (IH (S k) ltac:(lia)).
      assert (Hstep : ∀ i answer, first_layer obj scene (S k) i answer →
                                  first_layer obj scene k i answer).
      { intros i answer (Hi & Hobj & Hsc & Hans & Hfirst).
        split; [lia|]. split; [done|]. split; [done|]. split; [done|].
        intros j Hj Hj'. destruct (decide (j = k)) as [->|Hne].
        - destruct Hskip as [->|Hsk]; [congruence|done].
        - apply Hfirst; [lia|done]. }
      destruct (inscenelayer_from (seq (S k) n) obj scene) as [[| |]|e].
      - destruct IH as [i Hi]. eauto.
      - done.
      - intros j Hj Hj'. destruct (decide (j = k)) as [->|Hne].
        + destruct Hskip as [->|Hsk]; [congruence|done].
        + apply IH; [lia|done].
      - destruct IH as [-> [i Hi]]. eauto. }
    destruct b; [|by apply Hnext; left].
    destruct (scene_layers scene !! k) as [[|]|] eqn:Hsc.
    + exists k. split; [lia|]. split; [done|]. split; [done|]. split; [done|]. lia.
    + apply Hnext. by right.
    + split; [done|]. exists k.
      split; [lia|]. split; [done|]. split; [done|]. split; [done|]. lia.
Qed.

(** What [inscenelayer] returns.  Never [False]: it returns [True] when
    it finds a layer set for the object and for the scene, and otherwise
    falls off its end and returns [None].  It looks layers up in the scene
    only where the layer of the object is set, so it raises [IndexError]
    exactly when the first layer of the object that is not a layer unset in
    the scene lies beyond the layers of the scene.  With at least as many
    layers in the scene as in the object it returns, and the result is
    [True] exactly when a layer is set for both. *)
Theorem inscenelayer_True_or_None (obj : BlObject) (scene : BlScene) :
  inscenelayer obj scene ≠ Ok PyFalse
  ∧ (inscenelayer obj scene = Ok PyTrue
     ↔ ∃ i, first_layer obj scene 0 i (Some true))
  ∧ (inscenelayer obj scene = Raise IndexError
     ↔ ∃ i, first_layer obj scene 0 i None)
  ∧ (∀ e, inscenelayer obj scene = Raise e → e = IndexError)
  ∧ ((length (layers obj) ≤ length (scene_layers scene))%nat →
     inscenelayer obj scene
     = Ok (if existsb (λ p : bool * bool, p.1 && p.2)
                      (zip (layers obj) (scene_layers scene))
           then PyTrue else PyNone)).
Proof.
  pose proof (inscenelayer_from_seq obj scene (length (layers obj)) 0 eq_refl) as Hrun.
  fold (inscenelayer obj scene) in Hrun.
  split; [|split; [|split; [|split]]].
  - intros Heq. by rewrite Heq in Hrun.
  - split.
    + intros Heq. by rewrite Heq in Hrun.
    + intros [i Hi]. destruct (inscenelayer obj scene) as [[| |]|e]; [done|done| |].
      * destruct Hi as (_ & Hobj & Hsc & _). specialize (Hrun i ltac:(lia) Hobj).
        congruence.
      * destruct Hrun as [_ [i' Hi']].
        by destruct (first_layer_unique _ _ _ _ _ _ _ Hi Hi').
  - split.
    + intros Heq. rewrite Heq in Hrun. by destruct Hrun.
    + intros [i Hi]. destruct (inscenelayer obj scene) as [[| |]|e]; [|done| |].
      * destruct Hrun as [i' Hi'].
        by destruct (first_layer_unique _ _ _ _ _ _ _ Hi Hi').
      * destruct Hi as (_ & Hobj & Hsc & _). specialize (Hrun i ltac:(lia) Hobj).
        congruence.
      * by destruct Hrun as [-> _].
  - intros e Heq. rewrite Heq in Hrun. by destruct Hrun.
  - intros Hlen.
    destruct (existsb _ _) eqn:Hex.
    + apply existsb_exists in Hex as ([a b] & Hin & Hab).
      apply andb_true_iff in Hab as [Ha Hb]. simpl in Ha, Hb. subst a b.
      apply list_elem_of_In, list_elem_of_lookup in Hin as [j Hj].
      apply lookup_zip_Some in Hj as [Hobj Hsc].
      destruct (inscenelayer obj scene) as [[| |]|e]; [done|done| |].
      * specialize (Hrun j ltac:(lia) Hobj). congruence.
      * destruct Hrun as [_ (i & _ & Hobj' & Hsc' & _)].
        apply lookup_lt_Some in Hobj'. apply lookup_ge_None in Hsc'. lia.
    + destruct (inscenelayer obj scene) as [[| |]|e]; [|done|done|].
      * destruct Hrun as (i & _ & Hobj & Hsc & _).
        assert (existsb (λ p : bool * bool, p.1 && p.2)
                  (zip (layers obj) (scene_layers scene)) = true) as Hex'; [|congruence].
        apply existsb_exists. exists (true, true). split; [|done].
        apply list_elem_of_In, list_elem_of_lookup. exists i.
        by apply lookup_zip_Some.
      * destruct Hrun as [_ (i & _ & Hobj' & Hsc' & _)].
        apply lookup_lt_Some in Hobj'. apply lookup_ge_None in Hsc'. lia.
Qed.

(** What [do_export] returns.  For an object hidden from renders or of a
    type that is not exported the result is [False] and the layers are not
    looked at, so the call cannot raise; otherwise the result is that of
    [inscenelayer].  Whenever the call returns, its result counts as true
    exactly when the object is not hidden, its type is one of the six
    exported types, and one layer is set for the object and for the scene;
    an object that fails the last test alone gives [None], not [False]. *)
Theorem do_export_truthy (obj : BlObject) (scene : BlScene) :
  (hide_render obj = true ∨ type obj ∉ exported_types →
     do_export obj scene = Ok PyFalse)
  ∧ (hide_render obj = false → type obj ∈ exported_types →
     do_export obj scene = inscenelayer obj scene)
  ∧ (∀ v, do_export obj scene = Ok v →
       (truthy v = true
        ↔ hide_render obj = false ∧ type obj ∈ exported_types
          ∧ ∃ i, layers obj !! i = Some true ∧ scene_layers scene !! i = Some true)
       ∧ (v = PyNone → hide_render obj = false ∧ type obj ∈ exported_types)).
Proof.
  pose proof (inscenelayer_from_seq obj scene (length (layers obj)) 0 eq_refl) as Hrun.
  fold (inscenelayer obj scene) in Hrun.
  unfold do_export. split; [|split].
  - intros [->| Htype]; [done|].
    destruct (hide_render obj); [done|]. simpl. by rewrite bool_decide_false.
  - intros -> Htype. simpl. by rewrite bool_decide_true.
  - intros v. destruct (hide_render obj); simpl.
    { intros [= <-]. split; [|done]. split; [done|]. by intros [? _]. }
    destruct (bool_decide_reflect (type obj ∈ exported_types)) as [Htype|Htype].
    2:{ intros [= <-]. split; [|done]. split; [done|]. by intros (_ & ? & _). }
    intros Heq. rewrite Heq in Hrun. split; [|done].
    destruct v; simpl.
    + split; [|done]. intros _. split; [done|]. split; [done|].
      destruct Hrun as (i & _ & Hobj & Hsc & _). eauto.
    + done.
    + split; [done|]. intros (_ & _ & i & Hobj & Hsc).
      specialize (Hrun i ltac:(lia) Hobj). congruence.
Qed.

End SceneExport.

(** ** The profiling timer: [Timer] *)

Module Profiling.

Import Py.

Section Timer.

(** [timedelta.total_seconds()], on a difference counted in
    microseconds. *)
Variable total_seconds : Z → float.

(** A [Timer]: [__start] is assigned by the constructor, [__end] is
    [None] as long as the attribute has not been assigned.  Times are the
    readings of [datetime.datetime.now()], in microseconds. *)
Record Timer := {
  __start : Z;
  __end : option Z;
}.

(** [start], run when the clock reads [now]. *)
Definition start (now : Z) (self : Timer) : Timer :=
  {| __start := now; __end := __end self |}.

(** [__init__]: [self.start()] on a new object. *)
Definition Timer_init (now : Z) : Timer :=
  {| __start := now; __end := None |}.

(** [stop], run when the clock reads [now]. *)
Definition stop (now : Z) (self : Timer) : Timer :=
  {| __start := __start self; __end := Some now |}.

(** [elapsed]: it does not read the clock. *)
Definition elapsed (self : Timer) : outcome float :=
  match __end self with
  | None => Raise AttributeError
  | Some end_time => Ok (total_seconds (end_time - __start self))
  end.

(** The calls that change a timer, with the reading of the clock at the
    call. *)
Inductive call := Start (now : Z) | Stop (now : Z).

Definition time_of (c : call) : Z :=
  match c with Start now | Stop now => now end.

Definition run (calls : list call) (self : Timer) : Timer :=
  foldl (λ self c, match c with
                   | Start now => start now self
                   | Stop now => stop now self
                   end) self calls.

(** The reading of the clock at the last [start], the one of the
    constructor included, and at the last [stop]. *)
Definition last_start (init : Z) (calls : list call) : Z :=
  default init (last (omap (λ c, if c is Start now then Some now else None) calls)).

Definition last_stop (calls : list call) : option Z :=
  last (omap (λ c, if c is Stop now then Some now else None) calls).

Lemma run_snoc (calls : list call) (c : call) (self : Timer) :
  run (calls ++ [c]) self
  = match c with
    | Start now => start now (run calls self)
    | Stop now => stop now (run calls self)
    end.
Proof. unfold run. by rewrite foldl_app. Qed.

Lemma run_fields (init : Z) (calls : list call) :
  __start (run calls (Timer_init init)) = last_start init calls
  ∧ __end (run calls (Timer_init init)) = last_stop calls.
Proof.
  unfold last_start, last_stop.
  induction calls as [|c calls [IHs IHe]] using rev_ind; [done|].
  rewrite run_snoc, !omap_app. destruct c as [now|now]; simpl.
  - rewrite last_snoc, app_nil_r. by split.
  - rewrite last_snoc, app_nil_r. by split.
Qed.

Lemma last_start_bound (init bound : Z) (calls : list call) :
  (init ≤ bound)%Z → Forall (λ c, (time_of c ≤ bound)%Z) calls →
  (last_start init calls ≤ bound)%Z.
Proof.
  intros Hinit Hcalls. unfold last_start.
  destruct (last _) as [t|] eqn:Hlast; simpl; [|done].
  apply last_Some_elem_of, list_elem_of_omap in Hlast as (c & Hc & Ht).
  rewrite Forall_forall in Hcalls. specialize (Hcalls c Hc).
  destruct c; [|done]. by injection Ht as <-.
Qed.

Lemma last_stop_bound (bound t : Z) (calls : list call) :
  Forall (λ c, (time_of c ≤ bound)%Z) calls →
  last_stop calls = Some t → (t ≤ bound)%Z.
Proof.
  intros Hcalls Hlast. unfold last_stop in Hlast.
  apply last_Some_elem_of, list_elem_of_omap in Hlast as (c & Hc & Ht).
  rewrite Forall_forall in Hcalls. specialize (Hcalls c Hc).
  destruct c; [done|]. by injection Ht as <-.
Qed.

Lemma elapsed_run (init : Z) (calls : list call) :
  elapsed (run calls (Timer_init init))
  = match last_stop calls with
    | None => Raise AttributeError
    | Some end_time => Ok (total_seconds (end_time - last_start init calls))
    end.
Proof.
  unfold elapsed. destruct (run_fields init calls) as [-> ->]. done.
Qed.

(** What [elapsed] returns after any calls of [start] and [stop] on a
    timer constructed at [init].  Before the first [stop] the attribute
    [__end] does not exist and [elapsed] raises [AttributeError].  After
    it, the result is the seconds from the last [start] to the last
    [stop], in that order of subtraction whichever came last.  So with a
    clock that does not go backwards the difference is not negative right
    after a [stop], and it is not positive right after a [start] that
    follows a [stop]: the end of the run before is the one subtracted
    from. *)
Theorem elapsed_is_last_stop_minus_last_start (init : Z) (calls : list call) :
  elapsed (run calls (Timer_init init))
  = match last_stop calls with
    | None => Raise AttributeError
    | Some end_time => Ok (total_seconds (end_time - last_start init calls))
    end
  ∧ elapsed (Timer_init init) = Raise AttributeError
  ∧ ∀ now, (init ≤ now)%Z → Forall (λ c, (time_of c ≤ now)%Z) calls →
      (elapsed (run (calls ++ [Stop now]) (Timer_init init))
       = Ok (total_seconds (now - last_start init calls))
       ∧ (0 ≤ now - last_start init calls)%Z)
      ∧ match last_stop calls with
        | None =>
            elapsed (run (calls ++ [Start now]) (Timer_init init))
            = Raise AttributeError
        | Some end_time =>
            elapsed (run (calls ++ [Start now]) (Timer_init init))
            = Ok (total_seconds (end_time - now))
            ∧ (end_time - now ≤ 0)%Z
        end.
Proof.
  split; [apply elapsed_run|]. split; [done|].
  intros now Hinit Hcalls. rewrite !elapsed_run.
  unfold last_stop, last_start. rewrite !omap_app. simpl.
  rewrite last_snoc, !app_nil_r. fold (last_stop calls) (last_start init calls).
  split.
  - split; [done|]. pose proof (last_start_bound init now calls Hinit Hcalls). lia.
  - destruct (last_stop calls) as [end_time|] eqn:Hstop; [|done].
    rewrite last_snoc. simpl. split; [done|].
    pose proof (last_stop_bound now end_time calls Hcalls Hstop). lia.
Qed.

End Timer.

End Profiling.

(** ** Particle system tests: [render_emitter], [is_psys_emitter],
    [has_hairsys] *)

Module Particles.

(** [psys.settings]: what the tests read.  Objects and groups are named;
    [None] is Python's [None]. *)
Record ParticleSettings := {
  type : string;
  render_type : string;
  dupli_object : option string;
  dupli_group : option (list string);
  use_render_emitter : bool;
}.

(** A modifier: a particle-system modifier with its [show_render] flag
    and the settings of its system, or a modifier of another type. *)
Inductive Modifier :=
| PARTICLE_SYSTEM (show_render : bool) (settings : ParticleSettings)
| OtherModifier (type : string) (show_render : bool).

Record BlObject := {
  particle_systems : list ParticleSettings;
  modifiers : list Modifier;
}.

(** The loop of [render_emitter]; the [break] leaves it with [True]. *)
Fixpoint render_emitter_loop (systems : list ParticleSettings) (render : bool) : bool :=
  match systems with
  | [] => render
  | settings :: systems =>
      if use_render_emitter settings then true
      else render_emitter_loop systems render
  end.

Definition render_emitter (ob : BlObject) : bool :=
  render_emitter_loop (particle_systems ob) false.

(** The test of [is_psys_emitter] on the settings of one system. *)
Definition instances_object_or_group (settings : ParticleSettings) : bool :=
  if String.eqb (render_type settings) "OBJECT" && bool_decide (dupli_object settings ≠ None)
  then true
  else if String.eqb (render_type settings) "GROUP"
          && bool_decide (dupli_group settings ≠ None)
  then true
  else false.

Fixpoint is_psys_emitter_loop (mods : list Modifier) (emitter : bool) : bool :=
  match mods with
  | [] => emitter
  | PARTICLE_SYSTEM true settings :: mods =>
      if instances_object_or_group settings then true
      else is_psys_emitter_loop mods emitter
  | _ :: mods => is_psys_emitter_loop mods emitter
  end.

Definition is_psys_emitter (ob : BlObject) : bool :=
  is_psys_emitter_loop (modifiers ob) false.

Fixpoint has_hairsys_loop (mods : list Modifier) (has_hair : bool) : bool :=
  match mods with
  | [] => has_hair
  | PARTICLE_SYSTEM true settings :: mods =>
      if String.eqb (type settings) "HAIR" && String.eqb (render_type settings) "PATH"
      then true
      else has_hairsys_loop mods has_hair
  | _ :: mods => has_hairsys_loop mods has_hair
  end.

Definition has_hairsys (ob : BlObject) : bool :=
  has_hairsys_loop (modifiers ob) false.

Lemma render_emitter_loop_true (systems : list ParticleSettings) :
  render_emitter_loop systems false = true
  ↔ ∃ settings, settings ∈ systems ∧ use_render_emitter settings = true.
Proof.
  induction systems as [|settings systems IH]; simpl.
  - split; [done|]. by intros (? & ?%elem_of_nil & _).
  - destruct (use_render_emitter settings) eqn:Huse.
    + split; [|done]. intros _. exists settings. split; [left|done].
    + rewrite IH. split.
      * intros (s & Hin & Hs). exists s. split; [by right|done].
      * intros (s & [->|Hin]%elem_of_cons & Hs); [congruence|eauto].
Qed.

Lemma is_psys_emitter_loop_true (mods : list Modifier) :
  is_psys_emitter_loop mods false = true
  ↔ ∃ settings, PARTICLE_SYSTEM true settings ∈ mods
                ∧ instances_object_or_group settings = true.
Proof.
  induction mods as [|modifier mods IH]; simpl.
  - split; [done|]. by intros (? & ?%elem_of_nil & _).
  - assert (Hskip : (∀ settings, modifier = PARTICLE_SYSTEM true settings →
                       instances_object_or_group settings = false) →
      (is_psys_emitter_loop mods false = true
       ↔ ∃ settings, PARTICLE_SYSTEM true settings ∈ modifier :: mods
                     ∧ instances_object_or_group settings = true)).
    { intros Hno. rewrite IH. split.
      - intros (s & Hin & Hs). exists s. split; [by right|done].
      - intros (s & [Heq|Hin]%elem_of_cons & Hs); [|eauto].
        symmetry in Heq. apply Hno in Heq. congruence. }
    destruct modifier as [[|] settings|]; [|by apply Hskip..].
    destruct (instances_object_or_group settings) eqn:Hi.
    + split; [|done]. intros _. exists settings. split; [left|done].
    + apply Hskip. by intros ? [= <-].
Qed.

Lemma has_hairsys_loop_true (mods : list Modifier) :
  has_hairsys_loop mods false = true
  ↔ ∃ settings, PARTICLE_SYSTEM true settings ∈ mods
                ∧ type settings = "HAIR" ∧ render_type settings = "PATH".
Proof.
  induction mods as [|modifier mods IH]; simpl.
  - split; [done|]. by intros (? & ?%elem_of_nil & _).
  - assert (Hskip : (∀ settings, modifier = PARTICLE_SYSTEM true settings →
                       ¬ (type settings = "HAIR" ∧ render_type settings = "PATH")) →
      (has_hairsys_loop mods false = true
       ↔ ∃ settings, PARTICLE_SYSTEM true settings ∈ modifier :: mods
                     ∧ type settings = "HAIR" ∧ render_type settings = "PATH")).
    { intros Hno. rewrite IH. split.
      - intros (s & Hin & Hs). exists s. split; [by right|done].
      - intros (s & [Heq|Hin]%elem_of_cons & Hs); [|eauto].
        symmetry in Heq. by apply Hno in Heq. }
    destruct modifier as [[|] settings|]; [|by apply Hskip..].
    destruct (String.eqb_spec (type settings) "HAIR") as [Hty|Hty]; simpl.
    + destruct (String.eqb_spec (render_type settings) "PATH") as [Hrt|Hrt].
      * split; [|done]. intros _. exists settings. split; [left|done].
      * apply Hskip. intros ? [= <-] [_ ?]. done.
    + apply Hskip. intros ? [= <-] [? _]. done.
Qed.

(** The three tests are existence tests, whatever stands before or after
    the system that answers them: [render_emitter] holds exactly when some
    particle system of the object has [use_render_emitter] set;
    [is_psys_emitter] exactly when some particle-system modifier shown in
    renders has particles rendered as an object that is given or as a
    group that is given; [has_hairsys] exactly when some particle-system
    modifier shown in renders is a hair system rendered as paths.  One
    modifier never answers both of the last two tests. *)
Theorem particle_tests_are_existence_tests (ob : BlObject) :
  (render_emitter ob = true
   ↔ ∃ settings, settings ∈ particle_systems ob ∧ use_render_emitter settings = true)
  ∧ (is_psys_emitter ob = true
     ↔ ∃ settings, PARTICLE_SYSTEM true settings ∈ modifiers ob
         ∧ (render_type settings = "OBJECT" ∧ dupli_object settings ≠ None
            ∨ render_type settings = "GROUP" ∧ dupli_group settings ≠ None))
  ∧ (has_hairsys ob = true
     ↔ ∃ settings, PARTICLE_SYSTEM true settings ∈ modifiers ob
         ∧ type settings = "HAIR" ∧ render_type settings = "PATH")
  ∧ (∀ modifier, modifiers ob = [modifier] →
       is_psys_emitter ob && has_hairsys ob = false).
Proof.
  assert (Htest : ∀ settings, instances_object_or_group settings = true
    ↔ (render_type settings = "OBJECT" ∧ dupli_object settings ≠ None
       ∨ render_type settings = "GROUP" ∧ dupli_group settings ≠ None)).
  { intros settings. unfold instances_object_or_group.
    destruct (String.eqb_spec (render_type settings) "OBJECT") as [Ho|Ho];
      destruct (String.eqb_spec (render_type settings) "GROUP") as [Hg|Hg];
      destruct (bool_decide_reflect (dupli_object settings ≠ None)) as [Hdo|Hdo];
      destruct (bool_decide_reflect (dupli_group settings ≠ None)) as [Hdg|Hdg];
      simpl; try rewrite Ho in *; try rewrite Hg in *; intuition congruence. }
  split; [apply render_emitter_loop_true|]. split; [|split].
  - unfold is_psys_emitter. rewrite is_psys_emitter_loop_true.
    split; intros (s & Hin & Hs); exists s; (split; [done|]); by apply Htest.
  - apply has_hairsys_loop_true.
  - intros modifier Hmods. unfold is_psys_emitter, has_hairsys. rewrite Hmods.
    destruct modifier as [[|] settings|]; simpl; try done.
    destruct (instances_object_or_group settings) eqn:Hi; [|done].
    apply Htest in Hi.
    destruct (String.eqb_spec (render_type settings) "PATH") as [Hrt|Hrt];
      [|by rewrite andb_false_r].
    rewrite Hrt in Hi. by destruct Hi as [[? _]|[? _]].
Qed.

End Particles.

(** ** Objects instanced by particle systems: [get_all_psysobs] *)

Module PsysObjects.

Import Particles.

(** One iteration of the loop over [bpy.data.particles]. *)
Definition add_psysobs (obs : gset string) (settings : ParticleSettings) : gset string :=
  if String.eqb (render_type settings) "OBJECT" && bool_decide (dupli_object settings ≠ None)
  then match dupli_object settings with
       | Some ob => obs ∪ {[ob]}
       | None => obs
       end
  else if String.eqb (render_type settings) "GROUP"
          && bool_decide (dupli_group settings ≠ None)
  then match dupli_group settings with
       | Some objects => obs ∪ list_to_set objects
       | None => obs
       end
  else obs.

(** [get_all_psysobs()], on the value of [bpy.data.particles]. *)
Definition get_all_psysobs (particles : list ParticleSettings) : gset string :=
  foldl add_psysobs ∅ particles.

(** [settings] instances [ob]: as the object of its particles, or as a
    member of the group of its particles. *)
Definition instanced_by (settings : ParticleSettings) (ob : string) : Prop :=
  render_type settings = "OBJECT" ∧ dupli_object settings = Some ob
  ∨ render_type settings = "GROUP"
    ∧ ∃ objects, dupli_group settings = Some objects ∧ ob ∈ objects.

Lemma elem_of_add_psysobs (obs : gset string) (settings : ParticleSettings) (ob : string) :
  ob ∈ add_psysobs obs settings ↔ ob ∈ obs ∨ instanced_by settings ob.
Proof.
  unfold add_psysobs, instanced_by.
  destruct (String.eqb_spec (render_type settings) "OBJECT") as [Ho|Ho].
  - destruct (dupli_object settings) as [o|] eqn:Hdo.
    + rewrite bool_decide_true by done. simpl.
      rewrite elem_of_union, elem_of_singleton. split.
      * intros [?| ->]; [by left|]. right. by left.
      * intros [?|[[_ [= ->]]|[Hg _]]]; [by left|by right|].
        rewrite Ho in Hg. done.
    + rewrite bool_decide_false by (intros Hnone; by apply Hnone). simpl.
      rewrite Ho. simpl. split; [by left|].
      intros [?|[[_ ?]|[? _]]]; done.
  - simpl. destruct (String.eqb_spec (render_type settings) "GROUP") as [Hg|Hg].
    + destruct (dupli_group settings) as [objects|] eqn:Hdg.
      * rewrite bool_decide_true by done. simpl.
        rewrite elem_of_union, elem_of_list_to_set. split.
        -- intros [?|?]; [by left|]. right. right. split; [done|]. eauto.
        -- intros [?|[[? _]|[_ (objs & [= <-] & ?)]]]; [by left|done|by right].
      * rewrite bool_decide_false by (intros Hnone; by apply Hnone). simpl.
        split; [by left|]. intros [?|[[? _]|[_ (objs & ? & _)]]]; done.
    + simpl. split; [by left|]. intros [?|[[? _]|[? _]]]; done.
Qed.

Lemma elem_of_foldl_add_psysobs (particles : list ParticleSettings) :
  ∀ (obs : gset string) (ob : string),
  ob ∈ foldl add_psysobs obs particles
  ↔ ob ∈ obs ∨ ∃ settings, settings ∈ particles ∧ instanced_by settings ob.
Proof.
  induction particles as [|settings particles IH]; intros obs ob; simpl.
  - split; [by left|]. intros [?|(? & ?%elem_of_nil & _)]; done.
  - rewrite IH, elem_of_add_psysobs. split.
    + intros [[?|?]|(s & Hin & Hs)]; [by left|right..].
      * exists settings. split; [left|done].
      * exists s. split; [by right|done].
    + intros [?|(s & [->|Hin]%elem_of_cons & Hs)]; [by left; left|by left; right|].
      right. eauto.
Qed.

(** [get_all_psysobs] returns exactly the objects that some particle
    settings instance: the object of settings rendered as an object, and
    the members of the group of settings rendered as a group.  Settings
    rendered in another way, or whose object or group is not given, add
    nothing. *)
Theorem get_all_psysobs_instanced_objects (particles : list ParticleSettings) (ob : string) :
  ob ∈ get_all_psysobs particles
  ↔ ∃ settings, settings ∈ particles ∧ instanced_by settings ob.
Proof.
  unfold get_all_psysobs. rewrite elem_of_foldl_add_psysobs.
  split; [|by right]. intros [Hin|?]; [|done]. by apply elem_of_empty in Hin.
Qed.

End PsysObjects.

(** ** Object translators of [translators/object.py] *)

Module Translators.

Import Py.

Local Open Scope float_scope.

Section Translators.

(** The world matrices of the host and the transforms of the renderer,
    and [Translator._convert_matrix] of the base class between them. *)
Context {BlMatrix Transform : Type} `{EqDecision Transform}.
Variable _convert_matrix : BlMatrix → Transform.

(** *** The renderer side *)

(** [asr.TransformSequence]: the keys in the order they were set. *)
Definition TransformSequence : Type := list (float * Transform).

(** [seq.set_transform(time, transform)]: a key at that time gets the
    new transform, otherwise a key is added. *)
Fixpoint set_transform (time : float) (transform : Transform)
    (seq : TransformSequence) : TransformSequence :=
  match seq with
  | [] => [(time, transform)]
  | (t, x) :: rest =>
      if (t =? time) then (t, transform) :: rest
      else (t, x) :: set_transform time transform rest
  end.


(** [seq.optimize()]: a sequence whose samples are all equal collapses
    to its first key. *)
Definition optimize (seq : TransformSequence) : TransformSequence :=
  match seq with
  | (t, x) :: _ :: _ =>
      if decide (Forall (λ k, k.2 = x) seq) then [(t, x)] else seq
  | _ => seq
  end.

(** [asr.AssemblyInstance]. *)
Record AssemblyInstance := {
  ai_name : string;
  ai_assembly_name : string;
  ai_transform_sequence : TransformSequence;
}.

(** [asr.Assembly] entities: model, name, and the [filename] parameter. *)
Record AssemblyEntity := {
  as_model : string;
  as_name : string;
  as_filename : string;
}.

(** The assembly the translators flush into. *)
Record Assembly := {
  assemblies : list AssemblyEntity;
  assembly_instances : list AssemblyInstance;
}.

(** [assembly.assembly_instances().get_by_name(name)]: the first
    instance of that name. *)
Definition get_by_name (name : string) (a : Assembly) : option AssemblyInstance :=
  list_find (λ i, ai_name i = name) (assembly_instances a) ≫= λ r, Some r.2.

(** [handle.transform_sequence().set_transform(time, transform)] on the
    instance a handle refers to. *)
Fixpoint set_instance_transform (name : string) (time : float) (transform : Transform)
    (l : list AssemblyInstance) : list AssemblyInstance :=
  match l with
  | [] => []
  | i :: rest =>
      if decide (ai_name i = name) then
        {| ai_name := ai_name i; ai_assembly_name := ai_assembly_name i;
           ai_transform_sequence :=
             set_transform time transform (ai_transform_sequence i) |} :: rest
      else i :: set_instance_transform name time transform rest
  end.

(** *** The host side *)

(** What lies outside the translators: the current world matrix of every
    host object, and the renderer's assembly. *)
Record world := {
  matrix_world : string → BlMatrix;
  assembly : Assembly;
}.

(** *** [ObjectTranslator] *)

(** The attributes of an [ObjectTranslator]; [appleseed_name] is the
    property of the base class. *)
Record ObjectTranslator := {
  _bl_obj : string;
  appleseed_name : string;
  _xform_seq : TransformSequence;
  _num_instances : Z;
}.

(** [ObjectTranslator.__init__]. *)
Definition ObjectTranslator_init (obj appleseed_name : string) : ObjectTranslator :=
  {| _bl_obj := obj; appleseed_name := appleseed_name;
     _xform_seq := []; _num_instances := 1 |}.

Definition bl_obj (self : ObjectTranslator) : string := _bl_obj self.

Definition assembly_name (self : ObjectTranslator) : string :=
  (appleseed_name self ++ "_ass")%string.

Definition add_instance (self : ObjectTranslator) : ObjectTranslator :=
  {| _bl_obj := _bl_obj self; appleseed_name := appleseed_name self;
     _xform_seq := _xform_seq self; _num_instances := (_num_instances self + 1)%Z |}.

Definition with_xform_seq (self : ObjectTranslator) (seq : TransformSequence)
  : ObjectTranslator :=
  {| _bl_obj := _bl_obj self; appleseed_name := appleseed_name self;
     _xform_seq := seq; _num_instances := _num_instances self |}.

(** [set_transform_key(self, time, key_times)]: the new translator and
    the world after the call. *)
Definition set_transform_key (self : ObjectTranslator) (time : float)
    (key_times : list float) (w : world) : ObjectTranslator * world :=
  (with_xform_seq self
     (set_transform time (_convert_matrix (matrix_world w (bl_obj self)))
                    (_xform_seq self)),
   w).

(** *** [InstanceTranslator] *)

(** [__ass_inst] is [None] as long as the attribute has not been
    assigned; once assigned it is the handle of an instance of the
    assembly. *)
Record InstanceTranslator := {
  inst_base : ObjectTranslator;
  __master : ObjectTranslator;
  inst__ass_inst : option string;
}.

(** [InstanceTranslator.__init__]. *)
Definition InstanceTranslator_init (obj appleseed_name : string)
    (master_translator : ObjectTranslator) : InstanceTranslator :=
  {| inst_base := ObjectTranslator_init obj appleseed_name;
     __master := master_translator;
     inst__ass_inst := None |}.

Definition InstanceTranslator_create_entities (self : InstanceTranslator) (w : world)
  : InstanceTranslator * world :=
  ({| inst_base :=
        with_xform_seq (inst_base self)
          (set_transform 0 (_convert_matrix (matrix_world w (bl_obj (inst_base self))))
                         (_xform_seq (inst_base self)));
      __master := __master self;
      inst__ass_inst := inst__ass_inst self |},
   w).

Definition InstanceTranslator_flush_entities (self : InstanceTranslator) (w : world)
  : InstanceTranslator * world :=
  let seq := optimize (_xform_seq (inst_base self)) in
  let assembly_instance_name := (appleseed_name (inst_base self) ++ "_ass_inst")%string in
  let ass_inst := {| ai_name := assembly_instance_name;
                     ai_assembly_name := assembly_name (__master self);
                     ai_transform_sequence := seq |} in
  let ass_name := ai_name ass_inst in
  let a := {| assemblies := assemblies (assembly w);
              assembly_instances := assembly_instances (assembly w) ++ [ass_inst] |} in
  ({| inst_base := with_xform_seq (inst_base self) seq;
      __master := __master self;
      inst__ass_inst := ai_name <$> get_by_name ass_name a |},
   {| matrix_world := matrix_world w; assembly := a |}).

(** [self.__ass_inst.transform_sequence().set_transform(...)]: reading an
    attribute that was never assigned raises [AttributeError] before
    anything else is evaluated. *)
Definition update_ass_inst (ass_inst : option string) (obj : string) (w : world)
  : outcome unit * world :=
  match ass_inst with
  | None => (Raise AttributeError, w)
  | Some handle =>
      (Ok tt,
       {| matrix_world := matrix_world w;
          assembly :=
            {| assemblies := assemblies (assembly w);
               assembly_instances :=
                 set_instance_transform handle 0 (_convert_matrix (matrix_world w obj))
                   (assembly_instances (assembly w)) |} |})
  end.

Definition InstanceTranslator_update (self : InstanceTranslator) (obj : string) (w : world)
  : outcome unit * InstanceTranslator * world :=
  let r := update_ass_inst (inst__ass_inst self) obj w in
  (r.1, self, r.2).

(** *** [ArchiveTranslator] *)

Record ArchiveTranslator := {
  arch_base : ObjectTranslator;
  __archive_path : string;
  __ass : option AssemblyEntity;
  arch__ass_inst : option string;
}.

(** [ArchiveTranslator.__init__]. *)
Definition ArchiveTranslator_init (obj appleseed_name archive_path : string)
  : ArchiveTranslator :=
  {| arch_base := ObjectTranslator_init obj appleseed_name;
     __archive_path := archive_path;
     __ass := None;
     arch__ass_inst := None |}.

Definition ArchiveTranslator_create_entities (self : ArchiveTranslator) (w : world)
  : ArchiveTranslator * world :=
  ({| arch_base :=
        with_xform_seq (arch_base self)
          (set_transform 0 (_convert_matrix (matrix_world w (bl_obj (arch_base self))))
                         (_xform_seq (arch_base self)));
      __archive_path := __archive_path self;
      __ass := __ass self;
      arch__ass_inst := arch__ass_inst self |},
   w).

(** [asset_handler.process_path(path, AssetType.ARCHIVE_ASSET)]. *)
Variable process_path : string → string.


Definition ArchiveTranslator_update (self : ArchiveTranslator) (obj : string) (w : world)
  : outcome unit * ArchiveTranslator * world :=
  let r := update_ass_inst (arch__ass_inst self) obj w in
  (r.1, self, r.2).

(** *** Predicates used to state the properties *)

(** Some key of the sequence is at [time]. *)
Definition keyed (time : float) (seq : TransformSequence) : bool :=
  existsb (λ k, k.1 =? time) seq.

(** The translators that have been constructed and keyed but not
    flushed. *)
Inductive unflushed_instance : InstanceTranslator → Prop :=
| unflushed_init obj name master :
    unflushed_instance (InstanceTranslator_init obj name master)
| unflushed_create_entities self w :
    unflushed_instance self →
    unflushed_instance (InstanceTranslator_create_entities self w).1
| unflushed_set_transform_key self time key_times w :
    unflushed_instance self →
    unflushed_instance
      {| inst_base := (set_transform_key (inst_base self) time key_times w).1;
         __master := __master self;
         inst__ass_inst := inst__ass_inst self |}
| unflushed_add_instance self :
    unflushed_instance self →
    unflushed_instance
      {| inst_base := add_instance (inst_base self);
         __master := __master self;
         inst__ass_inst := inst__ass_inst self |}.

Inductive unflushed_archive : ArchiveTranslator → Prop :=
| unflushed_archive_init obj name archive_path :
    unflushed_archive (ArchiveTranslator_init obj name archive_path)
| unflushed_archive_create_entities self w :
    unflushed_archive self →
    unflushed_archive (ArchiveTranslator_create_entities self w).1
| unflushed_archive_set_transform_key self time key_times w :
    unflushed_archive self →
    unflushed_archive
      {| arch_base := (set_transform_key (arch_base self) time key_times w).1;
         __archive_path := __archive_path self;
         __ass := __ass self;
         arch__ass_inst := arch__ass_inst self |}.

(** *** Properties *)

Lemma set_transform_fresh time transform seq :
  keyed time seq = false →
  set_transform time transform seq = seq ++ [(time, transform)].
Proof.
  induction seq as [|[t x] seq IH]; simpl; [done|].
  intros [Ht Hseq]%orb_false_elim. rewrite Ht. f_equal. by apply IH.
Qed.




Lemma unflushed_instance_no_handle self :
  unflushed_instance self → inst__ass_inst self = None.
Proof. induction 1; done. Qed.

Lemma unflushed_archive_no_handle self :
  unflushed_archive self → arch__ass_inst self = None.
Proof. induction 1; done. Qed.

Lemma get_by_name_inserted name others l inst :
  ai_name inst = name →
  ∃ i, get_by_name name {| assemblies := others; assembly_instances := l ++ [inst] |}
       = Some i ∧ ai_name i = name.
Proof.
  intros Hinst. unfold get_by_name. simpl.
  destruct (list_find (λ i, ai_name i = name) (l ++ [inst])) as [[n i]|] eqn:Hfind.
  - apply list_find_Some in Hfind as (_ & Hname & _). by exists i.
  - apply list_find_None in Hfind.
    apply Forall_app in Hfind as [_ Hlast].
    inversion Hlast as [|? ? Hne _]. by destruct Hne.
Qed.

(** After [flush_entities] the handle is there and [update] returns. *)
Lemma flush_entities_then_update self w obj :
  let r := InstanceTranslator_flush_entities self w in
  inst__ass_inst r.1 = Some (appleseed_name (inst_base self) ++ "_ass_inst")%string
  ∧ (InstanceTranslator_update r.1 obj r.2).1.1 = Ok tt.
Proof.
  unfold InstanceTranslator_flush_entities, InstanceTranslator_update.
  cbv zeta. cbn [fst snd inst__ass_inst ai_name].
  edestruct (get_by_name_inserted
               (appleseed_name (inst_base self) ++ "_ass_inst")%string)
    as (i & -> & Hname); [done|].
  simpl. by rewrite Hname.
Qed.

(** C2, as the code has it: before [flush_entities] the attribute
    [__ass_inst] does not exist, and [update] of an instance translator
    or of an archive translator raises [AttributeError]; the translator
    and the world, the renderer's assembly in it, are left as they
    were. *)
Theorem update_before_flush_entities_raises
    (instance : InstanceTranslator) (archive : ArchiveTranslator)
    (obj : string) (w : world) :
  (unflushed_instance instance →
     InstanceTranslator_update instance obj w = (Raise AttributeError, instance, w))
  ∧ (unflushed_archive archive →
     ArchiveTranslator_update archive obj w = (Raise AttributeError, archive, w)).
Proof.
  split.
  - intros Hnone%unflushed_instance_no_handle.
    unfold InstanceTranslator_update. by rewrite Hnone.
  - intros Hnone%unflushed_archive_no_handle.
    unfold ArchiveTranslator_update. by rewrite Hnone.
Qed.

(** *** One key per key time *)

Lemma keyed_app time (seq1 seq2 : TransformSequence) :
  keyed time (seq1 ++ seq2) = keyed time seq1 || keyed time seq2.
Proof. unfold keyed. apply existsb_app. Qed.

Lemma set_transform_key_bl_obj self time key_times w :
  bl_obj (set_transform_key self time key_times w).1 = bl_obj self.
Proof. done. Qed.

(** The calls of [set_transform_key] an exporter makes for an object,
    one per key time, each in the world as it is at that time. *)
Definition set_transform_keys (self : ObjectTranslator) (key_times : list float)
    (calls : list (float * world)) : ObjectTranslator :=
  foldl (λ self call, (set_transform_key self call.1 key_times call.2).1) self calls.

Lemma set_transform_keys_fresh (key_times : list float) (calls : list (float * world)) :
  ∀ self : ObjectTranslator,
  (∀ i j ti tj, calls.*1 !! i = Some ti → calls.*1 !! j = Some tj →
                (i < j)%nat → (ti =? tj) = false) →
  Forall (λ call, keyed call.1 (_xform_seq self) = false) calls →
  _xform_seq (set_transform_keys self key_times calls)
  = _xform_seq self
    ++ ((λ call, (call.1, _convert_matrix (matrix_world call.2 (bl_obj self)))) <$> calls)
  ∧ _num_instances (set_transform_keys self key_times calls) = _num_instances self.
Proof.
  induction calls as [|[t w] calls IH]; intros self Hdistinct Hfresh.
  - simpl. by rewrite app_nil_r.
  - apply Forall_cons in Hfresh as [Ht Hfresh]. simpl in Ht.
    unfold set_transform_keys. cbn [foldl]. fold (set_transform_keys
      (set_transform_key self (t, w).1 key_times (t, w).2).1 key_times calls).
    destruct (IH (set_transform_key self t key_times w).1) as [IHseq IHnum].
    + intros i j ti tj Hi Hj Hij. apply (Hdistinct (S i) (S j)); [done|done|lia].
    + simpl. rewrite set_transform_fresh by done.
      apply Forall_forall. intros [t' w'] Hin. simpl.
      rewrite keyed_app. rewrite Forall_forall in Hfresh.
      pose proof (Hfresh _ Hin) as Ht'. simpl in Ht'. rewrite Ht'.
      simpl. rewrite orb_false_r.
      apply list_elem_of_lookup in Hin as [j Hj].
      apply (Hdistinct 0%nat (S j)); [done| |lia].
      simpl. by rewrite list_lookup_fmap, Hj.
    + simpl in IHseq, IHnum. simpl. rewrite IHseq, IHnum.
      rewrite set_transform_fresh by done. by rewrite <- app_assoc.
Qed.

(** Calling [set_transform_key] once per key time, for times that are
    pairwise different and not yet keyed, gives the transform sequence one
    more key per call, in the order of the calls; the key of a call holds
    the converted world matrix the host object had at that call.  The
    instance count is not touched. *)
Theorem set_transform_key_one_key_per_time
    (self : ObjectTranslator) (key_times : list float) (calls : list (float * world)) :
  (∀ i j ti tj, calls.*1 !! i = Some ti → calls.*1 !! j = Some tj →
                (i < j)%nat → (ti =? tj) = false) →
  Forall (λ call, keyed call.1 (_xform_seq self) = false) calls →
  let self' := set_transform_keys self key_times calls in
  _xform_seq self'
  = _xform_seq self
    ++ ((λ call, (call.1, _convert_matrix (matrix_world call.2 (bl_obj self)))) <$> calls)
  ∧ length (_xform_seq self') = (length (_xform_seq self) + length calls)%nat
  ∧ _num_instances self' = _num_instances self.
Proof.
  intros Hdistinct Hfresh self'.
  destruct (set_transform_keys_fresh key_times calls self Hdistinct Hfresh)
    as [Hseq Hnum].
  split; [exact Hseq|]. split; [|exact Hnum].
  unfold self'. by rewrite Hseq, length_app, length_fmap.
Qed.

(** *** From construction to update *)

Lemma set_instance_transform_last name time transform (l : list AssemblyInstance) inst :
  (∀ i, i ∈ l → ai_name i ≠ name) → ai_name inst = name →
  set_instance_transform name time transform (l ++ [inst])
  = l ++ [{| ai_name := ai_name inst; ai_assembly_name := ai_assembly_name inst;
             ai_transform_sequence :=
               set_transform time transform (ai_transform_sequence inst) |}].
Proof.
  intros Hl Hinst. induction l as [|i l IH]; simpl.
  - by rewrite decide_True.
  - rewrite decide_False by (apply Hl; left). f_equal. apply IH.
    intros i' Hi'. apply Hl. by right.
Qed.

(** An instance translator from its construction to an update, when the
    assembly holds no instance of its name yet: [create_entities] keys the
    converted world matrix of its object at time 0.0; [flush_entities]
    appends to the assembly one instance, named after the translator with
    the suffix [_ass_inst], of the assembly named after the master with
    the suffix [_ass], with that one key, and touches no other entity;
    [update] then returns normally and puts the converted world matrix of
    the object it is given in the place of that key, in the instance the
    assembly holds. *)
Theorem instance_translator_from_init_to_update
    (obj name : string) (master : ObjectTranslator) (w : world) (obj' : string) :
  let created := InstanceTranslator_create_entities
                   (InstanceTranslator_init obj name master) w in
  let flushed := InstanceTranslator_flush_entities created.1 created.2 in
  let instance_of transform :=
    {| ai_name := (name ++ "_ass_inst")%string;
       ai_assembly_name := (appleseed_name master ++ "_ass")%string;
       ai_transform_sequence := [(0, transform)] |} in
  (∀ i, i ∈ assembly_instances (assembly w) → ai_name i ≠ (name ++ "_ass_inst")%string) →
  assembly_instances (assembly flushed.2)
  = assembly_instances (assembly w) ++ [instance_of (_convert_matrix (matrix_world w obj))]
  ∧ assemblies (assembly flushed.2) = assemblies (assembly w)
  ∧ InstanceTranslator_update flushed.1 obj' flushed.2
    = (Ok tt, flushed.1,
       {| matrix_world := matrix_world w;
          assembly :=
            {| assemblies := assemblies (assembly w);
               assembly_instances :=
                 assembly_instances (assembly w)
                 ++ [instance_of (_convert_matrix (matrix_world w obj'))] |} |}).
Proof.
  intros created flushed instance_of Hfresh.
  split; [done|]. split; [done|].
  unfold InstanceTranslator_update, update_ass_inst.
  assert (Hhandle : inst__ass_inst flushed.1 = Some (name ++ "_ass_inst")%string).
  { apply (flush_entities_then_update created.1 created.2 obj'). }
  rewrite Hhandle. cbn [fst snd]. f_equal. f_equal. f_equal.
  change (assembly_instances (assembly flushed.2))
    with (assembly_instances (assembly w)
          ++ [instance_of (_convert_matrix (matrix_world w obj))]).
  rewrite set_instance_transform_last by done. done.
Qed.


End Translators.

End Translators.

(** ** Runs of the model on concrete scenes *)

Module Examples.

Import Py Util.

Local Open Scope float_scope.

(** *** A runtime: 4x4 matrices of floats *)

Definition mat4 : Type := list (list float).

Definition translation4 (v : Vector) : mat4 :=
  [[1; 0; 0; vx v]; [0; 1; 0; vy v]; [0; 0; 1; vz v]; [0; 0; 0; 1]].

(** Scaling by [factor] along a unit axis given by its 0/1 components. *)
Definition scale4 (factor : float) (size : nat) (axis : Z * Z * Z) : mat4 :=
  let on (z : Z) : float := if (z =? 0)%Z then 1 else factor in
  [[on axis.1.1; 0; 0; 0]; [0; on axis.1.2; 0; 0]; [0; 0; on axis.2; 0]; [0; 0; 0; 1]].

Definition dot (r c : list float) : float :=
  foldr (λ p acc, p.1 * p.2 + acc) 0 (zip r c).

Definition column (m : mat4) (j : nat) : list float :=
  (λ r, default 0 (r !! j)) <$> m.

Definition matmul4 (a b : mat4) : mat4 :=
  (λ r, (λ j, dot r (column b j)) <$> seq 0 4) <$> a.

(** Sets of two floats iterated in insertion order. *)
#[local] Instance runtime4 : Runtime := {|
  Matrix := mat4;
  Translation := translation4;
  Scale := scale4;
  matmul := matmul4;
  set_swaps := λ _ _, false;
|}.

(** *** A scene with an emitter *)

Definition cube : ObjectRef :=
  {| ref_name := "Cube"; ref_scale := λ _, {| vx := 1; vy := 2; vz := 3 |} |}.

Definition identity4 : mat4 :=
  [[1; 0; 0; 0]; [0; 1; 0; 0]; [0; 0; 1; 0]; [0; 0; 0; 1]].

(** A dupli of the cube, moving along x with the subframe. *)
Definition cube_dupli (tl : Timeline) (y : float) : DupliObject :=
  {| dupli_object := cube;
     dupli_matrix := translation4 {| vx := frame_subframe tl; vy := y; vz := 0 |} |}.

(** Three particles, the last one dead; size 2, moving along x. *)
Definition emitter : ParticleSystem :=
  {| settings_type := EMITTER;
     settings_render_type := OBJECT;
     particles := λ _, [0; 1; 2]%nat;
     alive_state := λ _ p, if decide (p = 2%nat) then DEAD else ALIVE;
     size := λ _ _, 2;
     location := λ tl p, {| vx := frame_subframe tl; vy := 5; vz := 0 |} |}.

(** An emitter none of whose particles is alive. *)
Definition dead_emitter : ParticleSystem :=
  {| settings_type := EMITTER;
     settings_render_type := OBJECT;
     particles := λ _, [0; 1]%nat;
     alive_state := λ _ _, DEAD;
     size := λ _ _, 2;
     location := λ tl p, {| vx := 0; vy := 0; vz := 0 |} |}.

Definition plane (blur : bool) (psys : ParticleSystem) : Object :=
  {| ob_enable_motion_blur := blur;
     ob_motion_blur_type := mb_object;
     modifiers := Some [OtherModifier "SUBSURF" true; PARTICLE_SYSTEM true psys];
     host_duplis := λ _ tl, [cube_dupli tl 0; cube_dupli tl 1] |}.

Definition scene_with_shutter (open close : float) : Scene :=
  {| enable_motion_blur := true;
     enable_object_blur := true;
     enable_deformation_blur := false;
     shutter_open := open;
     shutter_close := close |}.

(** The host at frame 10, nothing called yet. *)
Definition frame10 : host :=
  {| timeline := {| frame_current := 10; frame_subframe := 0 |};
     dupli_list := [];
     trace := [] |}.

(** The number of matrices of every entry of a returned dictionary. *)
Definition matrix_counts (r : outcome (Dict.dict Particle psys_entry)) : outcome (list nat) :=
  match r with
  | Ok d => Ok ((λ kv, length kv.2.2) <$> d)
  | Raise e => Raise e
  end.

(** *** A parent with a shrinking dupli-list

    A parent whose dupli-list loses its second dupli during the frame:
    [sample_mblur] leaves the entry of that dupli with the shutter-open
    matrix alone. *)
Definition shrinking : Object :=
  {| ob_enable_motion_blur := true;
     ob_motion_blur_type := mb_object;
     modifiers := Some [];
     host_duplis := λ _ tl,
       if (frame_subframe tl <? 0.5) then [cube_dupli tl 0; cube_dupli tl 1]
       else [cube_dupli tl 0] |}.

(** *** A [math] module

    Low-order series standing for [math.tan] and [math.atan], enough to
    run [calc_fov]. *)
Definition tan_series (x : float) : float := x + x * x * x / 3 + 2 * x * x * x * x * x / 15.
Definition atan_series (x : float) : float := x - x * x * x / 3 + x * x * x * x * x / 5.
Definition degrees (x : float) : float := x * 180 / 0x1.921fb54442d18p+1.
Definition float_of_int (z : Z) : float := PrimFloat.of_uint63 (Uint63.of_Z z).

(** *** A shader directory *)

Definition no_effects : Osl.effects := {| Osl.log := []; Osl.opened := [] |}.

(** A file system with one shader directory holding two compiled shaders
    and a source file. *)
Definition listdir (p : Osl.path) : list string :=
  if decide (p = ["opt"; "appleseed"; "shaders"; "appleseed"])
  then ["as_glass.oso"; "as_glass.osl"; "as_metal.oso"] else [].

Definition isdir (p : Osl.path) : bool :=
  bool_decide (p = ["opt"; "appleseed"; "shaders"; "appleseed"]).

Definition shader_query (p : Osl.path) : Osl.ShaderInfo nat :=
  {| Osl.as_blender_node_name := None;
     Osl.shader_name := default "" (last p);
     Osl.as_blender_category := Some "surface";
     Osl.params := [{| Osl.isoutput := false; Osl.param_data := 1%nat |};
                    {| Osl.isoutput := true; Osl.param_data := 2%nat |}] |}.

Definition strip_oso (s old new : string) : string :=
  String.substring 0 (String.length s - String.length old) s.

(** *** Translators and a world *)

Import Translators.

Definition zmat : Type := list (list Z).

(** A conversion for the runs below: transposition of 2x2 matrices. *)
Definition transpose2 (m : zmat) : zmat :=
  match m with
  | [[a; b]; [c; d]] => [[a; c]; [b; d]]
  | _ => m
  end.

Definition empty_world : @world zmat zmat :=
  {| matrix_world := λ _, [[1; 2]; [3; 4]]%Z;
     assembly := {| assemblies := []; assembly_instances := [] |} |}.

Definition master : @ObjectTranslator zmat := ObjectTranslator_init "Cube" "cube".

Definition fresh_instance : @InstanceTranslator zmat :=
  InstanceTranslator_init "Cube.001" "cube_001" master.

(** *** Motion blur and the number of matrices *)

(** C1, where the code departs from it: the shutter opens and closes at
    the same subframe and object motion blur is on, yet every particle
    gets one matrix only, the set of the two shutter times having a single
    element. With shutter times 0 and 1 every particle gets two matrices,
    and without motion blur one. *)
Example equal_shutter_times_one_matrix :
  ob_mblur_enabled (plane true emitter) (scene_with_shutter 0.5 0.5) = true
  ∧ matrix_counts
      (get_psys_instances (plane true emitter) (scene_with_shutter 0.5 0.5) frame10).1
    = Ok [1; 1]%nat
  ∧ matrix_counts
      (get_psys_instances (plane true emitter) (scene_with_shutter 0 1) frame10).1
    = Ok [2; 2]%nat
  ∧ matrix_counts
      (get_psys_instances (plane false emitter) (scene_with_shutter 0 1) frame10).1
    = Ok [1; 1]%nat.
Proof. repeat split; vm_compute; reflexivity. Qed.

(** The same holds for whatever [sample_psys_mblur] returns on this
    input, by the general count. *)
Example equal_shutter_times_general d i h' :
  sample_psys_mblur (plane true emitter) (scene_with_shutter 0.5 0.5) emitter 0 0 2 frame10
  = (Ok (ReturnPair d i), h') →
  matrix_count 1 d.
Proof. apply sample_psys_mblur_one_or_two. Qed.

Example shrinking_dupli_list_counts :
  (match (get_instances shrinking (scene_with_shutter 0 1) frame10).1 with
   | Ok (BlurInstances l) => Some ((λ e, length e.2) <$> l)
   | _ => None
   end) = Some [2; 1]%nat.
Proof. vm_compute. reflexivity. Qed.

(** *** The time line after sampling *)


(** *** Witnesses *)


Lemma emitter_matrix_witness :
  ∃ dupli_ob,
    Dict.get 0%nat
      (match (get_psys_instances (plane false emitter) (scene_with_shutter 0 1) frame10).1 with
       | Ok d => d
       | Raise _ => []
       end)
    = Some (dupli_ob,
            [matmul4 (translation4 {| vx := 0; vy := 5; vz := 0 |})
               (matmul4 (matmul4 (scale4 (vx (ref_scale dupli_ob (timeline frame10)) * 2) 4 (1, 0, 0)%Z)
                                 (scale4 (vy (ref_scale dupli_ob (timeline frame10)) * 2) 4 (0, 1, 0)%Z))
                        (scale4 (vz (ref_scale dupli_ob (timeline frame10)) * 2) 4 (0, 0, 1)%Z))]).
Proof.
  apply (get_psys_instances_emitter_matrix
           (plane false emitter) (scene_with_shutter 0 1)
           [OtherModifier "SUBSURF" true; PARTICLE_SYSTEM true emitter]
           frame10 _
           (get_psys_instances (plane false emitter) (scene_with_shutter 0 1) frame10).2
           emitter 0%nat).
  - reflexivity.
  - reflexivity.
  - vm_compute. reflexivity.
  - vm_compute. left.
  - reflexivity.
  - vm_compute. left.
  - intros psys' Hin _. vm_compute in Hin.
    by apply list_elem_of_singleton in Hin.
Defined.

Lemma False_or_pair_witness :
  (sample_psys_mblur (plane true dead_emitter) (scene_with_shutter 0.25 1)
     dead_emitter 0 0 0 frame10).1 = Ok ReturnFalse
  ∧ (∃ dupli_dict index' h',
       sample_psys_mblur (plane true emitter) (scene_with_shutter 0 1) emitter 0 0 2 frame10
       = (Ok (ReturnPair dupli_dict index'), h'))
  ∧ (get_psys_instances (plane true dead_emitter) (scene_with_shutter 0.25 1) frame10).1
    = Raise TypeError.
Proof.
  split; [|split].
  - apply (sample_psys_mblur_False_or_pair
             (plane true dead_emitter) (scene_with_shutter 0.25 1) dead_emitter 0 0 0 frame10).
    reflexivity.
  - apply (sample_psys_mblur_False_or_pair
             (plane true emitter) (scene_with_shutter 0 1) emitter 0 0 2 frame10).
    + vm_compute. discriminate.
    + vm_compute. discriminate.
  - vm_compute. reflexivity.
Defined.

(** *** Parameter lists *)

Lemma filter_params_witness :
  Params.filter_params ["Kd"; "Ks"; "Kd"; "roughness"; "Ks"]
  = ["Kd"; "Ks"; "roughness"]
  ∧ Params.filter_params (Params.filter_params ["Kd"; "Ks"; "Kd"; "roughness"; "Ks"])
    = Params.filter_params ["Kd"; "Ks"; "Kd"; "roughness"; "Ks"].
Proof.
  destruct (Params.filter_params_first_occurrence_dedup
              ["Kd"; "Ks"; "Kd"; "roughness"; "Ks"]) as (-> & _ & _ & _ & Hidem).
  split; [vm_compute; reflexivity|].
  rewrite <- (Params.filter_params_first_occurrences
                ["Kd"; "Ks"; "Kd"; "roughness"; "Ks"]). exact Hidem.
Defined.

(** *** Field of view *)

Lemma calc_fov_witness :
  Fov.calc_fov tan_series atan_series degrees float_of_int {| Fov.angle := 0.75 |} 1920 1080
  = degrees 0.75
  ∧ Fov.calc_fov tan_series atan_series degrees float_of_int {| Fov.angle := 0.75 |} 1080 1920
    = degrees (2 * atan_series (18 * float_of_int 1080 / float_of_int 1920
                                / (18 / tan_series (0.75 / 2)))).
Proof.
  split.
  - destruct (Fov.calc_fov_corrects_only_tall_renders
                tan_series atan_series degrees float_of_int {| Fov.angle := 0.75 |} 1920 1080)
      as (_ & Hwide & _).
    apply Hwide. lia.
  - destruct (Fov.calc_fov_corrects_only_tall_renders
                tan_series atan_series degrees float_of_int {| Fov.angle := 0.75 |} 1080 1920)
      as (Htall & _ & _).
    apply Htall. lia.
Defined.

(** *** OSL shaders *)

Lemma read_osl_shaders_witness :
  Osl.read_osl_shaders nat "" (λ _, ["opt"; "appleseed"; "bin"]) isdir listdir
    shader_query strip_oso no_effects
  = Some ([],
          {| Osl.log := [(Osl.WARNING, "[appleseed] WARNING: Path to appleseed's binary directory not set: rendering and OSL features will not be available.")];
             Osl.opened := [] |}).
Proof.
  apply (Osl.read_osl_shaders_unset_bin_dir nat "" (λ _, ["opt"; "appleseed"; "bin"])
           isdir listdir shader_query strip_oso no_effects).
  reflexivity.
Defined.

(** With the preference set, the two compiled shaders are opened. *)
Example read_osl_shaders_opens_oso_files :
  match Osl.read_osl_shaders nat "/opt/appleseed/bin" (λ _, ["opt"; "appleseed"; "bin"])
          isdir listdir shader_query strip_oso no_effects with
  | Some r => Some (map (Osl.filename nat) r.1, Osl.opened r.2)
  | None => None
  end
  = Some (["as_glass"; "as_metal"],
          [["opt"; "appleseed"; "shaders"; "appleseed"; "as_glass.oso"];
           ["opt"; "appleseed"; "shaders"; "appleseed"; "as_metal.oso"]]).
Proof. vm_compute. reflexivity. Qed.

(** *** Translators *)

(** [update] on a translator that was only constructed raises. *)
Lemma update_before_flush_raises_AttributeError :
  (InstanceTranslator_update transpose2 fresh_instance "Cube.001" empty_world).1.1
  = Raise AttributeError
  ∧ (ArchiveTranslator_update transpose2
       (ArchiveTranslator_init "Archive" "archive" "//scene.appleseedz")
       "Archive" empty_world).1.1
    = Raise AttributeError.
Proof. split; reflexivity. Qed.

Lemma update_before_flush_witness :
  InstanceTranslator_update transpose2
    (InstanceTranslator_create_entities transpose2 fresh_instance empty_world).1
    "Cube.001" empty_world
  = (Raise AttributeError,
     (InstanceTranslator_create_entities transpose2 fresh_instance empty_world).1,
     empty_world)
  ∧ ArchiveTranslator_update transpose2
      (ArchiveTranslator_init "Archive" "archive" "//scene.appleseedz")
      "Archive" empty_world
    = (Raise AttributeError,
       ArchiveTranslator_init "Archive" "archive" "//scene.appleseedz", empty_world).
Proof.
  split.
  - apply (update_before_flush_entities_raises transpose2
             (InstanceTranslator_create_entities transpose2 fresh_instance empty_world).1
             (ArchiveTranslator_init "Archive" "archive" "//scene.appleseedz")
             "Cube.001" empty_world).
    apply unflushed_create_entities, unflushed_init.
  - apply (update_before_flush_entities_raises transpose2 fresh_instance
             (ArchiveTranslator_init "Archive" "archive" "//scene.appleseedz")
             "Archive" empty_world).
    apply unflushed_archive_init.
Defined.

(** After [flush_entities] the same call returns and rewrites the key at
    time 0 of the flushed instance. *)
Example update_after_flush :
  let r := InstanceTranslator_flush_entities
             (InstanceTranslator_create_entities transpose2 fresh_instance empty_world).1
             empty_world in
  let w := {| matrix_world := λ _, [[5; 6]; [7; 8]]%Z; assembly := assembly r.2 |} in
  let r' := InstanceTranslator_update transpose2 r.1 "Cube.001" w in
  r'.1.1 = Ok tt
  ∧ assembly_instances (assembly r'.2)
    = [{| ai_name := "cube_001_ass_inst"; ai_assembly_name := "cube_ass";
          ai_transform_sequence := [(0, [[5; 7]; [6; 8]]%Z)] |}].
Proof. split; vm_compute; reflexivity. Qed.


(** *** Dupli-lists that change length during the frame *)

(** A parent whose dupli-list gains a dupli during the frame. *)
Definition growing : Object :=
  {| ob_enable_motion_blur := true;
     ob_motion_blur_type := mb_object;
     modifiers := Some [];
     host_duplis := λ _ tl,
       if (frame_subframe tl <? 0.5) then [cube_dupli tl 0]
       else [cube_dupli tl 0; cube_dupli tl 1] |}.

Lemma sample_mblur_shrinking_witness :
  ∃ matrices h',
    sample_mblur shrinking (scene_with_shutter 0.25 1) true frame10 = (Ok matrices, h')
    ∧ matrices.*1 = [cube; cube]
    ∧ (λ e, length e.2) <$> matrices = [2; 1]%nat
    ∧ timeline h' = {| frame_current := 10; frame_subframe := 0 |}
    ∧ dupli_list h' = [].
Proof.
  apply (sample_mblur_one_entry_per_open_dupli
           shrinking (scene_with_shutter 0.25 1) true frame10).
  vm_compute. lia.
Defined.

Lemma get_instances_growing_witness :
  get_instances growing (scene_with_shutter 0.25 1) frame10
  = (Raise IndexError,
     {| timeline := {| frame_current := 10; frame_subframe := 1 |};
        dupli_list := [cube_dupli {| frame_current := 10; frame_subframe := 1 |} 0;
                       cube_dupli {| frame_current := 10; frame_subframe := 1 |} 1];
        trace := [FrameSet 10 0.25;
                  DupliListCreate VIEWPORT {| frame_current := 10; frame_subframe := 0.25 |};
                  MatrixCopy (translation4 {| vx := 0.25; vy := 0; vz := 0 |});
                  DupliListClear;
                  FrameSet 10 1;
                  DupliListCreate VIEWPORT {| frame_current := 10; frame_subframe := 1 |};
                  MatrixCopy (translation4 {| vx := 1; vy := 0; vz := 0 |})] |}).
Proof.
  apply (get_instances_growing_dupli_list_raises
           growing (scene_with_shutter 0.25 1) frame10).
  - reflexivity.
  - vm_compute. lia.
Defined.

(** *** Particle systems and the dupli-list *)

(** A system that is not an emitter, with two particles. *)
Definition hair : ParticleSystem :=
  {| settings_type := HAIR;
     settings_render_type := OBJECT;
     particles := λ _, [7; 8]%nat;
     alive_state := λ _ _, ALIVE;
     size := λ _ _, 1;
     location := λ _ _, {| vx := 0; vy := 0; vz := 0 |} |}.

(** A parent with the emitter and the hair system, and a dupli-list of
    [n] duplis of the cube. *)
Definition field (blur : bool) (n : nat) : Object :=
  {| ob_enable_motion_blur := blur;
     ob_motion_blur_type := mb_object;
     modifiers := Some [PARTICLE_SYSTEM true emitter; PARTICLE_SYSTEM false dead_emitter;
                        PARTICLE_SYSTEM true hair];
     host_duplis := λ _ tl,
       (λ i, cube_dupli tl (float_of_int (Z.of_nat i))) <$> seq 0 n |}.

Lemma get_psys_instances_static_witness :
  (∃ d h',
     get_psys_instances (field false 4) (scene_with_shutter 0 1) frame10 = (Ok d, h')
     ∧ timeline h' = timeline frame10 ∧ dupli_list h' = []
     ∧ dupli_creations (trace h') = [timeline frame10])
  ∧ (∃ h',
       get_psys_instances (field false 3) (scene_with_shutter 0 1) frame10
       = (Raise IndexError, h')
       ∧ timeline h' = timeline frame10
       ∧ length (dupli_list h') = 3%nat).
Proof.
  split.
  - apply (get_psys_instances_static_needs_one_dupli_per_particle
             (field false 4) (scene_with_shutter 0 1)
             [PARTICLE_SYSTEM true emitter; PARTICLE_SYSTEM false dead_emitter;
              PARTICLE_SYSTEM true hair] frame10); [reflexivity|reflexivity|].
    vm_compute. lia.
  - destruct (get_psys_instances_static_needs_one_dupli_per_particle
                (field false 3) (scene_with_shutter 0 1)
                [PARTICLE_SYSTEM true emitter; PARTICLE_SYSTEM false dead_emitter;
                 PARTICLE_SYSTEM true hair] frame10 eq_refl eq_refl) as [_ Hraise].
    destruct Hraise as (h' & Hrun & Htl & Hdl); [vm_compute; lia|].
    exists h'. split; [exact Hrun|]. split; [exact Htl|]. by rewrite Hdl.
Defined.

(** The host with the dupli-list of [field] created, as it is inside
    [get_psys_instances]. *)
Definition frame10_with_duplis (n : nat) : host :=
  {| timeline := timeline frame10;
     dupli_list := host_duplis (field false n) RENDER (timeline frame10);
     trace := [DupliListCreate RENDER (timeline frame10)] |}.

Lemma static_hair_witness :
  ∃ d, static_dupli_dict hair [7; 8]%nat 2 (2 + 2) (frame10_with_duplis 4)
       = (Ok d, with_trace (frame10_with_duplis 4)
                  (copies (dupli_list (frame10_with_duplis 4))))
       ∧ Dict.keys d = [7; 8]%nat
       ∧ ∀ k p, [7; 8]%nat !! k = Some p →
           ∃ d_obj d_mat,
             dupli_list (frame10_with_duplis 4) !! (2 + k)%nat = Some d_obj
             ∧ dupli_list (frame10_with_duplis 4) !! k = Some d_mat
             ∧ Dict.get p d = Some (dupli_object d_obj, [dupli_matrix d_mat]).
Proof.
  apply (static_dupli_dict_hair_matrix_by_position hair [7; 8]%nat 2
           (frame10_with_duplis 4)).
  - reflexivity.
  - repeat constructor; rewrite ?elem_of_cons, ?elem_of_nil; intros Hin;
      repeat destruct Hin as [Hin|Hin]; done.
  - vm_compute. lia.
Defined.

Lemma pair_index_and_state_witness :
  ∃ d i h',
    sample_psys_mblur (plane true emitter) (scene_with_shutter 0.25 1) emitter 3 0 2 frame10
    = (Ok (ReturnPair d i), h')
    ∧ i = 8%nat
    ∧ Dict.keys d = [0; 1]%nat
    ∧ timeline h' = {| frame_current := 10; frame_subframe := 0 |}
    ∧ dupli_list h' = [].
Proof.
  eexists _, _, _. split; [vm_compute; reflexivity|].
  edestruct (sample_psys_mblur_pair_index_and_state
               (plane true emitter) (scene_with_shutter 0.25 1) emitter 3 0 2 frame10)
    as (Hi & _ & _ & Htl & Hdl); [vm_compute; reflexivity|].
  split; [exact Hi|]. split; [reflexivity|]. split; [exact Htl|exact Hdl].
Defined.

(** A parent with the emitter and no dupli. *)
Definition bare (psys : ParticleSystem) : Object :=
  {| ob_enable_motion_blur := true;
     ob_motion_blur_type := mb_object;
     modifiers := Some [PARTICLE_SYSTEM true psys];
     host_duplis := λ _ _, [] |}.

Lemma emitter_without_duplis_witness :
  (sample_psys_mblur (bare emitter) (scene_with_shutter 0 1) emitter 0 0 2 frame10).1
  = Raise UnboundLocalError
  ∧ (psys_step (bare emitter) (scene_with_shutter 0 1) (PARTICLE_SYSTEM true emitter)
       {| all_duplis := []; current_total := 0; index := 0 |} frame10).1
    = Raise UnboundLocalError.
Proof.
  destruct (sample_psys_mblur_emitter_without_duplis
              (bare emitter) (scene_with_shutter 0 1) emitter 0 0 2 frame10
              {| all_duplis := []; current_total := 0; index := 0 |})
    as [Hraise Hstep].
  - reflexivity.
  - vm_compute. discriminate.
  - reflexivity.
  - split; [exact Hraise|]. apply Hstep; reflexivity.
Defined.

Lemma matrices_per_particle_witness :
  ∃ e, Dict.get 1%nat
         (match (get_psys_instances (plane true emitter) (scene_with_shutter 0.5 0.5)
                   frame10).1 with
          | Ok d => d
          | Raise _ => []
          end) = Some e
       ∧ length e.2 = 1%nat.
Proof.
  eexists. split; [vm_compute; reflexivity|].
  apply (get_psys_instances_matrices_per_particle
           (plane true emitter) (scene_with_shutter 0.5 0.5) frame10
           (match (get_psys_instances (plane true emitter) (scene_with_shutter 0.5 0.5)
                     frame10).1 with
            | Ok d => d
            | Raise _ => []
            end)
           (get_psys_instances (plane true emitter) (scene_with_shutter 0.5 0.5)
              frame10).2 1%nat).
  - vm_compute. reflexivity.
  - vm_compute. reflexivity.
Defined.

Lemma nothing_rendered_witness :
  get_psys_instances shrinking (scene_with_shutter 0 1) frame10 = (Ok [], frame10)
  ∧ get_psys_instances
      {| ob_enable_motion_blur := false; ob_motion_blur_type := mb_object;
         modifiers := Some [OtherModifier "SUBSURF" true; PARTICLE_SYSTEM false emitter];
         host_duplis := λ _ _, [] |}
      (scene_with_shutter 0 1) frame10
    = (Ok [],
       {| timeline := timeline frame10; dupli_list := [];
          trace := [DupliListCreate RENDER (timeline frame10); DupliListClear] |}).
Proof.
  split.
  - destruct (get_psys_instances_nothing_rendered shrinking (scene_with_shutter 0 1)
                frame10) as [_ Hnone].
    apply (Hnone []); reflexivity.
  - destruct (get_psys_instances_nothing_rendered
                {| ob_enable_motion_blur := false; ob_motion_blur_type := mb_object;
                   modifiers := Some [OtherModifier "SUBSURF" true;
                                      PARTICLE_SYSTEM false emitter];
                   host_duplis := λ _ _, [] |}
                (scene_with_shutter 0 1) frame10) as [_ Hnone].
    apply (Hnone [OtherModifier "SUBSURF" true; PARTICLE_SYSTEM false emitter]);
      reflexivity.
Defined.

(** A parent set for deformation blur, in a scene where both kinds of
    blur are on. *)
Definition deforming : Object :=
  {| ob_enable_motion_blur := true;
     ob_motion_blur_type := mb_deformation;
     modifiers := Some [];
     host_duplis := λ _ tl, [cube_dupli tl 0; cube_dupli tl 1] |}.

Definition blurred_scene : Scene :=
  {| enable_motion_blur := true;
     enable_object_blur := true;
     enable_deformation_blur := true;
     shutter_open := 0;
     shutter_close := 1 |}.

Lemma deformation_blur_witness :
  ob_mblur_enabled deforming blurred_scene = false
  ∧ ∃ l h', get_instances deforming blurred_scene frame10 = (Ok (StaticInstances l), h')
            ∧ length l = 2%nat
            ∧ timeline h' = timeline frame10
            ∧ dupli_creations (trace h') = [timeline frame10].
Proof.
  destruct (deformation_blur_excludes_object_blur deforming blurred_scene frame10)
    as (_ & _ & Hstatic).
  split; [reflexivity|]. apply Hstatic. reflexivity.
Defined.

Lemma emitter_entries_witness :
  ∃ d i h',
    sample_psys_mblur (plane true emitter) (scene_with_shutter 0.25 1) emitter 0 0 2 frame10
    = (Ok (ReturnPair d i), h')
    ∧ Dict.get 1%nat d
      = Some (cube,
              [matmul4 (translation4 {| vx := 0.25; vy := 5; vz := 0 |})
                 (matmul4 (matmul4 (scale4 2 4 (1, 0, 0)%Z) (scale4 4 4 (0, 1, 0)%Z))
                          (scale4 6 4 (0, 0, 1)%Z));
               matmul4 (translation4 {| vx := 1; vy := 5; vz := 0 |})
                 (matmul4 (matmul4 (scale4 2 4 (1, 0, 0)%Z) (scale4 4 4 (0, 1, 0)%Z))
                          (scale4 6 4 (0, 0, 1)%Z))]).
Proof.
  apply (sample_psys_mblur_emitter_entries
           (plane true emitter) (scene_with_shutter 0.25 1) emitter 0 0 2 frame10
           1 1%nat (cube_dupli {| frame_current := 10; frame_subframe := 0.25 |} 1)).
  - reflexivity.
  - vm_compute. repeat constructor; rewrite ?elem_of_cons, ?elem_of_nil; intros Hin;
      repeat destruct Hin as [Hin|Hin]; done.
  - reflexivity.
  - reflexivity.
Defined.


(** *** The search for the directory [bin] *)

Lemma search_paths_witness :
  Osl.get_osl_search_paths_within 2 ["opt"; "bin"; "appleseed"; "bin"; "tools"]
  = Some (["opt"; "bin"; "appleseed"; "bin"],
          [["opt"; "bin"; "appleseed"; "shaders"; "appleseed"];
           ["opt"; "bin"; "appleseed"; "shaders"; "blenderseed"]])
  ∧ Osl.get_osl_search_paths_within 1 ["opt"; "bin"; "appleseed"; "bin"; "tools"] = None.
Proof.
  split.
  - apply (Osl.get_osl_search_paths_from_last_bin ["opt"; "bin"; "appleseed"] ["tools"] 2).
    rewrite elem_of_cons, elem_of_nil. by intros [|].
  - apply (Osl.get_osl_search_paths_from_last_bin ["opt"; "bin"; "appleseed"] ["tools"] 1).
    rewrite elem_of_cons, elem_of_nil. by intros [|].
Defined.

Lemma search_paths_without_bin_witness :
  (∀ fuel, Osl.get_osl_search_paths_within fuel ["opt"; "appleseed"] = None
           ∧ Osl.get_appleseed_parent_dir_within fuel ["opt"; "appleseed"] = None)
  ∧ Osl.read_osl_shaders nat "/opt/appleseed" (λ _, ["opt"; "appleseed"]) isdir listdir
      shader_query strip_oso no_effects
    = None.
Proof.
  destruct (Osl.get_osl_search_paths_without_bin_never_returns nat "/opt/appleseed"
              (λ _, ["opt"; "appleseed"]) isdir listdir shader_query strip_oso
              ["opt"; "appleseed"] no_effects) as (Hloop & _ & Hread).
  - rewrite !elem_of_cons, elem_of_nil. by intros [|[|]].
  - split; [exact Hloop|]. apply Hread. reflexivity.
Defined.

Lemma one_node_per_oso_file_witness :
  ∃ records,
    Osl.read_osl_shaders nat "/opt/appleseed/bin" (λ _, ["opt"; "appleseed"; "bin"])
      isdir listdir shader_query strip_oso no_effects
    = Some ((λ f, Osl.shader_node nat shader_query strip_oso f.1 f.2)
              <$> [(["opt"; "appleseed"; "shaders"; "appleseed"], "as_glass.oso");
                   (["opt"; "appleseed"; "shaders"; "appleseed"], "as_metal.oso")],
            {| Osl.log := records;
               Osl.opened := [["opt"; "appleseed"; "shaders"; "appleseed"; "as_glass.oso"];
                              ["opt"; "appleseed"; "shaders"; "appleseed"; "as_metal.oso"]] |})
    ∧ Forall (λ r, r.1 = Osl.DEBUG) records.
Proof.
  destruct (Osl.read_osl_shaders_one_node_per_oso_file nat "/opt/appleseed/bin"
              (λ _, ["opt"; "appleseed"; "bin"]) isdir listdir shader_query strip_oso
              ["opt"; "appleseed"; "bin"] ["opt"; "appleseed"; "bin"]
              [["opt"; "appleseed"; "shaders"; "appleseed"];
               ["opt"; "appleseed"; "shaders"; "blenderseed"]]
              no_effects eq_refl eq_refl) as (records & Hrun & Hrecords & _).
  exists records. split; [exact Hrun|exact Hrecords].
Defined.

(** *** The Python path *)

Import Stdlib.Strings.Ascii.

(** An interpreter whose [sys.path] holds the Python path of appleseed
    already, between two other entries. *)
Definition interpreter : PythonPaths.process :=
  {| PythonPaths.sys_path := ["/usr/lib/python3"; "/opt/appleseed/lib/python2.7"; "/home/user"];
     PythonPaths.environ := [("PATH", "C:/Windows;C:/Tools")];
     PythonPaths.log := [] |}.

Definition path_text (p : Osl.path) : string := Osl.show_path p.

(** [repr] of a string that holds neither quotes nor backslashes. *)
Definition repr (s : string) : string := ("'" ++ s ++ "'")%string.

Lemma load_then_unload_witness :
  ∃ s1 s2,
    PythonPaths.load_appleseed_python_paths "/opt/appleseed/bin"
      (λ _, ["opt"; "appleseed"; "bin"]) path_text "Linux" ":" 3 interpreter
    = Some (PythonPaths.Returns, s1)
    ∧ PythonPaths.unload_appleseed_python_paths "/opt/appleseed/bin"
        (λ _, ["opt"; "appleseed"; "bin"]) path_text "Linux" ":" repr 3 s1
      = Some (PythonPaths.Returns, s2)
    ∧ PythonPaths.sys_path s2
      = ["/usr/lib/python3"; "/home/user"; "/opt/appleseed/lib/python2.7"].
Proof.
  destruct (PythonPaths.load_then_unload_restores_the_entries_of_sys_path
              "/opt/appleseed/bin" (λ _, ["opt"; "appleseed"; "bin"]) path_text "Linux"
              ":" repr 3 interpreter
              {| PythonPaths.sys_path :=
                   ["/usr/lib/python3"; "/opt/appleseed/lib/python2.7"; "/home/user";
                    "/opt/appleseed/lib/python2.7"];
                 PythonPaths.environ := [("PATH", "C:/Windows;C:/Tools")];
                 PythonPaths.log :=
                   [(Osl.DEBUG,
                     "[appleseed] Python path set to: /opt/appleseed/lib/python2.7")] |}
              "/opt/appleseed/lib/python2.7")
    as (s2 & Hunload & _ & _ & _ & Hmoved);
    [vm_compute; reflexivity|discriminate|vm_compute; reflexivity|].
  eexists _, s2. split; [vm_compute; reflexivity|]. split; [exact Hunload|].
  apply (Hmoved ["/usr/lib/python3"] ["/home/user"]); [reflexivity|].
  rewrite elem_of_cons, elem_of_nil. by intros [|].
Defined.

Lemma unload_without_load_witness :
  PythonPaths.unload_appleseed_python_paths "/opt/appleseed/bin"
    (λ _, ["opt"; "appleseed"; "bin"]) path_text "Linux" ":" repr 3
    {| PythonPaths.sys_path := ["/usr/lib/python3"]; PythonPaths.environ := [];
       PythonPaths.log := [] |}
  = Some (PythonPaths.Raises PythonPaths.ValueError,
          {| PythonPaths.sys_path := ["/usr/lib/python3"]; PythonPaths.environ := [];
             PythonPaths.log := [] |}).
Proof.
  destruct (PythonPaths.unload_without_load_raises_ValueError "/opt/appleseed/bin"
              (λ _, ["opt"; "appleseed"; "bin"]) path_text "Linux" ":" repr 3
              {| PythonPaths.sys_path := ["/usr/lib/python3"]; PythonPaths.environ := [];
                 PythonPaths.log := [] |}
              "/opt/appleseed/lib/python2.7") as [Hraise _]; [vm_compute; reflexivity|].
  apply Hraise; [discriminate|]. simpl.
  rewrite elem_of_cons, elem_of_nil. by intros [|].
Defined.

Lemma unload_on_Windows_witness :
  ∃ s1 s2,
    PythonPaths.load_appleseed_python_paths "C:/appleseed/bin"
      (λ _, ["appleseed"; "bin"]) path_text "Windows" ";" 3 interpreter
    = Some (PythonPaths.Returns, s1)
    ∧ Dict.get "PATH" (PythonPaths.environ s1) = Some "C:/Windows;C:/Tools;/appleseed/bin"
    ∧ PythonPaths.unload_appleseed_python_paths "C:/appleseed/bin"
        (λ _, ["appleseed"; "bin"]) path_text "Windows" ";" repr 3 s1
      = Some (PythonPaths.Returns, s2)
    ∧ Dict.get "PATH" (PythonPaths.environ s2) = Some "['C:/Windows', 'C:/Tools']".
Proof.
  edestruct (PythonPaths.unload_on_Windows_sets_PATH_to_the_text_of_a_list
               "C:/appleseed/bin" (λ _, ["appleseed"; "bin"]) path_text "Windows" ";" repr
               3 interpreter "/appleseed/lib/python2.7" "C:/Windows;C:/Tools")
    as (s1 & s2 & Hload & Hpath1 & Hunload & Hpath2 & _);
    [reflexivity|vm_compute; reflexivity|discriminate|reflexivity| |].
  - apply (bool_decide_unpack _). vm_compute. exact I.
  - exists s1, s2. split; [exact Hload|]. split; [exact Hpath1|].
    split; [exact Hunload|exact Hpath2].
Defined.

Lemma find_python_path_witness :
  PythonPaths.find_python_path "" (λ _, []) path_text 9
    {| PythonPaths.sys_path := []; PythonPaths.environ := [("APPLESEED_PYTHON_PATH", "/py")];
       PythonPaths.log := [] |}
  = Some "/py"
  ∧ PythonPaths.find_python_path "/opt/appleseed/bin/tools"
      (λ _, ["opt"; "appleseed"; "bin"; "tools"]) path_text 2 interpreter
    = Some "/opt/appleseed/lib/python2.7"
  ∧ PythonPaths.load_appleseed_python_paths "" (λ _, []) path_text "Linux" ":" 9
      interpreter
    = None.
Proof.
  split; [|split].
  - apply (PythonPaths.find_python_path_prefers_the_environment "" (λ _, []) path_text
             "Linux" ":" repr 9). reflexivity.
  - destruct (PythonPaths.find_python_path_prefers_the_environment
                "/opt/appleseed/bin/tools" (λ _, ["opt"; "appleseed"; "bin"; "tools"])
                path_text "Linux" ":" repr 2 interpreter) as [_ Hunset].
    destruct (Hunset eq_refl) as [Hfound _].
    apply (Hfound ["opt"; "appleseed"] ["tools"]); [reflexivity| |simpl; lia].
    rewrite elem_of_cons, elem_of_nil. by intros [|].
  - destruct (PythonPaths.find_python_path_prefers_the_environment "" (λ _, []) path_text
                "Linux" ":" repr 9 interpreter) as [_ Hunset].
    destruct (Hunset eq_refl) as [_ Hloop].
    apply Hloop. intros bin_dir Hbin. discriminate.
Defined.

(** *** Layers and export *)

Definition lamp (hidden : bool) : SceneExport.BlObject :=
  {| SceneExport.hide_render := hidden; SceneExport.type := "LAMP";
     SceneExport.layers := [false; true; true] |}.

Lemma inscenelayer_witness :
  SceneExport.inscenelayer (lamp false) {| SceneExport.scene_layers := [true; false; true] |}
  = Ok SceneExport.PyTrue
  ∧ SceneExport.inscenelayer (lamp false)
      {| SceneExport.scene_layers := [true; false; false] |}
    = Ok SceneExport.PyNone
  ∧ SceneExport.inscenelayer (lamp false) {| SceneExport.scene_layers := [true] |}
    = Raise IndexError.
Proof.
  split; [|split].
  - destruct (SceneExport.inscenelayer_True_or_None (lamp false)
                {| SceneExport.scene_layers := [true; false; true] |})
      as (_ & _ & _ & _ & Hsame).
    apply Hsame. simpl. lia.
  - destruct (SceneExport.inscenelayer_True_or_None (lamp false)
                {| SceneExport.scene_layers := [true; false; false] |})
      as (_ & _ & _ & _ & Hsame).
    apply Hsame. simpl. lia.
  - destruct (SceneExport.inscenelayer_True_or_None (lamp false)
                {| SceneExport.scene_layers := [true] |})
      as (_ & _ & Hraise & _).
    apply Hraise. exists 1%nat.
    split; [lia|]. split; [done|]. split; [done|]. split; [done|].
    intros j Hj. assert (j = 0%nat) as -> by lia. done.
Defined.

Lemma do_export_witness :
  SceneExport.do_export (lamp true) {| SceneExport.scene_layers := [] |}
  = Ok SceneExport.PyFalse
  ∧ SceneExport.do_export (lamp false) {| SceneExport.scene_layers := [true; false; true] |}
    = SceneExport.inscenelayer (lamp false)
        {| SceneExport.scene_layers := [true; false; true] |}.
Proof.
  split.
  - destruct (SceneExport.do_export_truthy (lamp true)
                {| SceneExport.scene_layers := [] |}) as (Hfalse & _ & _).
    apply Hfalse. by left.
  - destruct (SceneExport.do_export_truthy (lamp false)
                {| SceneExport.scene_layers := [true; false; true] |}) as (_ & Hlayer & _).
    apply Hlayer; [done|]. apply (bool_decide_unpack _). vm_compute. exact I.
Defined.

(** *** The timer *)

(** Seconds as a float, for differences that a float holds exactly. *)
Definition total_seconds (microseconds : Z) : float :=
  (if (microseconds <? 0)%Z then - float_of_int (- microseconds)
   else float_of_int microseconds) / 1000000.

Lemma elapsed_witness :
  Profiling.elapsed total_seconds
    (Profiling.run [Profiling.Stop 2500000] (Profiling.Timer_init 1000000))
  = Ok 1.5
  ∧ Profiling.elapsed total_seconds
      (Profiling.run [Profiling.Stop 2500000; Profiling.Start 3000000]
         (Profiling.Timer_init 1000000))
    = Ok (-0.5)
  ∧ Profiling.elapsed total_seconds (Profiling.Timer_init 1000000) = Raise AttributeError.
Proof.
  destruct (Profiling.elapsed_is_last_stop_minus_last_start total_seconds 1000000 [])
    as (_ & Hinit & Hnext).
  destruct (Hnext 2500000%Z ltac:(lia) ltac:(constructor)) as [[Hstop _] _].
  destruct (Profiling.elapsed_is_last_stop_minus_last_start total_seconds 1000000
              [Profiling.Stop 2500000]) as (_ & _ & Hnext').
  destruct (Hnext' 3000000%Z ltac:(lia)) as [_ [Hstart _]].
  { repeat constructor. simpl. lia. }
  split; [exact Hstop|]. split; [exact Hstart|exact Hinit].
Defined.

(** *** Particle system tests *)

Definition hair_settings : Particles.ParticleSettings :=
  {| Particles.type := "HAIR"; Particles.render_type := "PATH";
     Particles.dupli_object := None; Particles.dupli_group := None;
     Particles.use_render_emitter := true |}.

Definition object_settings : Particles.ParticleSettings :=
  {| Particles.type := "EMITTER"; Particles.render_type := "OBJECT";
     Particles.dupli_object := Some "Cube"; Particles.dupli_group := None;
     Particles.use_render_emitter := false |}.

Lemma particle_tests_witness :
  Particles.is_psys_emitter
    {| Particles.particle_systems := [hair_settings];
       Particles.modifiers := [Particles.PARTICLE_SYSTEM true hair_settings] |}
  && Particles.has_hairsys
       {| Particles.particle_systems := [hair_settings];
          Particles.modifiers := [Particles.PARTICLE_SYSTEM true hair_settings] |}
  = false.
Proof.
  destruct (Particles.particle_tests_are_existence_tests
              {| Particles.particle_systems := [hair_settings];
                 Particles.modifiers := [Particles.PARTICLE_SYSTEM true hair_settings] |})
    as (_ & _ & _ & Hone).
  apply (Hone (Particles.PARTICLE_SYSTEM true hair_settings)). reflexivity.
Defined.

(** *** Translators from construction to update *)

Lemma set_transform_key_one_key_per_time_witness :
  _xform_seq (set_transform_keys transpose2 master [0; 0.5; 1]
                [(0, empty_world); (0.5, empty_world); (1, empty_world)])
  = [(0, [[1; 3]; [2; 4]]%Z); (0.5, [[1; 3]; [2; 4]]%Z); (1, [[1; 3]; [2; 4]]%Z)]
  ∧ _num_instances (set_transform_keys transpose2 master [0; 0.5; 1]
                      [(0, empty_world); (0.5, empty_world); (1, empty_world)]) = 1%Z.
Proof.
  destruct (set_transform_key_one_key_per_time transpose2 master [0; 0.5; 1]
              [(0, empty_world); (0.5, empty_world); (1, empty_world)])
    as (Hseq & _ & Hnum).
  - intros [|[|[|i]]] [|[|[|j]]] ti tj Hi Hj Hij; simpl in Hi, Hj;
      try lia; try done; by simplify_eq.
  - repeat constructor.
  - split; [exact Hseq|exact Hnum].
Defined.

Lemma instance_translator_witness :
  let flushed :=
    InstanceTranslator_flush_entities
      (InstanceTranslator_create_entities transpose2
         (InstanceTranslator_init "Cube.001" "cube_001" master) empty_world).1
      empty_world in
  assembly_instances (assembly flushed.2)
  = [{| ai_name := "cube_001_ass_inst"; ai_assembly_name := "cube_ass";
        ai_transform_sequence := [(0, [[1; 3]; [2; 4]]%Z)] |}]
  ∧ (InstanceTranslator_update transpose2 flushed.1 "Cube.001" flushed.2).1.1 = Ok tt.
Proof.
  destruct (instance_translator_from_init_to_update transpose2 "Cube.001" "cube_001"
              master empty_world "Cube.001") as (Hflush & _ & Hupdate).
  - intros i Hi. by apply elem_of_nil in Hi.
  - split; [exact Hflush|]. exact (f_equal (λ r, r.1.1) Hupdate).
Defined.



End Examples.
